(** * Travelling salesman by simulated annealing: a model of [Main.py]

    The development embeds the computational core of [Main.py]
    ([get_coordinates], [get_distances_list], [get_efficiency],
    [get_initial_solution], [get_probability], [do_simulated_annealing])
    and proves properties of it.

    Conventions.
    - A Python [float] is an IEEE-754 binary64 value: [spec_float] with
      precision 53 and maximal exponent 1024, with the arithmetic of
      [SpecFloat].
    - A Python [int] is a [Z]; a list is a [list]; list indexing follows
      Python (negative indices count from the end, out of range raises
      [IndexError]).
    - A computation that may raise returns a [res]; the exceptions are those
      the interpreter raises on the paths the program takes.
    - The pseudo-random generator is a tape of raw integers consumed from the
      front, so that "every outcome of the random choices" is "every tape".
    - [math.pow], [math.exp], [str.split] and [int] are library functions of
      the interpreter; they are taken as an interface ([Runtime]). *)

From Stdlib Require Import ZArith List Bool Lia Ascii String Permutation Finite.
From Stdlib Require Import Floats.SpecFloat.
Import ListNotations.
Open Scope Z_scope.

(** ** Exceptions and results *)

Inductive exn : Type :=
| ValueError
| IndexError
| OverflowError
| ZeroDivisionError.

Inductive res (A : Type) : Type :=
| Ok (a : A)
| Raise (e : exn).

Arguments Ok {A} a.
Arguments Raise {A} e.

Definition bind {A B : Type} (m : res A) (k : A -> res B) : res B :=
  match m with
  | Ok a => k a
  | Raise e => Raise e
  end.

Notation "x <- m ;; k" := (bind m (fun x => k))
  (at level 61, m at next level, right associativity).

Fixpoint mapM {A B : Type} (f : A -> res B) (l : list A) : res (list B) :=
  match l with
  | [] => Ok []
  | a :: l' => b <- f a ;; bs <- mapM f l' ;; Ok (b :: bs)
  end.

(** ** Python lists *)

Definition len {A : Type} (l : list A) : Z := Z.of_nat (List.length l).

(** [l[i]] *)
Definition getitem {A : Type} (l : list A) (i : Z) : res A :=
  let j := if i <? 0 then i + len l else i in
  if (0 <=? j) && (j <? len l) then
    match nth_error l (Z.to_nat j) with
    | Some a => Ok a
    | None => Raise IndexError
    end
  else Raise IndexError.

(** [range(n)] *)
Definition range (n : Z) : list Z := map Z.of_nat (seq 0 (Z.to_nat n)).

(** [l.remove(x)]: drops the first occurrence, [ValueError] if there is none. *)
Fixpoint list_remove (x : Z) (l : list Z) : res (list Z) :=
  match l with
  | [] => Raise ValueError
  | y :: l' => if y =? x then Ok l' else r <- list_remove x l' ;; Ok (y :: r)
  end.

(** Clamping of a slice bound, as the interpreter does for [l[lo:hi]]. *)
Definition slice_bound (n i : Z) : nat :=
  Z.to_nat (if i <? 0 then Z.max 0 (i + n) else Z.min i n).

(** [l[lo:hi]] *)
Definition getslice {A : Type} (l : list A) (lo hi : Z) : list A :=
  let a := slice_bound (len l) lo in
  let b := slice_bound (len l) hi in
  firstn (b - a) (skipn a l).

(** [l[lo:hi] = v] *)
Definition setslice {A : Type} (l : list A) (lo hi : Z) (v : list A) : list A :=
  let a := slice_bound (len l) lo in
  let b := Nat.max a (slice_bound (len l) hi) in
  firstn a l ++ v ++ skipn b l.

(** ** Python floats *)

Definition float : Type := spec_float.

Definition prec : Z := 53.
Definition emax : Z := 1024.

Definition fzero : float := S754_zero false.
Definition fnan : float := S754_nan.

Definition fadd : float -> float -> float := SFadd prec emax.
Definition fsub : float -> float -> float := SFsub prec emax.
Definition fmul : float -> float -> float := SFmul prec emax.
Definition fneg : float -> float := SFopp.
Definition fabs : float -> float := SFabs.
Definition flt : float -> float -> bool := SFltb.
Definition fle : float -> float -> bool := SFleb.
Definition feq : float -> float -> bool := SFeqb.

Definition is_nan (x : float) : bool :=
  match x with S754_nan => true | _ => false end.

Definition is_zero (x : float) : bool :=
  match x with S754_zero _ => true | _ => false end.

(** Conversion of an [int] to a [float]: round to nearest even,
    [OverflowError] when the integer is too large. *)
Definition float_of_int (z : Z) : res float :=
  match binary_normalize prec emax z 0 false with
  | S754_infinity _ => Raise OverflowError
  | x => Ok x
  end.

(** The value of a decimal literal [n / d], correctly rounded. *)
Definition float_of_ratio (n d : positive) : float :=
  let '(q, e, l) := SFdiv_core_binary prec emax (Zpos n) 0 (Zpos d) 0 in
  binary_round_aux prec emax false q e l.

(** [x / y] on floats *)
Definition fdiv (x y : float) : res float :=
  if is_zero y then Raise ZeroDivisionError else Ok (SFdiv prec emax x y).

(** [math.sqrt] *)
Definition math_sqrt (x : float) : res float :=
  if flt x fzero then Raise ValueError else Ok (SFsqrt prec emax x).

(** [round(x, ndigits)] for [ndigits >= 0]: the exact value of [x] is rounded
    half-even to [ndigits] decimals, and the decimal obtained is converted
    back to the nearest float. *)
Definition round_half_even (n d : Z) : Z :=
  let q := n / d in
  let r := n mod d in
  match 2 * r ?= d with
  | Lt => q
  | Gt => q + 1
  | Eq => if Z.even q then q else q + 1
  end.

Definition py_round (x : float) (ndigits : Z) : float :=
  match x with
  | S754_finite s m e =>
      let p := Z.pow 10 ndigits in
      let k := if 0 <=? e
               then Zpos m * Z.pow 2 e * p
               else round_half_even (Zpos m * p) (Z.pow 2 (- e)) in
      match k with
      | Zpos k' =>
          let '(q, e', l) := SFdiv_core_binary prec emax (Zpos k') 0 p 0 in
          binary_round_aux prec emax s q e' l
      | _ => S754_zero s
      end
  | _ => x
  end.

(** ** The interpreter's library *)

(** [math.pow] and [math.exp] are the C library's functions behind the
    interpreter's error checks ([OverflowError], [ValueError]); [str_split]
    is [str.split()] and [py_int] is [int(s)] ([ValueError] on a malformed
    literal). *)
Class Runtime : Type := {
  math_pow : float -> float -> res float;
  math_exp : float -> res float;
  str_split : string -> list string;
  py_int : string -> res Z
}.

(** ** The random source *)

Definition tape : Type := nat -> Z.

Definition tape_cons (z : Z) (t : tape) : tape :=
  fun n => match n with O => z | S n' => t n' end.

Definition tape_tail (t : tape) : tape := fun n => t (S n).

(** [random.randint(a, b)]: an integer of [a..b], [ValueError] when the range
    is empty. *)
Definition randint (a b : Z) (t : tape) : res (Z * tape) :=
  if b <? a then Raise ValueError
  else Ok (a + (t O) mod (b - a + 1), tape_tail t).

(** [random.random()]: a multiple of [2^-53] in [[0, 1)]. *)
Definition random_random (t : tape) : res (float * tape) :=
  Ok (binary_normalize prec emax ((t O) mod (2 ^ 53)) (-53) false, tape_tail t).

(** ** The program *)

Section Program.

Context {R : Runtime}.

Definition point : Type := (Z * Z)%type.

(** [int(each_line.split()[k])] *)
Definition field (each_line : string) (k : Z) : res Z :=
  s <- getitem (str_split each_line) k ;; py_int s.

Definition get_coordinates (coordinates_file : list string) : res (list point) :=
  mapM (fun each_line =>
          x <- field each_line 0 ;;
          y <- field each_line 1 ;;
          Ok (x, y))
       coordinates_file.

(** [math.pow(a - b, 2)] with integer [a], [b] *)
Definition pow2_diff (a b : Z) : res float :=
  d <- float_of_int (a - b) ;;
  two <- float_of_int 2 ;;
  math_pow d two.

(** [round(math.sqrt(math.pow(i[0] - j[0], 2) + math.pow(i[1] - j[1], 2)), 4)] *)
Definition i_to_j (i j : point) : res float :=
  dx <- pow2_diff (fst i) (fst j) ;;
  dy <- pow2_diff (snd i) (snd j) ;;
  r <- math_sqrt (fadd dx dy) ;;
  Ok (py_round r 4).

Definition get_distances_list (coordinates : list point) : res (list (list float)) :=
  mapM (fun i => mapM (fun j => i_to_j i j) coordinates) coordinates.

(** [distances_list[a][b]] *)
Definition entry (distances_list : list (list float)) (a b : Z) : res float :=
  row <- getitem distances_list a ;; getitem row b.

(** One round of the [for] loop of [get_efficiency]. *)
Definition efficiency_step (solution : list Z) (distances_list : list (list float))
    (efficiency : float) (i : Z) : res float :=
  if 0 <? i then
    a <- getitem solution (i - 1) ;;
    row <- getitem distances_list a ;;
    b <- getitem solution i ;;
    d <- getitem row b ;;
    Ok (fadd efficiency d)
  else Ok efficiency.

Fixpoint for_each {A S : Type} (body : S -> A -> res S) (l : list A) (s : S) : res S :=
  match l with
  | [] => Ok s
  | a :: l' => s' <- body s a ;; for_each body l' s'
  end.

Definition get_efficiency (solution : list Z) (distances_list : list (list float))
    (num_coordinates : Z) : res float :=
  efficiency <- for_each (efficiency_step solution distances_list)
                         (range num_coordinates) fzero ;;
  a <- getitem solution 0 ;;
  row <- getitem distances_list a ;;
  b <- getitem solution (num_coordinates - 1) ;;
  d <- getitem row b ;;
  Ok (py_round (fadd efficiency d) 4).

(** [min(l)] on floats: the first element that no later one is below. *)
Definition py_min (l : list float) : res float :=
  match l with
  | [] => Raise ValueError
  | x :: l' => Ok (fold_left (fun best y => if flt y best then y else best) l' x)
  end.

(** [l.index(v)] on floats: position of the first element equal to [v].
    (The interpreter also accepts the identical object, which differs from
    an equal one only for a NaN; what is proved of the returning runs of
    [get_initial_solution] is stated for matrices without NaN.) *)
Fixpoint list_index (l : list float) (v : float) : res Z :=
  match l with
  | [] => Raise ValueError
  | x :: l' => if feq x v then Ok 0 else k <- list_index l' v ;; Ok (k + 1)
  end.

(** The body of the [for] loop of [get_initial_solution], on the triple
    (current_node, temp_list, solution). *)
Definition greedy_step (dist_matrix : list (list float))
    (st : Z * list Z * list Z) : res (Z * list Z * list Z) :=
  let '(current_node, temp_list, solution) := st in
  distances <- mapM (fun i => entry dist_matrix current_node i) temp_list ;;
  m <- py_min distances ;;
  row <- getitem dist_matrix current_node ;;
  current_node' <- list_index row m ;;
  temp_list' <- list_remove current_node' temp_list ;;
  Ok (current_node', temp_list', solution ++ [current_node']).

Fixpoint greedy_loop (dist_matrix : list (list float)) (n : nat)
    (st : Z * list Z * list Z) : res (Z * list Z * list Z) :=
  match n with
  | O => Ok st
  | S n' => st' <- greedy_step dist_matrix st ;; greedy_loop dist_matrix n' st'
  end.

Definition get_initial_solution (dist_matrix : list (list float))
    (coordinates : list point) (t : tape) : res (list Z * tape) :=
  r <- randint 0 (len coordinates) t ;;
  let '(current_node, t') := r in
  temp_list <- list_remove current_node (range (len coordinates)) ;;
  st <- greedy_loop dist_matrix (List.length temp_list)
                    (current_node, temp_list, [current_node]) ;;
  Ok (snd st, t').

Definition get_probability (candidate_efficiency current_efficiency temperature : float)
    : res float :=
  q <- fdiv (fneg (fabs (fsub candidate_efficiency current_efficiency))) temperature ;;
  math_exp q.

(** The variables of [do_simulated_annealing]. *)
Record sa_state : Type := {
  temperature : float;
  current_efficiency : float;
  current_solution : list Z;
  best_efficiency : float;
  best_solution : list Z;
  efficiency_list : list float;
  i : Z
}.

Definition cooling : float := float_of_ratio 995 1000.

Definition sa_cond (st : sa_state) : bool :=
  flt fzero (temperature st) && (i st <? 100000).

(** The perturbation: a copy of the tour with a random segment reversed. *)
Definition perturb (n : Z) (current : list Z) (t : tape) : res (list Z * tape) :=
  r1 <- randint 2 (n - 1) t ;;
  let '(num_a, t1) := r1 in
  r2 <- randint 0 (n - num_a) t1 ;;
  let '(num_b, t2) := r2 in
  Ok (setslice current num_b (num_b + num_a)
        (rev (getslice current num_b (num_b + num_a))), t2).

(** Everything of the loop body before the cooling: the new current and best
    tours and efficiencies. *)
Definition accept (st : sa_state) (candidate : list Z) (candidate_efficiency : float)
    (t : tape) : res (sa_state * tape) :=
  if flt candidate_efficiency (current_efficiency st) then
    if flt candidate_efficiency (best_efficiency st) then
      Ok ({| temperature := temperature st;
             current_efficiency := candidate_efficiency;
             current_solution := candidate;
             best_efficiency := candidate_efficiency;
             best_solution := candidate;
             efficiency_list := efficiency_list st;
             i := i st |}, t)
    else
      Ok ({| temperature := temperature st;
             current_efficiency := candidate_efficiency;
             current_solution := candidate;
             best_efficiency := best_efficiency st;
             best_solution := best_solution st;
             efficiency_list := efficiency_list st;
             i := i st |}, t)
  else
    r <- random_random t ;;
    let '(u, t') := r in
    p <- get_probability candidate_efficiency (current_efficiency st) (temperature st) ;;
    if flt u p then
      Ok ({| temperature := temperature st;
             current_efficiency := candidate_efficiency;
             current_solution := candidate;
             best_efficiency := best_efficiency st;
             best_solution := best_solution st;
             efficiency_list := efficiency_list st;
             i := i st |}, t')
    else Ok (st, t').

Definition sa_body (distances_list : list (list float)) (n : Z)
    (st : sa_state) (t : tape) : res (sa_state * tape) :=
  r <- perturb n (current_solution st) t ;;
  let '(candidate, t1) := r in
  candidate_efficiency <- get_efficiency candidate distances_list n ;;
  r' <- accept st candidate candidate_efficiency t1 ;;
  let '(st', t2) := r' in
  Ok ({| temperature := fmul (temperature st') cooling;
         current_efficiency := current_efficiency st';
         current_solution := current_solution st';
         best_efficiency := best_efficiency st';
         best_solution := best_solution st';
         efficiency_list := efficiency_list st' ++ [current_efficiency st'];
         i := i st' + 1 |}, t2).

(** The [while] loop, unrolled at most [fuel] times; [None] when the fuel
    runs out before the loop exits (shown not to happen from the initial
    state with the fuel of the iteration cap). *)
Fixpoint sa_loop (distances_list : list (list float)) (n : Z) (fuel : nat)
    (st : sa_state) (t : tape) : option (res (sa_state * tape)) :=
  if sa_cond st then
    match fuel with
    | O => None
    | S fuel' =>
        match sa_body distances_list n st t with
        | Ok (st', t') => sa_loop distances_list n fuel' st' t'
        | Raise e => Some (Raise e)
        end
    end
  else Some (Ok (st, t)).

Definition sa_init (coordinates : list point) (current_solution : list Z)
    (starting_efficiency : float) : res sa_state :=
  n <- float_of_int (len coordinates) ;;
  temp <- math_sqrt n ;;
  Ok {| temperature := temp;
        current_efficiency := starting_efficiency;
        current_solution := current_solution;
        best_efficiency := starting_efficiency;
        best_solution := current_solution;
        efficiency_list := [starting_efficiency];
        i := 0 |}.

(** The loop run from the initial state, with the final state exposed. *)
Definition sa_run (coordinates : list point) (distances_list : list (list float))
    (current_solution : list Z) (starting_efficiency : float) (t : tape)
    : option (res (sa_state * tape)) :=
  match sa_init coordinates current_solution starting_efficiency with
  | Ok st => sa_loop distances_list (len coordinates) (Z.to_nat 100000) st t
  | Raise e => Some (Raise e)
  end.

Definition sa_result (r : res (sa_state * tape))
    : res (list Z * list float * float * tape) :=
  x <- r ;;
  Ok (best_solution (fst x), efficiency_list (fst x), best_efficiency (fst x), snd x).

Definition do_simulated_annealing (coordinates : list point)
    (distances_list : list (list float)) (current_solution : list Z)
    (starting_efficiency : float) (t : tape)
    : option (res (list Z * list float * float * tape)) :=
  option_map sa_result
    (sa_run coordinates distances_list current_solution starting_efficiency t).

(** What [my_main] computes before the annealing. *)
Definition prepare (coordinates_file : list string) (t : tape)
    : res (list point * list (list float) * list Z * float * tape) :=
  coordinates <- get_coordinates coordinates_file ;;
  distances_list <- get_distances_list coordinates ;;
  r <- get_initial_solution distances_list coordinates t ;;
  starting_efficiency <- get_efficiency (fst r) distances_list (len coordinates) ;;
  Ok (coordinates, distances_list, fst r, starting_efficiency, snd r).

(** The computation of [my_main]: everything before the report. *)
Definition my_main (coordinates_file : list string) (t : tape)
    : option (res (list Z * list float * float * tape)) :=
  match prepare coordinates_file t with
  | Ok (coordinates, distances_list, current_solution, starting_efficiency, t') =>
      do_simulated_annealing coordinates distances_list current_solution
        starting_efficiency t'
  | Raise e => Some (Raise e)
  end.

End Program.

(** ** A sample runtime

    An executable instance of the interface, used to run the program on
    concrete inputs.  Its [math.pow] covers natural exponents by repeated
    multiplication (exact whenever the power is representable) and reports an
    overflow as the interpreter does; its [math.exp] is the 20-fold squaring
    of [1 + x / 2^20]; [str.split] and [int] cover ASCII text. *)
Module Sample.

Definition fone : float := binary_normalize prec emax 1 0 false.

Definition is_finite (x : float) : bool :=
  match x with S754_zero _ | S754_finite _ _ _ => true | _ => false end.

Definition is_inf (x : float) : bool :=
  match x with S754_infinity _ => true | _ => false end.

(** The integer a float denotes, when it denotes one. *)
Definition int_of_float (y : float) : option Z :=
  match y with
  | S754_zero _ => Some 0
  | S754_finite s m e =>
      let v := if 0 <=? e then Some (Zpos m * 2 ^ e)
               else if (Zpos m) mod (2 ^ (- e)) =? 0 then Some (Zpos m / 2 ^ (- e))
               else None in
      option_map (fun z => if s then - z else z) v
  | _ => None
  end.

Definition pow (x y : float) : res float :=
  match int_of_float y with
  | Some 0 => Ok fone
  | Some (Zpos p) =>
      let r := Pos.iter (fmul x) fone p in
      if is_inf r && is_finite x then Raise OverflowError else Ok r
  | _ => Raise ValueError
  end.

Definition exp (x : float) : res float :=
  match x with
  | S754_nan => Ok x
  | S754_infinity false => Ok x
  | S754_infinity true => Ok fzero
  | _ =>
      if flt (float_of_ratio 70978 100) x then Raise OverflowError
      else if flt x (fneg (float_of_ratio 7452 10)) then Ok fzero
      else Ok (Pos.iter (fun y => fmul y y)
                 (fadd fone (fmul x (binary_normalize prec emax 1 (-20) false))) 20)
  end.

Definition is_space (c : Ascii.ascii) : bool :=
  let n := Ascii.nat_of_ascii c in
  ((9 <=? n) && (n <=? 13) || (28 <=? n) && (n <=? 32))%nat.

(** [cur] is the field being read, if any. *)
Fixpoint split_aux (s : string) (cur : option string) : list string :=
  match s with
  | EmptyString => match cur with Some w => [w] | None => [] end
  | String c s' =>
      if is_space c then
        match cur with
        | Some w => w :: split_aux s' None
        | None => split_aux s' None
        end
      else
        split_aux s' (Some (match cur with
                            | Some w => append w (String c EmptyString)
                            | None => String c EmptyString
                            end))
  end.

Definition split (s : string) : list string := split_aux s None.

Definition digit (c : Ascii.ascii) : option Z :=
  let n := Ascii.nat_of_ascii c in
  if ((48 <=? n) && (n <=? 57))%nat then Some (Z.of_nat n - 48) else None.

(** Digits, with single underscores allowed between two digits. *)
Fixpoint digits (s : string) (acc : Z) (after_digit : bool) : option Z :=
  match s with
  | EmptyString => if after_digit then Some acc else None
  | String c s' =>
      match digit c with
      | Some d => digits s' (10 * acc + d) true
      | None =>
          if (Ascii.eqb c "_"%char && after_digit)%bool
          then match s' with
               | EmptyString => None
               | _ => digits s' acc false
               end
          else None
      end
  end.

Definition int (s : string) : res Z :=
  let '(neg, body) :=
    match s with
    | String "-"%char s' => (true, s')
    | String "+"%char s' => (false, s')
    | _ => (false, s)
    end in
  match digits body 0 false with
  | Some z => Ok (if neg then - z else z)
  | None => Raise ValueError
  end.

#[export] Instance runtime : Runtime := {
  math_pow := pow;
  math_exp := exp;
  str_split := split;
  py_int := int
}.

End Sample.

(** ** Specifications *)

(** No entry of the matrix is a NaN. *)
Definition no_nan (dist_matrix : list (list float)) : bool :=
  forallb (forallb (fun d => negb (is_nan d))) dist_matrix.

(** [next] is the nearest city to [cur] among the cities of [0..n-1] outside
    [visited], and the one of lowest index among the nearest. *)
Definition nearest_unvisited (dist_matrix : list (list float)) (n : Z)
    (visited : list Z) (cur next : Z) : Prop :=
  0 <= next < n /\ ~ In next visited /\
  exists d, getitem dist_matrix cur = Ok d /\
  exists dn, getitem d next = Ok dn /\
  forall j, 0 <= j < n -> ~ In j visited ->
    exists dj, getitem d j = Ok dj /\ fle dn dj = true /\
               (feq dj dn = true -> next <= j).

(** Tours grown from a start city by nearest-unvisited steps. *)
Inductive nn_tour (dist_matrix : list (list float)) (n : Z) : list Z -> Prop :=
| nn_start (s : Z) : 0 <= s < n -> nn_tour dist_matrix n [s]
| nn_step (visited : list Z) (cur next : Z) :
    nn_tour dist_matrix n (visited ++ [cur]) ->
    nearest_unvisited dist_matrix n (visited ++ [cur]) cur next ->
    nn_tour dist_matrix n ((visited ++ [cur]) ++ [next]).

(** The float 2.0, the exponent the program passes to [math.pow]. *)
Definition ftwo : float := S754_finite false 4503599627370496 (-51).

(** What the proofs use of [math.pow]: at the exponent 2 it is even in its
    first argument and maps zero to zero, and of [math.exp]: it propagates a
    NaN and returns for every argument that is not positive. *)
Definition pow_even (R : Runtime) : Prop :=
  forall x, math_pow (fneg x) ftwo = math_pow x ftwo.

Definition pow_zero (R : Runtime) : Prop :=
  math_pow fzero ftwo = Ok fzero.

Definition exp_nan (R : Runtime) : Prop :=
  math_exp fnan = Ok fnan.

Definition exp_returns (R : Runtime) : Prop :=
  forall x, flt fzero x = false -> exists r, math_exp x = Ok r.

(** The cyclic length of a tour as the specification words it: the distances
    of the consecutive pairs in tour order, then the distance from the last
    city back to the first, summed from zero and rounded to 4 decimals. *)
Definition consecutive (tour : list Z) : list (Z * Z) := combine tour (tl tour).

Definition cyclic_length (tour : list Z) (distances_list : list (list float))
    : res float :=
  ds <- mapM (fun ab => entry distances_list (fst ab) (snd ab)) (consecutive tour) ;;
  back <- entry distances_list (last tour 0) (hd 0 tour) ;;
  Ok (py_round (fold_left fadd (ds ++ [back]) fzero) 4).

(** A matrix of [n] rows of [n] entries. *)
Definition square (distances_list : list (list float)) (n : Z) : Prop :=
  len distances_list = n /\ forall row, In row distances_list -> len row = n.

(** Every city of the tour is an index of [0..n-1]. *)
Definition cities (tour : list Z) (n : Z) : Prop :=
  Forall (fun a => 0 <= a < n) tour.

(** The matrix is symmetric on the indices [0..n-1]. *)
Definition symmetric (distances_list : list (list float)) (n : Z) : Prop :=
  forall a b, 0 <= a < n -> 0 <= b < n ->
    entry distances_list a b = entry distances_list b a.

(** The states of the annealing loop: [sa_reaches d n s s'] when [s'] is [s]
    after some number of iterations of the loop body, each entered with the
    loop condition true. *)
Inductive sa_reaches {R : Runtime} (distances_list : list (list float)) (n : Z)
    : sa_state * tape -> sa_state * tape -> Prop :=
| reach_here (s : sa_state * tape) : sa_reaches distances_list n s s
| reach_next (s s1 s2 : sa_state * tape) :
    sa_reaches distances_list n s s1 ->
    sa_cond (fst s1) = true ->
    sa_body distances_list n (fst s1) (snd s1) = Ok s2 ->
    sa_reaches distances_list n s s2.

(** ** Loop invariants *)

(** What the loop of [get_initial_solution] maintains on
    (current_node, temp_list, solution). *)
Definition greedy_inv (dist_matrix : list (list float)) (n : Z)
    (st : Z * list Z * list Z) : Prop :=
  let '(cur, temp_list, solution) := st in
  (exists visited, solution = visited ++ [cur]) /\
  nn_tour dist_matrix n solution /\
  Permutation (solution ++ temp_list) (range n).

(** The best efficiency is at most the current and the starting one. *)
Definition best_inv (start : float) (st : sa_state) : Prop :=
  fle (best_efficiency st) (current_efficiency st) = true /\
  fle (best_efficiency st) start = true.

(** Counter and trace along the annealing loop. *)
Definition trace_inv (start : float) (st : sa_state) : Prop :=
  0 <= i st <= 100000 /\
  len (efficiency_list st) = i st + 1 /\
  hd_error (efficiency_list st) = Some start.

(** The current tour has [n] cities of [0..n-1]. *)
Definition tour_inv (n : Z) (st : sa_state) : Prop :=
  len (current_solution st) = n /\ cities (current_solution st) n.

(** ** Sample data *)

(** The distances of the points (0,0), (0,3), (4,0). *)
Definition triangle : list point := [(0, 0); (0, 3); (4, 0)].

Definition f3 : float := S754_finite false 6755399441055744 (-51).
Definition f4 : float := S754_finite false 4503599627370496 (-50).
Definition f5 : float := S754_finite false 5629499534213120 (-50).

Definition triangle_matrix : list (list float) :=
  [[fzero; f3; f4]; [f3; fzero; f5]; [f4; f5; fzero]].

(** The efficiency 12 of the triangle. *)
Definition f12 : float := S754_finite false 6755399441055744 (-49).

(** Four cities with coordinates near 2^53.  The distances along the tour
    0, 1, 2, 3 are 2^53, 1, 2 and 2^53 back.  Added in tour order the sum
    rounds to 2^54; added in the order of the reversed tour it is 2^54 + 4. *)
Definition far_cities : list point :=
  [(0, 0); (2 ^ 53, 0); (2 ^ 53, 1); (2 ^ 53, 3)].

(** ** The report *)

(** [round((initial_efficiency - best_efficiency) / initial_efficiency, 4)] *)
Definition get_efficiency_improvement (initial_efficiency best : float) : res float :=
  q <- fdiv (fsub initial_efficiency best) initial_efficiency ;;
  Ok (py_round q 4).

(** The calls [draw_graphs] makes to the plotting module, in order. *)
Inductive plot_call : Type :=
| Plot (values : list float)
| YLabel (s : string)
| XLabel (s : string)
| Show
| PlotPoints (xs ys : list Z) (fmt : string)
| Arrow (x y dx dy : Z).

(** [arrow(xs[a], ys[a], xs[b] - xs[a], ys[b] - ys[a])] *)
Definition arrow_between (xs ys : list Z) (a b : Z) : res plot_call :=
  xa <- getitem xs a ;;
  ya <- getitem ys a ;;
  xb <- getitem xs b ;;
  xa' <- getitem xs a ;;
  yb <- getitem ys b ;;
  ya' <- getitem ys a ;;
  Ok (Arrow xa ya (xb - xa') (yb - ya')).

(** The calls made by a loop until its first exception, and how it ended. *)
Fixpoint calls_until {A : Type} (f : A -> res plot_call) (l : list A)
    : list plot_call * res unit :=
  match l with
  | [] => ([], Ok tt)
  | a :: l' =>
      match f a with
      | Ok c => let '(cs, r) := calls_until f l' in (c :: cs, r)
      | Raise e => ([], Raise e)
      end
  end.

(** [draw_graphs]: the calls made, and [Ok] or the exception that ended
    them.  (The two names of the plotting module in the source are one
    module.) *)
Definition draw_graphs (best_solution : list Z) (efficiency_list : list float)
    (coordinates : list point) : list plot_call * res unit :=
  let graph := [Plot efficiency_list; YLabel "Efficiency"; XLabel "Iteration"; Show] in
  match mapM (fun i => getitem coordinates i) best_solution with
  | Raise e => (graph, Raise e)
  | Ok pts =>
      let xs := map fst pts in
      let ys := map snd pts in
      let points := graph ++ [PlotPoints xs ys "co"] in
      match arrow_between xs ys (-1) 0 with
      | Raise e => (points, Raise e)
      | Ok back =>
          let '(arrows, r) :=
            calls_until (fun i => arrow_between xs ys i (i + 1)) (range (len xs - 1)) in
          match r with
          | Ok _ => (points ++ back :: arrows ++ [Show], Ok tt)
          | Raise e => (points ++ back :: arrows, Raise e)
          end
      end
  end.

(** The displacement of an arrow, and the point it starts from. *)
Definition arrow_dx (c : plot_call) : Z :=
  match c with Arrow _ _ dx _ => dx | _ => 0 end.

Definition arrow_dy (c : plot_call) : Z :=
  match c with Arrow _ _ _ dy => dy | _ => 0 end.

(** The arrow from point [p] to point [q]. *)
Definition arrow_from_to (p q : point) : plot_call :=
  Arrow (fst p) (snd p) (fst q - fst p) (snd q - snd p).

(** No two entries of any row are equal. *)
Definition distinct_rows (dist_matrix : list (list float)) : Prop :=
  forall row a b da db,
    In row dist_matrix ->
    nth_error row a = Some da -> nth_error row b = Some db ->
    feq da db = true -> a = b.


(** ** The whole of [my_main] *)

(** What [my_main] writes and draws, in order: the argument of each [print]
    and each call to the plotting module. *)
Inductive event : Type :=
| Printed (s : string)
| Draw (c : plot_call).

Definition newline : string := String (ascii_of_nat 10) EmptyString.

Section Report.

Context {R : Runtime}.

(** [str] of a float, its decimal text; it returns for every float. *)
Variable str : float -> string.

(** [print_results] *)
Definition print_results (algorithm_type : string) (best_efficiency improvement : float)
    : event :=
  Printed (algorithm_type ++ ":" ++ newline ++ "Optimum efficiency: "
           ++ str best_efficiency ++ newline ++ "Improvement: " ++ str improvement)%string.

(** [my_main] from the lines of the file to the last drawing: the events up
    to the end or to the first exception. *)
Definition my_main_report (coordinates_file : list string) (t : tape)
    : option (list event * res unit) :=
  match prepare coordinates_file t with
  | Raise e => Some ([], Raise e)
  | Ok (coordinates, distances_list, current_solution, starting_efficiency, t') =>
      let dashes := Printed "-------------------" in
      match do_simulated_annealing coordinates distances_list current_solution
              starting_efficiency t' with
      | None => None
      | Some (Raise e) => Some ([dashes], Raise e)
      | Some (Ok (sa_best_solution, sa_efficiency_list, sa_best_efficiency, _)) =>
          match get_efficiency_improvement starting_efficiency sa_best_efficiency with
          | Raise e => Some ([dashes], Raise e)
          | Ok improvement =>
              let '(calls, r) :=
                draw_graphs sa_best_solution sa_efficiency_list coordinates in
              Some (dashes
                    :: print_results "Simulated Annealing" sa_best_efficiency improvement
                    :: map Draw calls, r)
          end
      end
  end.

End Report.


(** ** Lines that can be read, and a square of cities *)

(** [int] applied to a string raises nothing but [ValueError]. *)
Definition int_value_error (R : Runtime) : Prop :=
  forall s e, py_int s = Raise e -> e = ValueError.

(** A line that reads as the point [p]: it has at least two fields, and
    [int] accepts the first two with the values of [p]. *)
Definition two_ints {R : Runtime} (each_line : string) (p : point) : Prop :=
  exists a b more,
    str_split each_line = a :: b :: more /\
    py_int a = Ok (fst p) /\ py_int b = Ok (snd p).

(** The interpreter with another [math.pow] and [math.exp]. *)
Definition with_math {R : Runtime} (pow' : float -> float -> res float)
    (exp' : float -> res float) : Runtime :=
  {| math_pow := pow'; math_exp := exp'; str_split := str_split; py_int := py_int |}.

(** The corners of the unit square, and their distances: 0.0, 1.0 and
    1.4142. *)
Definition unit_square : list point := [(0, 0); (1, 0); (1, 1); (0, 1)].

Definition f1 : float := S754_finite false 4503599627370496 (-52).

Definition f1_4142 : float := S754_finite false 6368990593027355 (-52).

Definition unit_square_matrix : list (list float) :=
  [[fzero; f1; f1_4142; f1];
   [f1; fzero; f1; f1_4142];
   [f1_4142; f1; fzero; f1];
   [f1; f1_4142; f1; fzero]].

(** * Facts about the comparison of floats *)

Ltac cmp_cases :=
  repeat match goal with
  | |- context [PosDef.Pos.compare_cont Eq ?a ?b] =>
      change (PosDef.Pos.compare_cont Eq a b) with (Pos.compare a b)
  | H : context [PosDef.Pos.compare_cont Eq ?a ?b] |- _ =>
      change (PosDef.Pos.compare_cont Eq a b) with (Pos.compare a b) in H
  | |- context [Z.compare ?a ?b] => destruct (Z.compare_spec a b)
  | H : context [Z.compare ?a ?b] |- _ => destruct (Z.compare_spec a b)
  | |- context [Pos.compare ?a ?b] => destruct (Pos.compare_spec a b)
  | H : context [Pos.compare ?a ?b] |- _ => destruct (Pos.compare_spec a b)
  end.

Ltac float_cases a m e := destruct a as [[]|[]| |[] m e].

Lemma SFcompare_antisym (a b : float) :
  SFcompare b a = option_map CompOpp (SFcompare a b).
Proof.
  float_cases a m1 e1; float_cases b m2 e2; simpl; try reflexivity;
    cmp_cases; simpl; subst; try reflexivity; try lia.
Qed.

Lemma SFcompare_trans (a b c : float) (x : comparison) :
  SFcompare a b = Some x -> SFcompare b c = Some x -> SFcompare a c = Some x.
Proof.
  float_cases a m1 e1; float_cases b m2 e2; float_cases c m3 e3;
    simpl; try congruence; intros H1 H2;
    cmp_cases; simpl in *; subst; try congruence; try lia.
Qed.

Lemma SFcompare_eq_l (a b c : float) (x : comparison) :
  SFcompare a b = Some Eq -> SFcompare b c = Some x -> SFcompare a c = Some x.
Proof.
  float_cases a m1 e1; float_cases b m2 e2; float_cases c m3 e3;
    simpl; try congruence; intros H1 H2;
    cmp_cases; simpl in *; subst; try congruence; try lia.
Qed.

Lemma SFcompare_eq_r (a b c : float) (x : comparison) :
  SFcompare a b = Some x -> SFcompare b c = Some Eq -> SFcompare a c = Some x.
Proof.
  float_cases a m1 e1; float_cases b m2 e2; float_cases c m3 e3;
    simpl; try congruence; intros H1 H2;
    cmp_cases; simpl in *; subst; try congruence; try lia.
Qed.

Lemma SFcompare_nan (a b : float) :
  SFcompare a b = None <-> is_nan a = true \/ is_nan b = true.
Proof.
  float_cases a m1 e1; float_cases b m2 e2; simpl; split; intros H;
    try discriminate; try reflexivity; auto; destruct H; discriminate.
Qed.

Lemma SFcompare_refl (a : float) : is_nan a = false -> SFcompare a a = Some Eq.
Proof.
  float_cases a m e; simpl; intros H; try discriminate; try reflexivity;
    cmp_cases; try reflexivity; lia.
Qed.

Lemma flt_spec (a b : float) : flt a b = true <-> SFcompare a b = Some Lt.
Proof.
  unfold flt, SFltb. destruct (SFcompare a b) as [[]|]; split; congruence.
Qed.

Lemma fle_spec (a b : float) : fle a b = true <-> SFcompare a b = Some Lt \/ SFcompare a b = Some Eq.
Proof.
  unfold fle, SFleb. destruct (SFcompare a b) as [[]|]; split; intros H; auto;
    try discriminate; destruct H; discriminate.
Qed.

Lemma feq_spec (a b : float) : feq a b = true <-> SFcompare a b = Some Eq.
Proof.
  unfold feq, SFeqb. destruct (SFcompare a b) as [[]|]; split; congruence.
Qed.

Lemma flt_not_nan (a b : float) : flt a b = true -> is_nan a = false /\ is_nan b = false.
Proof.
  rewrite flt_spec. intros H.
  destruct (is_nan a) eqn:Ha, (is_nan b) eqn:Hb; auto;
    assert (N : SFcompare a b = None) by (apply SFcompare_nan; auto); congruence.
Qed.

Lemma feq_not_nan (a b : float) : feq a b = true -> is_nan a = false /\ is_nan b = false.
Proof.
  rewrite feq_spec. intros H.
  destruct (is_nan a) eqn:Ha, (is_nan b) eqn:Hb; auto;
    assert (N : SFcompare a b = None) by (apply SFcompare_nan; auto); congruence.
Qed.

Lemma fle_not_nan (a b : float) : fle a b = true -> is_nan a = false /\ is_nan b = false.
Proof.
  rewrite fle_spec. intros H.
  destruct (is_nan a) eqn:Ha, (is_nan b) eqn:Hb; auto;
    assert (N : SFcompare a b = None) by (apply SFcompare_nan; auto);
    destruct H; congruence.
Qed.

Lemma flt_fle (a b : float) : flt a b = true -> fle a b = true.
Proof. rewrite flt_spec, fle_spec. auto. Qed.

Lemma feq_fle (a b : float) : feq a b = true -> fle a b = true.
Proof. rewrite feq_spec, fle_spec. auto. Qed.

Lemma flt_trans (a b c : float) : flt a b = true -> flt b c = true -> flt a c = true.
Proof. rewrite !flt_spec. apply SFcompare_trans. Qed.

Lemma feq_trans (a b c : float) : feq a b = true -> feq b c = true -> feq a c = true.
Proof. rewrite !feq_spec. apply SFcompare_trans. Qed.

Lemma fle_trans (a b c : float) : fle a b = true -> fle b c = true -> fle a c = true.
Proof.
  rewrite !fle_spec. intros [H1|H1] [H2|H2].
  - left. eapply SFcompare_trans; eauto.
  - left. eapply SFcompare_eq_r; eauto.
  - left. eapply SFcompare_eq_l; eauto.
  - right. eapply SFcompare_trans; eauto.
Qed.

Lemma feq_sym (a b : float) : feq a b = true -> feq b a = true.
Proof.
  rewrite !feq_spec. intros H. rewrite SFcompare_antisym, H. reflexivity.
Qed.

Lemma not_flt_fle (a b : float) :
  is_nan a = false -> is_nan b = false -> flt a b = false -> fle b a = true.
Proof.
  intros Ha Hb H. apply fle_spec. rewrite SFcompare_antisym.
  destruct (SFcompare a b) as [[]|] eqn:E; simpl; auto.
  - apply flt_spec in E. congruence.
  - apply SFcompare_nan in E. destruct E; congruence.
Qed.

Lemma flt_not_fle (a b : float) : flt a b = true -> fle b a = false.
Proof.
  rewrite flt_spec. intros H. unfold fle, SFleb.
  rewrite SFcompare_antisym, H. reflexivity.
Qed.

Lemma fle_refl (a : float) : is_nan a = false -> fle a a = true.
Proof. intros H. apply fle_spec. right. now apply SFcompare_refl. Qed.

Lemma feq_refl (a : float) : is_nan a = false -> feq a a = true.
Proof. intros H. apply feq_spec. now apply SFcompare_refl. Qed.

Lemma flt_irrefl (a : float) : flt a a = false.
Proof.
  destruct (flt a a) eqn:E; [|reflexivity].
  pose proof (flt_not_fle _ _ E) as H. apply flt_fle in E. congruence.
Qed.

Lemma flt_feq_r (a b c : float) : flt a b = true -> feq b c = true -> flt a c = true.
Proof. rewrite !flt_spec, feq_spec. apply SFcompare_eq_r. Qed.

Lemma feq_flt_l (a b c : float) : feq a b = true -> flt b c = true -> flt a c = true.
Proof. rewrite !flt_spec, feq_spec. apply SFcompare_eq_l. Qed.

(** * Facts about lists *)

Lemma bind_ok {A B : Type} (m : res A) (k : A -> res B) (b : B) :
  bind m k = Ok b -> exists a, m = Ok a /\ k a = Ok b.
Proof. destruct m; simpl; intros H; try discriminate. eauto. Qed.

Ltac inv_ok :=
  repeat match goal with
  | H : bind _ _ = Ok _ |- _ =>
      let a := fresh "a" in let E := fresh "E" in
      apply bind_ok in H; destruct H as (a & E & H)
  | H : Ok _ = Ok _ |- _ => injection H as H
  | H : (let '(_, _) := ?p in _) = Ok _ |- _ => destruct p
  end.

Lemma len_nonneg {A : Type} (l : list A) : 0 <= len l.
Proof. unfold len. lia. Qed.

Lemma len_app {A : Type} (l l' : list A) : len (l ++ l') = len l + len l'.
Proof. unfold len. rewrite length_app. lia. Qed.

Lemma getitem_ok {A : Type} (l : list A) (k : Z) (x : A) :
  0 <= k -> getitem l k = Ok x <-> nth_error l (Z.to_nat k) = Some x.
Proof.
  intros Hk. unfold getitem.
  destruct (k <? 0) eqn:E; [apply Z.ltb_lt in E; lia|].
  destruct (0 <=? k) eqn:E0; [|apply Z.leb_gt in E0; lia]. simpl.
  destruct (k <? len l) eqn:E1.
  - destruct (nth_error l (Z.to_nat k)); split; congruence.
  - apply Z.ltb_ge in E1. split; [discriminate|]. intros H.
    assert (Z.to_nat k < List.length l)%nat by (apply nth_error_Some; congruence).
    unfold len in E1. lia.
Qed.

Lemma getitem_in_range {A : Type} (l : list A) (k : Z) :
  0 <= k < len l -> exists x, getitem l k = Ok x /\ nth_error l (Z.to_nat k) = Some x.
Proof.
  intros Hk. destruct (nth_error l (Z.to_nat k)) as [x|] eqn:E.
  - exists x. split; [apply getitem_ok; [lia|assumption]|reflexivity].
  - apply nth_error_None in E. unfold len in Hk. lia.
Qed.

Lemma range_length (n : Z) : List.length (range n) = Z.to_nat n.
Proof. unfold range. now rewrite length_map, length_seq. Qed.

Lemma in_range (n x : Z) : In x (range n) <-> 0 <= x < n.
Proof.
  unfold range. rewrite in_map_iff. split.
  - intros (k & <- & Hk). apply in_seq in Hk. lia.
  - intros H. exists (Z.to_nat x). split; [lia|]. apply in_seq. lia.
Qed.

Lemma range_NoDup (n : Z) : NoDup (range n).
Proof.
  unfold range. apply Finite.Injective_map_NoDup; [|apply seq_NoDup].
  intros x y H. lia.
Qed.

Lemma list_remove_ok (x : Z) (l r : list Z) :
  list_remove x l = Ok r ->
  exists l1 l2, l = l1 ++ x :: l2 /\ r = l1 ++ l2 /\ ~ In x l1.
Proof.
  revert r. induction l as [|y l IH]; simpl; intros r H; [discriminate|].
  destruct (y =? x) eqn:E.
  - apply Z.eqb_eq in E. subst y. injection H as <-. exists [], l. auto.
  - apply Z.eqb_neq in E. inv_ok. subst r.
    destruct (IH _ E0) as (l1 & l2 & -> & -> & Hn).
    exists (y :: l1), l2. repeat split. intros [?|?]; auto.
Qed.

Lemma list_remove_in (x : Z) (l : list Z) :
  In x l -> exists r, list_remove x l = Ok r.
Proof.
  induction l as [|y l IH]; simpl; intros H; [contradiction|].
  destruct (y =? x) eqn:E; [eauto|].
  apply Z.eqb_neq in E. destruct H as [H|H]; [contradiction|].
  destruct (IH H) as (r & ->). simpl. eauto.
Qed.

Lemma list_remove_not_in (x : Z) (l : list Z) :
  ~ In x l -> list_remove x l = Raise ValueError.
Proof.
  induction l as [|y l IH]; simpl; intros H; [reflexivity|].
  destruct (y =? x) eqn:E.
  - apply Z.eqb_eq in E. tauto.
  - rewrite IH; [reflexivity|tauto].
Qed.

Lemma list_remove_perm (x : Z) (l r : list Z) :
  list_remove x l = Ok r -> Permutation l (x :: r).
Proof.
  intros H. destruct (list_remove_ok _ _ _ H) as (l1 & l2 & -> & -> & _).
  symmetry. apply Permutation_middle.
Qed.

Lemma NoDup_app_disjoint {A : Type} (l l' : list A) (a : A) :
  NoDup (l ++ l') -> In a l -> In a l' -> False.
Proof.
  induction l as [|x l IH]; simpl; intros H Ha Ha'; [contradiction|].
  inversion H as [|? ? Hx Hl]; subst. destruct Ha as [->|Ha].
  - apply Hx. apply in_or_app. now right.
  - now apply IH.
Qed.

(** Reversing a slice in place permutes the list. *)
Lemma setslice_rev_perm {A : Type} (l : list A) (lo hi : Z) :
  Permutation l (setslice l lo hi (rev (getslice l lo hi))).
Proof.
  unfold setslice, getslice.
  set (a := slice_bound (len l) lo). set (b := slice_bound (len l) hi).
  rewrite <- (firstn_skipn a l) at 1. apply Permutation_app_head.
  rewrite <- (firstn_skipn (b - a) (skipn a l)) at 1.
  apply Permutation_app; [apply Permutation_rev|].
  rewrite skipn_skipn. replace (b - a + a)%nat with (Nat.max a b) by lia.
  reflexivity.
Qed.



Lemma Permutation_len {A : Type} (l l' : list A) : Permutation l l' -> len l = len l'.
Proof. intros H. unfold len. now rewrite (Permutation_length H). Qed.

Lemma len_range (n : Z) : 0 <= n -> len (range n) = n.
Proof. intros H. unfold len. rewrite range_length. lia. Qed.

(** * Facts about the random source *)

Lemma randint_ok (a b : Z) (t : tape) (v : Z) (t' : tape) :
  randint a b t = Ok (v, t') -> a <= v <= b /\ t' = tape_tail t.
Proof.
  unfold randint. destruct (b <? a) eqn:E; [discriminate|].
  apply Z.ltb_ge in E. intros H. injection H as <- <-.
  split; [|reflexivity].
  pose proof (Z.mod_pos_bound (t O) (b - a + 1)). lia.
Qed.

Lemma randint_total (a b : Z) (t : tape) :
  a <= b -> exists v, randint a b t = Ok (v, tape_tail t) /\ a <= v <= b.
Proof.
  intros H. unfold randint. destruct (b <? a) eqn:E; [apply Z.ltb_lt in E; lia|].
  eexists. split; [reflexivity|].
  pose proof (Z.mod_pos_bound (t O) (b - a + 1)). lia.
Qed.

Lemma randint_empty (a b : Z) (t : tape) : b < a -> randint a b t = Raise ValueError.
Proof.
  intros H. unfold randint. destruct (b <? a) eqn:E; [reflexivity|].
  apply Z.ltb_ge in E. lia.
Qed.

(** Every integer of the range is drawn from some tape. *)
Lemma randint_onto (a b v : Z) (t : tape) :
  a <= v <= b -> randint a b (tape_cons (v - a) t) = Ok (v, t).
Proof.
  intros H. unfold randint. destruct (b <? a) eqn:E; [apply Z.ltb_lt in E; lia|].
  simpl. rewrite Z.mod_small by lia. do 2 f_equal. lia.
Qed.

(** * The perturbation of the annealing loop *)

Section Perturbation.

Context {R : Runtime}.

Lemma perturb_total (n : Z) (current : list Z) (t : tape) :
  3 <= n -> exists candidate, perturb n current t = Ok (candidate, tape_tail (tape_tail t)).
Proof.
  intros Hn. unfold perturb.
  destruct (randint_total 2 (n - 1) t) as (num_a & -> & Ha); [lia|]. simpl.
  destruct (randint_total 0 (n - num_a) (tape_tail t)) as (num_b & -> & Hb); [lia|].
  simpl. eauto.
Qed.

Lemma perturb_short (n : Z) (current : list Z) (t : tape) :
  n < 3 -> perturb n current t = Raise ValueError.
Proof.
  intros Hn. unfold perturb. rewrite randint_empty by lia. reflexivity.
Qed.

Lemma perturb_perm (n : Z) (current candidate : list Z) (t t' : tape) :
  perturb n current t = Ok (candidate, t') -> Permutation current candidate.
Proof.
  unfold perturb. intros H. inv_ok. subst candidate. apply setslice_rev_perm.
Qed.

(** Every choice of a segment is the outcome of some tape. *)
Lemma perturb_onto (n : Z) (current : list Z) (L S : Z) (t : tape) :
  2 <= L <= n - 1 -> 0 <= S <= n - L ->
  perturb n current (tape_cons (L - 2) (tape_cons S t)) =
  Ok (setslice current S (S + L) (rev (getslice current S (S + L))), t).
Proof.
  intros HL HS. unfold perturb. rewrite randint_onto by assumption. simpl.
  replace S with (S - 0) at 1 by lia. rewrite randint_onto by lia. reflexivity.
Qed.


End Perturbation.


(** * The greedy construction *)

Lemma mapM_ok {A B : Type} (f : A -> res B) (l : list A) (r : list B) :
  mapM f l = Ok r -> Forall2 (fun a b => f a = Ok b) l r.
Proof.
  revert r. induction l as [|a l IH]; simpl; intros r H.
  - injection H as <-. constructor.
  - inv_ok. subst r. constructor; auto.
Qed.

Lemma mapM_total {A B : Type} (f : A -> res B) (l : list A) :
  (forall a, In a l -> exists b, f a = Ok b) -> exists r, mapM f l = Ok r.
Proof.
  induction l as [|a l IH]; simpl; intros H; [eauto|].
  destruct (H a) as (b & ->); [auto|].
  destruct IH as (r & ->); [auto|]. simpl. eauto.
Qed.

Lemma mapM_length {A B : Type} (f : A -> res B) (l : list A) (r : list B) :
  mapM f l = Ok r -> List.length r = List.length l.
Proof. intros H. apply mapM_ok in H. symmetry. eapply Forall2_length; eauto. Qed.

Lemma mapM_nth {A B : Type} (f : A -> res B) (l : list A) (r : list B) (k : nat) (a : A) :
  mapM f l = Ok r -> nth_error l k = Some a ->
  exists b, nth_error r k = Some b /\ f a = Ok b.
Proof.
  intros H. apply mapM_ok in H. revert k.
  induction H as [|x y l r Hxy H IH]; intros [|k]; simpl; try discriminate.
  - intros E. injection E as <-. eauto.
  - apply IH.
Qed.

Lemma mapM_in {A B : Type} (f : A -> res B) (l : list A) (r : list B) (a : A) :
  mapM f l = Ok r -> In a l -> exists b, In b r /\ f a = Ok b.
Proof.
  intros H Ha. apply In_nth_error in Ha. destruct Ha as (k & Hk).
  destruct (mapM_nth _ _ _ _ _ H Hk) as (b & Hb & E).
  exists b. split; [eapply nth_error_In; eauto|assumption].
Qed.

Lemma mapM_in_inv {A B : Type} (f : A -> res B) (l : list A) (r : list B) (b : B) :
  mapM f l = Ok r -> In b r -> exists a, In a l /\ f a = Ok b.
Proof.
  intros H. apply mapM_ok in H. induction H as [|x y l r Hxy H IH]; simpl.
  - contradiction.
  - intros [<-|Hb]; [eauto|]. destruct (IH Hb) as (a & Ha & E). eauto.
Qed.

(** [min] returns an element that no element is below. *)
Lemma fold_min_spec (l : list float) (x : float) :
  let m := fold_left (fun best y => if flt y best then y else best) l x in
  In m (x :: l) /\ (m = x \/ flt m x = true) /\
  forall y, In y (x :: l) -> flt y m = false.
Proof.
  revert x. induction l as [|z l IH]; intros x; simpl.
  - split; [auto|]. split; [auto|]. intros y [<-|[]]. apply flt_irrefl.
  - destruct (flt z x) eqn:E.
    + destruct (IH z) as (Hin & Hlow & Hmin).
      assert (Hmx : flt (fold_left (fun best y => if flt y best then y else best) l z) x
                    = true).
      { destruct Hlow as [->|Hlow]; [assumption|]. eapply flt_trans; eauto. }
      split; [simpl in Hin; tauto|]. split; [auto|].
      intros y [<-|Hy]; [|now apply Hmin].
      destruct (flt x (fold_left _ l z)) eqn:E'; [|reflexivity].
      pose proof (flt_trans _ _ _ E' Hmx) as K. rewrite flt_irrefl in K. discriminate.
    + destruct (IH x) as (Hin & Hlow & Hmin).
      split; [simpl in Hin; simpl; tauto|]. split; [assumption|].
      intros y [<-|[<-|Hy]]; [apply Hmin; now left| |apply Hmin; now right].
      destruct (flt z (fold_left _ l x)) eqn:E'; [|reflexivity].
      destruct Hlow as [Hlow|Hlow].
      * rewrite Hlow in E'. congruence.
      * pose proof (flt_trans _ _ _ E' Hlow) as K. congruence.
Qed.

Lemma py_min_spec (l : list float) (m : float) :
  py_min l = Ok m -> In m l /\ forall y, In y l -> flt y m = false.
Proof.
  destruct l as [|x l]; simpl; intros H; [discriminate|].
  injection H as <-.
  destruct (fold_min_spec l x) as (Hin & _ & Hmin). auto.
Qed.

Lemma py_min_total (l : list float) : l <> [] -> exists m, py_min l = Ok m.
Proof. destruct l; [congruence|]. simpl. eauto. Qed.

(** [index] returns the first position holding an equal value. *)
Lemma list_index_spec (l : list float) (v : float) (k : Z) :
  list_index l v = Ok k ->
  0 <= k /\
  (exists x, nth_error l (Z.to_nat k) = Some x /\ feq x v = true) /\
  (forall j y, 0 <= j < k -> nth_error l (Z.to_nat j) = Some y -> feq y v = false).
Proof.
  revert k. induction l as [|x l IH]; simpl; intros k H; [discriminate|].
  destruct (feq x v) eqn:E.
  - injection H as <-. split; [lia|]. split; [simpl; eauto|]. intros; lia.
  - inv_ok. subst k. destruct (IH _ E0) as (Ha & (w & Hw & Ew) & Hfirst).
    split; [lia|]. split.
    + exists w. split; [|assumption].
      replace (Z.to_nat (a + 1)) with (S (Z.to_nat a)) by lia. assumption.
    + intros j y Hj Hy. destruct (Z.eq_dec j 0) as [->|Hj0].
      * simpl in Hy. congruence.
      * replace (Z.to_nat j) with (S (Z.to_nat (j - 1))) in Hy by lia.
        simpl in Hy. apply (Hfirst (j - 1)); [lia|assumption].
Qed.

Lemma list_index_total (l : list float) (v : float) :
  (exists x, In x l /\ feq x v = true) -> exists k, list_index l v = Ok k.
Proof.
  induction l as [|x l IH]; simpl; intros (w & Hw & E); [contradiction|].
  destruct (feq x v) eqn:E'; [eauto|].
  destruct Hw as [->|Hw]; [congruence|].
  destruct IH as (k & ->); [eauto|]. simpl. eauto.
Qed.

Lemma no_nan_entry (dist_matrix : list (list float)) (row : list float) (d : float)
    (a b : Z) :
  no_nan dist_matrix = true -> 0 <= a -> 0 <= b ->
  getitem dist_matrix a = Ok row -> getitem row b = Ok d -> is_nan d = false.
Proof.
  unfold no_nan. rewrite forallb_forall. intros H Ha Hb Hr Hd.
  apply getitem_ok in Hr, Hd; try assumption.
  apply nth_error_In in Hr, Hd. apply H in Hr.
  rewrite forallb_forall in Hr. apply Hr in Hd. now apply negb_true_iff.
Qed.

Section Greedy.

Context {R : Runtime}.

Variable dist_matrix : list (list float).
Variable n : Z.
Hypothesis matrix_no_nan : no_nan dist_matrix = true.

(** One step of the loop, when it does not raise, appends the nearest city of
    [temp_list], the lowest-indexed among the nearest. *)
Lemma greedy_step_spec (cur : Z) (temp_list solution : list Z)
    (next : Z) (temp_list' solution' : list Z) :
  0 <= cur -> Forall (fun j => 0 <= j) temp_list ->
  greedy_step dist_matrix (cur, temp_list, solution) = Ok (next, temp_list', solution') ->
  solution' = solution ++ [next] /\
  In next temp_list /\ Permutation temp_list (next :: temp_list') /\
  exists row, getitem dist_matrix cur = Ok row /\
  exists dn, getitem row next = Ok dn /\
  forall j, In j temp_list ->
    exists dj, getitem row j = Ok dj /\ fle dn dj = true /\
               (feq dj dn = true -> next <= j).
Proof.
  intros Hcur Hpos H. unfold greedy_step in H.
  apply bind_ok in H. destruct H as (distances & Ed & H).
  apply bind_ok in H. destruct H as (m & Em & H).
  apply bind_ok in H. destruct H as (row & Er & H).
  apply bind_ok in H. destruct H as (k & Ek & H).
  apply bind_ok in H. destruct H as (tl' & Et & H).
  injection H as <- <- <-.
  split; [reflexivity|].
  destruct (list_remove_ok _ _ _ Et) as (l1 & l2 & Hl & _ & _).
  split; [subst temp_list; apply in_or_app; right; now left|].
  split; [now apply list_remove_perm|].
  exists row. split; [assumption|].
  destruct (list_index_spec _ _ _ Ek) as (Hk & (dn & Hdn & Edn) & Hfirst).
  exists dn. split; [apply getitem_ok; assumption|].
  destruct (py_min_spec _ _ Em) as (Hmin_in & Hmin).
  intros j Hj.
  destruct (mapM_in _ _ _ j Ed Hj) as (dj & Hdj_in & Edj).
  unfold entry in Edj. rewrite Er in Edj. simpl in Edj.
  exists dj. split; [assumption|].
  assert (Hj0 : 0 <= j) by (rewrite Forall_forall in Hpos; auto).
  assert (Ndj : is_nan dj = false) by (apply (no_nan_entry dist_matrix row dj cur j); assumption).
  destruct (feq_not_nan _ _ Edn) as (Ndn & Nm).
  split.
  - eapply fle_trans; [apply feq_fle; eassumption|].
    apply not_flt_fle; auto.
  - intros Eq. destruct (Z_lt_le_dec j k) as [Hlt|]; [|assumption].
    apply getitem_ok in Edj; [|assumption].
    assert (K : feq dj m = true) by (eapply feq_trans; eauto).
    rewrite (Hfirst j dj) in K; [discriminate|lia|assumption].
Qed.

End Greedy.

Section GreedyLoop.

Context {R : Runtime}.

Variable dist_matrix : list (list float).
Variable n : Z.
Hypothesis matrix_no_nan : no_nan dist_matrix = true.

Lemma greedy_step_inv (st st' : Z * list Z * list Z) :
  greedy_inv dist_matrix n st -> greedy_step dist_matrix st = Ok st' ->
  greedy_inv dist_matrix n st' /\
  S (List.length (snd (fst st'))) = List.length (snd (fst st)).
Proof.
  destruct st as [[cur temp_list] solution], st' as [[next temp_list'] solution'].
  intros ((visited & Hsol) & Hnn & Hperm) Hstep.
  assert (Hin : forall j, In j (solution ++ temp_list) <-> 0 <= j < n).
  { intros j. rewrite <- in_range. split; apply Permutation_in;
      [assumption|now symmetry]. }
  assert (Hnd : NoDup (solution ++ temp_list)).
  { eapply Permutation_NoDup; [symmetry; eassumption|apply range_NoDup]. }
  assert (Hcur : 0 <= cur).
  { apply (Hin cur). apply in_or_app. left. subst solution.
    apply in_or_app. right. now left. }
  assert (Hpos : Forall (fun j => 0 <= j) temp_list).
  { apply Forall_forall. intros j Hj. apply (Hin j). apply in_or_app. now right. }
  destruct (greedy_step_spec dist_matrix matrix_no_nan cur temp_list solution
              next temp_list' solution' Hcur Hpos Hstep)
    as (-> & Hnext & Hp & row & Hrow & dn & Hdn & Hnear).
  split; [|simpl; now rewrite (Permutation_length Hp)].
  split; [eauto|]. split.
  - subst solution. apply nn_step; [assumption|].
    split; [apply (Hin next); apply in_or_app; now right|].
    split.
    + intros Hv. apply (NoDup_app_disjoint _ _ next Hnd); assumption.
    + exists row. split; [assumption|]. exists dn. split; [assumption|].
      intros j Hj Hnv. apply Hnear.
      apply (Hin j) in Hj. apply in_app_or in Hj. tauto.
  - rewrite <- Hperm. rewrite <- app_assoc. apply Permutation_app_head.
    simpl. now symmetry.
Qed.

Lemma greedy_loop_inv (k : nat) (st st' : Z * list Z * list Z) :
  greedy_inv dist_matrix n st -> greedy_loop dist_matrix k st = Ok st' ->
  greedy_inv dist_matrix n st' /\
  (k + List.length (snd (fst st')))%nat = List.length (snd (fst st)).
Proof.
  revert st. induction k as [|k IH]; simpl; intros st Hinv H.
  - injection H as <-. auto.
  - apply bind_ok in H. destruct H as (st1 & E1 & H).
    destruct (greedy_step_inv st st1 Hinv E1) as (Hinv1 & Hlen).
    destruct (IH st1 Hinv1 H) as (Hinv' & Hlen'). split; [assumption|lia].
Qed.

End GreedyLoop.

Section GreedyResult.

Context {R : Runtime}.

Lemma get_initial_solution_inv (dist_matrix : list (list float))
    (coordinates : list point) (t t' : tape) (solution : list Z) :
  no_nan dist_matrix = true ->
  get_initial_solution dist_matrix coordinates t = Ok (solution, t') ->
  nn_tour dist_matrix (len coordinates) solution /\
  Permutation solution (range (len coordinates)).
Proof.
  intros Hnan H. unfold get_initial_solution in H.
  apply bind_ok in H. destruct H as ([start t1] & Er & H).
  apply bind_ok in H. destruct H as (temp_list & Et & H).
  apply bind_ok in H. destruct H as ([[cur temp_list'] sol] & El & H).
  injection H as <- <-. simpl.
  assert (Hstart : 0 <= start < len coordinates).
  { apply in_range. destruct (list_remove_ok _ _ _ Et) as (l1 & l2 & -> & _ & _).
    apply in_or_app. right. now left. }
  assert (Hinv : greedy_inv dist_matrix (len coordinates) (start, temp_list, [start])).
  { split; [exists []; reflexivity|]. split; [now apply nn_start|].
    simpl. symmetry. now apply list_remove_perm. }
  destruct (greedy_loop_inv dist_matrix (len coordinates) Hnan _ _ _ Hinv El)
    as ((_ & Hnn & Hperm) & Hlen).
  split; [assumption|].
  simpl in Hlen. assert (temp_list' = []) as -> by (apply length_zero_iff_nil; lia).
  now rewrite app_nil_r in Hperm.
Qed.

(** C1 (the code departs from it). When [random.randint(0, len(coordinates))]
    returns its upper bound, [get_initial_solution] does not return a tour:
    the start city [N] is not in [range(N)] and [temp_list.remove] raises
    [ValueError], whatever the points and the matrix. *)
Theorem get_initial_solution_start_out_of_range (dist_matrix : list (list float))
    (coordinates : list point) (t : tape) :
  get_initial_solution dist_matrix coordinates (tape_cons (len coordinates) t)
  = Raise ValueError.
Proof.
  unfold get_initial_solution.
  replace (randint 0 (len coordinates) (tape_cons (len coordinates) t))
    with (@Ok (Z * tape) (len coordinates, t)).
  - simpl. rewrite list_remove_not_in; [reflexivity|].
    rewrite in_range. lia.
  - symmetry. replace (len coordinates) with (len coordinates - 0) at 2 by lia.
    apply randint_onto. pose proof (len_nonneg coordinates). lia.
Qed.

End GreedyResult.

Lemma triangle_distances :
  @get_distances_list Sample.runtime triangle = Ok triangle_matrix.
Proof. vm_compute. reflexivity. Qed.

(** The nearest-neighbour tour of the triangle from city 1. *)
Lemma triangle_tour :
  get_initial_solution triangle_matrix triangle (fun _ => 1)
  = Ok ([1; 0; 2], tape_tail (fun _ => 1)).
Proof. reflexivity. Qed.

(** Three cities on a line, one unit apart, with the construction started at
    city 0: from city 1 the nearest unvisited city 2 is as far as the visited
    city 0, [index] returns 0, and [temp_list.remove(0)] raises. *)
Lemma get_initial_solution_tie_with_visited :
  let coordinates := [(0, 0); (1, 0); (2, 0)] in
  exists dist_matrix,
    @get_distances_list Sample.runtime coordinates = Ok dist_matrix /\
    get_initial_solution dist_matrix coordinates (fun _ => 0)
    = Raise ValueError.
Proof. eexists. split; vm_compute; reflexivity. Qed.

(** The construction from the start city that the draw gives. *)
Lemma get_initial_solution_start (dist_matrix : list (list float))
    (coordinates : list point) (t : tape) (start : Z) :
  (t O) mod (len coordinates + 1) = start ->
  get_initial_solution dist_matrix coordinates t
  = (temp_list <- list_remove start (range (len coordinates)) ;;
     st <- greedy_loop dist_matrix (List.length temp_list)
                       (start, temp_list, [start]) ;;
     Ok (snd st, tape_tail t)).
Proof.
  intros <-. unfold get_initial_solution, randint.
  pose proof (len_nonneg coordinates) as Hn.
  destruct (len coordinates <? 0) eqn:E0; [apply Z.ltb_lt in E0; lia|].
  cbn [bind]. rewrite Z.sub_0_r.
  change (0 + (t O) mod (len coordinates + 1)) with ((t O) mod (len coordinates + 1)).
  reflexivity.
Qed.

(** C4 (the code departs from it). On the corners of the unit square
    [get_initial_solution] appends no nearest unvisited city: it raises
    [ValueError] for every outcome of the draw.  Started at city 0 the
    first round appends city 1; in the second round the unvisited city
    nearest to city 1 is city 2, at distance 1.0, and the claim has it
    appended, but the visited city 0 is at the same distance, [index] on the
    whole row returns 0 and [temp_list.remove(0)] raises. *)
Theorem get_initial_solution_tie_raises :
  @get_distances_list Sample.runtime unit_square = Ok unit_square_matrix /\
  (forall t, get_initial_solution unit_square_matrix unit_square t
             = Raise ValueError) /\
  greedy_step unit_square_matrix (0, [1; 2; 3], [0]) = Ok (1, [2; 3], [0; 1]) /\
  nearest_unvisited unit_square_matrix 4 [0; 1] 1 2 /\
  greedy_step unit_square_matrix (1, [2; 3], [0; 1]) = Raise ValueError.
Proof.
  split; [vm_compute; reflexivity|]. split; [|split; [reflexivity|split]].
  - intros t.
    pose proof (Z.mod_pos_bound (t O) 5 ltac:(lia)) as Hb.
    assert (Hs : (t O) mod 5 = 0 \/ (t O) mod 5 = 1 \/ (t O) mod 5 = 2 \/
                 (t O) mod 5 = 3 \/ (t O) mod 5 = 4) by lia.
    destruct Hs as [Hs|[Hs|[Hs|[Hs|Hs]]]];
      rewrite (get_initial_solution_start unit_square_matrix unit_square t _ Hs);
      reflexivity.
  - split; [lia|]. split.
    + intros [H|[H|[]]]; discriminate.
    + exists [f1; fzero; f1; f1_4142]. split; [reflexivity|].
      exists f1. split; [reflexivity|].
      intros j Hj Hv.
      assert (Hc : j = 2 \/ j = 3).
      { destruct (Z.eq_dec j 0) as [->|]; [exfalso; apply Hv; now left|].
        destruct (Z.eq_dec j 1) as [->|]; [exfalso; apply Hv; right; now left|].
        lia. }
      destruct Hc as [->| ->].
      * exists f1. repeat split. intros _. lia.
      * exists f1_4142. repeat split. intros H. discriminate.
  - reflexivity.
Qed.

(** * Facts about float arithmetic *)

Lemma binary_round_aux_opp (s : bool) (m e : Z) (l : location) :
  binary_round_aux prec emax (negb s) m e l = fneg (binary_round_aux prec emax s m e l).
Proof.
  unfold binary_round_aux.
  destruct (shr_fexp prec emax m e l) as [mrs' e'].
  destruct (shr_fexp prec emax _ e' loc_Exact) as [mrs'' e''].
  destruct (shr_m mrs''); try reflexivity.
  destruct (e'' <=? emax - prec); reflexivity.
Qed.

Lemma float_of_int_two : float_of_int 2 = Ok ftwo.
Proof. reflexivity. Qed.

Lemma float_of_int_zero : float_of_int 0 = Ok fzero.
Proof. reflexivity. Qed.

Lemma float_of_int_opp (z : Z) :
  z <> 0 ->
  float_of_int (- z) = x <- float_of_int z ;; Ok (fneg x).
Proof.
  intros Hz. unfold float_of_int, binary_normalize.
  destruct z as [|p|p]; [congruence| |]; simpl Z.opp; unfold binary_round;
    destruct (shl_align p 0 _) as [mz ez].
  - rewrite (binary_round_aux_opp false).
    destruct (binary_round_aux prec emax false (Zpos mz) ez loc_Exact); reflexivity.
  - change false with (negb true) at 1. rewrite (binary_round_aux_opp true).
    destruct (binary_round_aux prec emax true (Zpos mz) ez loc_Exact); reflexivity.
Qed.

Lemma fadd_comm (x y : float) : fadd x y = fadd y x.
Proof.
  unfold fadd, SFadd.
  destruct x as [[]|[]| |sx mx ex], y as [[]|[]| |sy my ey]; try reflexivity.
  rewrite (Z.min_comm ey ex). f_equal. apply Z.add_comm.
Qed.

Lemma fadd_zero_l (x : float) : x <> S754_zero true -> fadd fzero x = x.
Proof. destruct x as [[]|[]| |[] m e]; try reflexivity. congruence. Qed.

(** Adding two distances to zero does not depend on their order. *)
Lemma fadd_zero_swap (x y : float) :
  fadd (fadd fzero x) y = fadd (fadd fzero y) x.
Proof.
  destruct x as [[]|[]| |sx mx ex], y as [[]|[]| |sy my ey]; try reflexivity;
    change (fadd fzero (S754_finite ?s ?m ?e)) with (S754_finite s m e);
    try reflexivity; apply fadd_comm.
Qed.

(** * The distance matrix *)

Section Distances.

Context {R : Runtime}.

Lemma pow2_diff_sym (a b : Z) : pow_even R -> pow2_diff a b = pow2_diff b a.
Proof.
  intros Heven. destruct (Z.eq_dec a b) as [->|Hab]; [reflexivity|].
  unfold pow2_diff. rewrite float_of_int_two.
  replace (b - a) with (- (a - b)) by lia.
  rewrite float_of_int_opp by lia.
  destruct (float_of_int (a - b)) as [d|]; cbn [bind]; try reflexivity.
  symmetry. apply Heven.
Qed.

Lemma i_to_j_sym (i j : point) : pow_even R -> i_to_j i j = i_to_j j i.
Proof.
  intros Heven. unfold i_to_j.
  now rewrite (pow2_diff_sym (fst i) (fst j)), (pow2_diff_sym (snd i) (snd j)).
Qed.

Lemma i_to_j_diag (i : point) : pow_zero R -> i_to_j i i = Ok fzero.
Proof.
  intros Hzero. unfold i_to_j, pow2_diff.
  rewrite !Z.sub_diag, float_of_int_zero, float_of_int_two. cbn [bind].
  unfold pow_zero in Hzero. rewrite Hzero. reflexivity.
Qed.

Lemma get_distances_list_entry (coordinates : list point) (m : list (list float))
    (a b : Z) :
  get_distances_list coordinates = Ok m ->
  0 <= a < len coordinates -> 0 <= b < len coordinates ->
  exists pa pb d,
    getitem coordinates a = Ok pa /\ getitem coordinates b = Ok pb /\
    i_to_j pa pb = Ok d /\ entry m a b = Ok d.
Proof.
  intros Hm Ha Hb.
  destruct (getitem_in_range coordinates a Ha) as (pa & Ga & Na).
  destruct (getitem_in_range coordinates b Hb) as (pb & Gb & Nb).
  destruct (mapM_nth _ _ _ _ _ Hm Na) as (row & Nrow & Hrow).
  destruct (mapM_nth _ _ _ _ _ Hrow Nb) as (d & Nd & Hd).
  exists pa, pb, d. repeat split; try assumption.
  unfold entry. replace (getitem m a) with (Ok row); simpl.
  - apply getitem_ok; [lia|assumption].
  - symmetry. apply getitem_ok; [lia|assumption].
Qed.

Lemma get_distances_list_shape (coordinates : list point) (m : list (list float)) :
  get_distances_list coordinates = Ok m ->
  len m = len coordinates /\ forall row, In row m -> len row = len coordinates.
Proof.
  intros Hm. split.
  - unfold len. now rewrite (mapM_length _ _ _ Hm).
  - intros row Hrow. destruct (mapM_in_inv _ _ _ _ Hm Hrow) as (p & _ & Hp).
    unfold len. now rewrite (mapM_length _ _ _ Hp).
Qed.

Lemma get_distances_list_sym (coordinates : list point) (m : list (list float))
    (a b : Z) :
  pow_even R -> get_distances_list coordinates = Ok m ->
  0 <= a < len coordinates -> 0 <= b < len coordinates ->
  entry m a b = entry m b a.
Proof.
  intros Heven Hm Ha Hb.
  destruct (get_distances_list_entry _ _ a b Hm Ha Hb)
    as (pa & pb & d & Ga & Gb & Hd & ->).
  destruct (get_distances_list_entry _ _ b a Hm Hb Ha)
    as (pb' & pa' & d' & Gb' & Ga' & Hd' & ->).
  rewrite Ga in Ga'. rewrite Gb in Gb'. injection Ga' as <-. injection Gb' as <-.
  rewrite i_to_j_sym in Hd' by assumption. congruence.
Qed.


(** A coordinate too large for a float makes the construction raise, with
    any runtime. *)
Lemma get_distances_list_no_matrix (m : list (list float)) :
  get_distances_list [(0, 0); (2 ^ 1024, 0)] <> Ok m.
Proof.
  unfold get_distances_list. cbn [mapM].
  destruct (i_to_j (0, 0) (0, 0)) as [z|]; cbn [bind]; [|discriminate..].
  replace (i_to_j (0, 0) (2 ^ 1024, 0)) with (@Raise float OverflowError).
  - cbn [bind]. discriminate.
  - unfold i_to_j, pow2_diff. cbn [fst snd].
    replace (float_of_int (0 - 2 ^ 1024)) with (@Raise float OverflowError)
      by (vm_compute; reflexivity).
    reflexivity.
Qed.

End Distances.

Module SampleFacts.

Lemma fmul_opp_l (x y : float) : fmul (fneg x) y = fneg (fmul x y).
Proof.
  unfold fmul, SFmul, fneg.
  destruct x as [sx|sx| |sx mx ex], y as [sy|sy| |sy my ey]; simpl;
    try reflexivity; try (now destruct sx, sy).
  rewrite <- binary_round_aux_opp. f_equal. now destruct sx, sy.
Qed.

Lemma fmul_opp_r (x y : float) : fmul x (fneg y) = fneg (fmul x y).
Proof.
  unfold fmul, SFmul, fneg.
  destruct x as [sx|sx| |sx mx ex], y as [sy|sy| |sy my ey]; simpl;
    try reflexivity; try (now destruct sx, sy).
  rewrite <- binary_round_aux_opp. f_equal. now destruct sx, sy.
Qed.

Lemma fneg_involutive (x : float) : fneg (fneg x) = x.
Proof. destruct x as [[]|[]| |[] m e]; reflexivity. Qed.

Lemma pow_is_even : pow_even Sample.runtime.
Proof.
  intros x. change (Sample.pow (fneg x) ftwo = Sample.pow x ftwo).
  unfold Sample.pow.
  change (Sample.int_of_float ftwo) with (Some 2).
  cbv beta iota. unfold Pos.iter.
  rewrite !fmul_opp_l, fmul_opp_r, fneg_involutive.
  replace (Sample.is_finite (fneg x)) with (Sample.is_finite x);
    [reflexivity|now destruct x].
Qed.


Lemma exp_of_nan : exp_nan Sample.runtime.
Proof. reflexivity. Qed.

End SampleFacts.



(** * The length of a tour *)

Lemma for_each_app {A S : Type} (body : S -> A -> res S) (l l' : list A) (s : S) :
  for_each body (l ++ l') s = s' <- for_each body l s ;; for_each body l' s'.
Proof.
  revert s. induction l as [|a l IH]; intros s; simpl; [reflexivity|].
  destruct (body s a); simpl; auto.
Qed.

Lemma range_succ (k : nat) :
  range (Z.of_nat (S k)) = range (Z.of_nat k) ++ [Z.of_nat k].
Proof.
  unfold range. rewrite !Nat2Z.id, seq_S, map_app. reflexivity.
Qed.

Lemma consecutive_cons (x y : Z) (t : list Z) :
  consecutive (x :: y :: t) = (x, y) :: consecutive (y :: t).
Proof. reflexivity. Qed.

Lemma consecutive_nth (tour : list Z) (j : nat) (a b : Z) :
  nth_error tour j = Some a -> nth_error tour (S j) = Some b ->
  nth_error (consecutive tour) j = Some (a, b).
Proof.
  revert j. induction tour as [|x t IH]; intros j Ha Hb; [destruct j; discriminate|].
  destruct t as [|y t]; [destruct j; discriminate|].
  rewrite consecutive_cons. destruct j as [|j]; simpl in *.
  - congruence.
  - now apply IH.
Qed.

Lemma consecutive_length (tour : list Z) :
  List.length (consecutive tour) = (List.length tour - 1)%nat.
Proof.
  unfold consecutive. rewrite length_combine.
  destruct tour as [|x t]; [reflexivity|]. cbn [tl List.length].
  rewrite Nat.min_r by lia. lia.
Qed.

Lemma consecutive_snoc (l : list Z) (x : Z) :
  l <> [] -> consecutive (l ++ [x]) = consecutive l ++ [(last l 0, x)].
Proof.
  induction l as [|a l IH]; intros Hl; [congruence|].
  destruct l as [|b l]; [reflexivity|].
  change ((a :: b :: l) ++ [x]) with (a :: b :: (l ++ [x])).
  rewrite !consecutive_cons.
  change (b :: (l ++ [x])) with ((b :: l) ++ [x]).
  rewrite IH by discriminate. reflexivity.
Qed.

Lemma last_rev (l : list Z) (d : Z) : last (rev l) d = hd d l.
Proof. destruct l as [|x l]; [reflexivity|]. simpl. apply last_last. Qed.

Lemma hd_rev (l : list Z) (d : Z) : hd d (rev l) = last l d.
Proof. rewrite <- (rev_involutive l) at 2. now rewrite last_rev. Qed.

Lemma consecutive_rev (t : list Z) :
  consecutive (rev t) = rev (map (fun ab => (snd ab, fst ab)) (consecutive t)).
Proof.
  induction t as [|x t IH]; [reflexivity|].
  destruct t as [|y t]; [reflexivity|].
  rewrite consecutive_cons. cbn [map rev]. rewrite <- IH.
  change (rev (x :: y :: t)) with (rev (y :: t) ++ [x]).
  rewrite consecutive_snoc.
  - rewrite last_last. reflexivity.
  - intros H. apply app_eq_nil in H. destruct H; discriminate.
Qed.

Lemma mapM_app {A B : Type} (f : A -> res B) (l l' : list A) (r r' : list B) :
  mapM f l = Ok r -> mapM f l' = Ok r' -> mapM f (l ++ l') = Ok (r ++ r').
Proof.
  revert r. induction l as [|a l IH]; simpl; intros r H H'.
  - injection H as <-. assumption.
  - apply bind_ok in H. destruct H as (b & Eb & H).
    apply bind_ok in H. destruct H as (bs & Ebs & H). injection H as <-.
    rewrite Eb. simpl. rewrite (IH _ Ebs H'). reflexivity.
Qed.

Lemma mapM_rev {A B : Type} (f : A -> res B) (l : list A) (r : list B) :
  mapM f l = Ok r -> mapM f (rev l) = Ok (rev r).
Proof.
  revert r. induction l as [|a l IH]; simpl; intros r H.
  - injection H as <-. reflexivity.
  - apply bind_ok in H. destruct H as (b & Eb & H).
    apply bind_ok in H. destruct H as (bs & Ebs & H). injection H as <-.
    simpl. apply mapM_app; [now apply IH|]. simpl. now rewrite Eb.
Qed.

Lemma mapM_map {A B C : Type} (g : A -> B) (f : B -> res C) (l : list A) :
  mapM f (map g l) = mapM (fun a => f (g a)) l.
Proof.
  induction l as [|a l IH]; simpl; [reflexivity|]. now rewrite IH.
Qed.

Lemma mapM_ext_in {A B : Type} (f g : A -> res B) (l : list A) :
  (forall a, In a l -> f a = g a) -> mapM f l = mapM g l.
Proof.
  induction l as [|a l IH]; simpl; intros H; [reflexivity|].
  rewrite H by auto. rewrite IH by auto. reflexivity.
Qed.

Lemma firstn_succ_nth {A : Type} (l : list A) (j : nat) (x : A) :
  nth_error l j = Some x -> firstn (S j) l = firstn j l ++ [x].
Proof.
  revert j. induction l as [|y l IH]; intros [|j] H; simpl in *; try discriminate.
  - congruence.
  - f_equal. now apply IH.
Qed.

Lemma in_consecutive (tour : list Z) (a b : Z) :
  In (a, b) (consecutive tour) -> In a tour /\ In b tour.
Proof.
  unfold consecutive. intros H. split.
  - eapply in_combine_l; eauto.
  - apply in_combine_r in H. destruct tour; [contradiction|]. now right.
Qed.

Section Efficiency.

Context {R : Runtime}.

Variable distances_list : list (list float).
Variable n : Z.
Hypothesis Hsquare : square distances_list n.

Lemma entry_total (a b : Z) :
  0 <= a < n -> 0 <= b < n -> exists d, entry distances_list a b = Ok d.
Proof.
  intros Ha Hb. destruct Hsquare as (Hlen & Hrows).
  destruct (getitem_in_range distances_list a) as (row & Hrow & Nrow); [lia|].
  destruct (getitem_in_range row b) as (d & Hd & _).
  { rewrite (Hrows row); [lia|]. eapply nth_error_In; eauto. }
  exists d. unfold entry. rewrite Hrow. assumption.
Qed.

Variable tour : list Z.
Hypothesis Hlen : len tour = n.
Hypothesis Hcities : cities tour n.

Lemma tour_nth (k : nat) :
  (k < List.length tour)%nat ->
  exists a, nth_error tour k = Some a /\ getitem tour (Z.of_nat k) = Ok a /\ 0 <= a < n.
Proof.
  intros Hk. destruct (nth_error tour k) as [a|] eqn:E.
  - exists a. split; [reflexivity|]. split.
    + apply getitem_ok; [lia|]. now rewrite Nat2Z.id.
    + unfold cities in Hcities. rewrite Forall_forall in Hcities.
      apply Hcities. eapply nth_error_In; eauto.
  - apply nth_error_None in E. lia.
Qed.

Lemma consecutive_distances :
  exists ds,
    mapM (fun ab => entry distances_list (fst ab) (snd ab)) (consecutive tour) = Ok ds.
Proof.
  apply mapM_total. intros [a b] Hab. apply in_consecutive in Hab.
  unfold cities in Hcities. rewrite Forall_forall in Hcities.
  destruct Hab as (Ha & Hb). apply entry_total; auto.
Qed.

(** The [for] loop of [get_efficiency] after [k] rounds. *)
Lemma efficiency_loop (ds : list float) (k : nat) (acc : float) :
  mapM (fun ab => entry distances_list (fst ab) (snd ab)) (consecutive tour) = Ok ds ->
  (k <= List.length tour)%nat ->
  for_each (efficiency_step tour distances_list) (range (Z.of_nat k)) acc
  = Ok (fold_left fadd (firstn (k - 1) ds) acc).
Proof.
  intros Hds. induction k as [|k IH]; intros Hk; [reflexivity|].
  rewrite range_succ, for_each_app, IH by lia. cbn [bind for_each].
  unfold efficiency_step. destruct k as [|k].
  - reflexivity.
  - replace (0 <? Z.of_nat (S k)) with true by (symmetry; apply Z.ltb_lt; lia).
    destruct (tour_nth k) as (a & Na & Ga & Ha); [lia|].
    destruct (tour_nth (S k)) as (b & Nb & Gb & Hb); [lia|].
    replace (Z.of_nat (S k) - 1) with (Z.of_nat k) by lia.
    rewrite Ga. cbn [bind].
    pose proof (consecutive_nth tour k a b Na Nb) as Hnth.
    destruct (mapM_nth _ _ _ _ _ Hds Hnth) as (d & Nd & Hd).
    unfold entry in Hd. cbn [fst snd] in Hd.
    destruct (getitem distances_list a) as [row|]; try discriminate.
    cbn [bind] in Hd |- *. rewrite Gb. cbn [bind]. rewrite Hd. cbn [bind].
    replace (S (S k) - 1)%nat with (S k) by lia.
    replace (S k - 1)%nat with k by lia.
    rewrite (firstn_succ_nth _ _ _ Nd), fold_left_app. reflexivity.
Qed.

Hypothesis Hsym : symmetric distances_list n.
Hypothesis Hn : 1 <= n.

Lemma tour_nonempty : tour <> [].
Proof.
  intros E. pose proof Hlen as H. rewrite E in H. unfold len in H. simpl in H. lia.
Qed.

(** [get_efficiency] computes the cyclic length. *)
Lemma get_efficiency_closed (ds : list float) (back : float) :
  mapM (fun ab => entry distances_list (fst ab) (snd ab)) (consecutive tour) = Ok ds ->
  entry distances_list (last tour 0) (hd 0 tour) = Ok back ->
  get_efficiency tour distances_list n
  = Ok (py_round (fold_left fadd (ds ++ [back]) fzero) 4).
Proof.
  intros Hds Hback. unfold get_efficiency.
  assert (Hnat : n = Z.of_nat (List.length tour)) by (now rewrite <- Hlen).
  rewrite Hnat at 1. rewrite (efficiency_loop ds (List.length tour) fzero Hds) by lia.
  cbn [bind].
  rewrite firstn_all2
    by (rewrite (mapM_length _ _ _ Hds), consecutive_length; lia).
  destruct (tour_nth 0) as (a & Na & Ga & Ha); [lia|].
  destruct (tour_nth (List.length tour - 1)) as (b & Nb & Gb & Hb); [lia|].
  replace (Z.of_nat (List.length tour - 1)) with (n - 1) in Gb by lia.
  change (Z.of_nat 0) with 0 in Ga.
  assert (Hhd : hd 0 tour = a) by (destruct tour; simpl in *; congruence).
  assert (Hlast : last tour 0 = b).
  { destruct (exists_last tour_nonempty) as (l' & x & E).
    rewrite E in Nb |- *. rewrite last_last.
    rewrite length_app in Nb. simpl in Nb.
    replace (List.length l' + 1 - 1)%nat with (List.length l') in Nb by lia.
    rewrite nth_error_app2 in Nb by lia. rewrite Nat.sub_diag in Nb.
    simpl in Nb. congruence. }
  rewrite Hhd, Hlast in Hback. rewrite (Hsym b a Hb Ha) in Hback.
  unfold entry in Hback. rewrite Ga. cbn [bind].
  destruct (getitem distances_list a) as [row|]; try discriminate.
  cbn [bind] in Hback |- *. rewrite Gb. cbn [bind]. rewrite Hback. cbn [bind].
  now rewrite fold_left_app.
Qed.

Lemma get_efficiency_cyclic :
  exists e, get_efficiency tour distances_list n = Ok e /\
            cyclic_length tour distances_list = Ok e.
Proof.
  destruct consecutive_distances as (ds & Hds).
  destruct (entry_total (last tour 0) (hd 0 tour)) as (back & Hback).
  - unfold cities in Hcities. rewrite Forall_forall in Hcities. apply Hcities.
    destruct (exists_last tour_nonempty) as (l' & x & E).
    rewrite E, last_last. apply in_or_app. right. now left.
  - unfold cities in Hcities. rewrite Forall_forall in Hcities. apply Hcities.
    pose proof tour_nonempty. destruct tour; [congruence|now left].
  - eexists. split; [now apply (get_efficiency_closed ds back)|].
    unfold cyclic_length. rewrite Hds. cbn [bind]. rewrite Hback. reflexivity.
Qed.

End Efficiency.

Lemma permutation_cities (tour : list Z) (n : Z) :
  0 <= n -> Permutation tour (range n) -> len tour = n /\ cities tour n.
Proof.
  intros Hn Hp. split.
  - now rewrite (Permutation_len _ _ Hp), len_range.
  - apply Forall_forall. intros a Ha. apply in_range.
    eapply Permutation_in; eauto.
Qed.

Section TourLength.

Context {R : Runtime}.

Variable coordinates : list point.
Variable distances_list : list (list float).
Hypothesis Heven : pow_even R.
Hypothesis Hmatrix : get_distances_list coordinates = Ok distances_list.

Lemma distances_square : square distances_list (len coordinates).
Proof. exact (get_distances_list_shape _ _ Hmatrix). Qed.

Lemma distances_symmetric : symmetric distances_list (len coordinates).
Proof. intros a b Ha Hb. now apply (get_distances_list_sym coordinates). Qed.

(** C6. For a tour that is a permutation of [0..N-1], N >= 2, and the
    matrix of the same N points, [get_efficiency] returns the sum, started
    from 0 and taken in tour order, of the distances between consecutive
    cities and of the distance from the last city back to the first, rounded
    to 4 decimals; for N = 2 this is [round(0 + d + d, 4)] for the single
    edge distance [d], the edge being counted there and back. *)
Theorem get_efficiency_cyclic_length (tour : list Z) :
  2 <= len coordinates ->
  Permutation tour (range (len coordinates)) ->
  exists e,
    get_efficiency tour distances_list (len coordinates) = Ok e /\
    cyclic_length tour distances_list = Ok e /\
    (forall a b, tour = [a; b] ->
       exists d, entry distances_list a b = Ok d /\
                 e = py_round (fadd (fadd fzero d) d) 4 /\
                 (d <> S754_zero true -> e = py_round (fadd d d) 4)).
Proof.
  intros Hn Hp.
  destruct (permutation_cities tour (len coordinates)) as (Hlen & Hcities);
    [lia|assumption|].
  destruct (get_efficiency_cyclic distances_list (len coordinates) distances_square
              tour Hlen Hcities distances_symmetric) as (e & He & Hc); [lia|].
  exists e. split; [assumption|]. split; [assumption|].
  intros a b ->. unfold cyclic_length in Hc.
  cbn [consecutive combine tl mapM fst snd last hd bind] in Hc.
  unfold cities in Hcities. rewrite Forall_forall in Hcities.
  rewrite <- (distances_symmetric a b) in Hc by (apply Hcities; simpl; auto).
  destruct (entry distances_list a b) as [d|]; try discriminate.
  cbn [bind app fold_left] in Hc. exists d. split; [reflexivity|].
  assert (He' : e = py_round (fadd (fadd fzero d) d) 4) by congruence.
  split; [exact He'|].
  intros Hd. rewrite He', (fadd_zero_l d Hd). reflexivity.
Qed.

(** C9 (amended). The reversed tour is scored on the same distances added in
    the opposite order: with [ds] the distances between consecutive cities
    of the tour and [back] the distance from its last city to its first,
    [get_efficiency] returns the rounded sum of [ds] then [back] for the
    tour and of [ds] reversed then [back] for the reversed tour.  For
    N <= 3 the two results are equal. *)
Theorem get_efficiency_reverse (tour : list Z) :
  2 <= len coordinates ->
  Permutation tour (range (len coordinates)) ->
  exists ds back,
    mapM (fun ab => entry distances_list (fst ab) (snd ab)) (consecutive tour) = Ok ds /\
    entry distances_list (last tour 0) (hd 0 tour) = Ok back /\
    get_efficiency tour distances_list (len coordinates)
    = Ok (py_round (fold_left fadd (ds ++ [back]) fzero) 4) /\
    get_efficiency (rev tour) distances_list (len coordinates)
    = Ok (py_round (fold_left fadd (rev ds ++ [back]) fzero) 4) /\
    (len coordinates <= 3 ->
     get_efficiency (rev tour) distances_list (len coordinates)
     = get_efficiency tour distances_list (len coordinates)).
Proof.
  intros Hn Hp.
  destruct (permutation_cities tour (len coordinates)) as (Hlen & Hcities);
    [lia|assumption|].
  assert (Hp' : Permutation (rev tour) (range (len coordinates))).
  { rewrite <- Hp. symmetry. apply Permutation_rev. }
  destruct (permutation_cities (rev tour) (len coordinates)) as (Hlen' & Hcities');
    [lia|assumption|].
  pose proof Hcities as Hc. unfold cities in Hc. rewrite Forall_forall in Hc.
  destruct (consecutive_distances distances_list (len coordinates) distances_square
              tour Hcities) as (ds & Hds).
  assert (Hne : tour <> []).
  { intros ->. change (len (@nil Z)) with 0 in Hlen. lia. }
  assert (Hhd : In (hd 0 tour) tour) by (destruct tour; [congruence|now left]).
  assert (Hlast : In (last tour 0) tour).
  { destruct (exists_last Hne) as (l' & x & ->). rewrite last_last.
    apply in_or_app. right. now left. }
  destruct (entry_total distances_list (len coordinates) distances_square
              (last tour 0) (hd 0 tour)) as (back & Hback); auto.
  exists ds, back. split; [assumption|]. split; [assumption|].
  assert (E1 : get_efficiency tour distances_list (len coordinates)
               = Ok (py_round (fold_left fadd (ds ++ [back]) fzero) 4)).
  { apply get_efficiency_closed; auto using distances_square, distances_symmetric.
    lia. }
  assert (E2 : get_efficiency (rev tour) distances_list (len coordinates)
               = Ok (py_round (fold_left fadd (rev ds ++ [back]) fzero) 4)).
  { apply get_efficiency_closed; auto using distances_square, distances_symmetric.
    - lia.
    - rewrite consecutive_rev. apply mapM_rev. rewrite mapM_map. cbn [fst snd].
      rewrite <- Hds. apply mapM_ext_in. intros [a b] Hab.
      apply in_consecutive in Hab. destruct Hab as (Ha & Hb). cbn [fst snd].
      apply distances_symmetric; auto.
    - rewrite last_rev, hd_rev. rewrite <- Hback.
      apply distances_symmetric; auto. }
  split; [assumption|]. split; [assumption|].
  intros H3. rewrite E1, E2. do 2 f_equal.
  assert (Hl : List.length ds = (List.length tour - 1)%nat).
  { now rewrite (mapM_length _ _ _ Hds), consecutive_length. }
  unfold len in Hlen, Hn, H3.
  destruct ds as [|d1 [|d2 [|d3 ds]]]; cbn [rev app]; try reflexivity.
  - cbn [fold_left]. now rewrite fadd_zero_swap.
  - simpl in Hl. lia.
Qed.

End TourLength.

Lemma get_efficiency_cyclic_length_witness :
  exists e,
    get_efficiency [1; 0; 2] triangle_matrix (len triangle) = Ok e /\
    cyclic_length [1; 0; 2] triangle_matrix = Ok e /\
    (forall a b, [1; 0; 2] = [a; b] ->
       exists d, entry triangle_matrix a b = Ok d /\
                 e = py_round (fadd (fadd fzero d) d) 4 /\
                 (d <> S754_zero true -> e = py_round (fadd d d) 4)).
Proof.
  apply (@get_efficiency_cyclic_length Sample.runtime triangle triangle_matrix
           SampleFacts.pow_is_even triangle_distances [1; 0; 2]).
  - vm_compute. discriminate.
  - apply perm_swap.
Defined.

(** Two points 5 apart: the tour has efficiency 10 = 2 * 5. *)
Lemma two_points_efficiency :
  @get_distances_list Sample.runtime [(0, 0); (3, 4)] = Ok [[fzero; f5]; [f5; fzero]] /\
  get_efficiency [0; 1] [[fzero; f5]; [f5; fzero]] 2 = Ok (fmul ftwo f5) /\
  get_efficiency [1; 0] [[fzero; f5]; [f5; fzero]] 2 = Ok (fmul ftwo f5).
Proof. repeat split; vm_compute; reflexivity. Qed.

Lemma get_efficiency_reverse_witness :
  exists ds back,
    mapM (fun ab => entry triangle_matrix (fst ab) (snd ab)) (consecutive [1; 0; 2])
    = Ok ds /\
    entry triangle_matrix (last [1; 0; 2] 0) (hd 0 [1; 0; 2]) = Ok back /\
    get_efficiency [1; 0; 2] triangle_matrix (len triangle)
    = Ok (py_round (fold_left fadd (ds ++ [back]) fzero) 4) /\
    get_efficiency (rev [1; 0; 2]) triangle_matrix (len triangle)
    = Ok (py_round (fold_left fadd (rev ds ++ [back]) fzero) 4) /\
    (len triangle <= 3 ->
     get_efficiency (rev [1; 0; 2]) triangle_matrix (len triangle)
     = get_efficiency [1; 0; 2] triangle_matrix (len triangle)).
Proof.
  apply (@get_efficiency_reverse Sample.runtime triangle triangle_matrix
           SampleFacts.pow_is_even triangle_distances [1; 0; 2]).
  - vm_compute. discriminate.
  - apply perm_swap.
Defined.

(** C9 as stated fails: reversing the whole tour changes the efficiency. *)
Lemma get_efficiency_reverse_differs :
  exists distances_list,
    @get_distances_list Sample.runtime far_cities = Ok distances_list /\
    get_efficiency [0; 1; 2; 3] distances_list 4
    = Ok (S754_finite false 4503599627370496 2) /\
    get_efficiency (rev [0; 1; 2; 3]) distances_list 4
    = Ok (S754_finite false 4503599627370497 2) /\
    get_efficiency (rev [0; 1; 2; 3]) distances_list 4
    <> get_efficiency [0; 1; 2; 3] distances_list 4.
Proof.
  eexists. split; [vm_compute; reflexivity|].
  split; [vm_compute; reflexivity|].
  split; [vm_compute; reflexivity|].
  vm_compute. discriminate.
Qed.

Lemma get_efficiency_total (distances_list : list (list float)) (n : Z)
    (tour : list Z) :
  square distances_list n -> len tour = n -> cities tour n -> 1 <= n ->
  exists e, get_efficiency tour distances_list n = Ok e.
Proof.
  intros Hsq Hlen Hcities Hn.
  destruct (consecutive_distances distances_list n Hsq tour Hcities) as (ds & Hds).
  unfold get_efficiency.
  assert (Hnat : n = Z.of_nat (List.length tour)) by (now rewrite <- Hlen).
  replace (range n) with (range (Z.of_nat (List.length tour)))
    by (now rewrite <- Hnat).
  rewrite (efficiency_loop distances_list n tour Hcities ds
             (List.length tour) fzero Hds) by lia.
  cbn [bind].
  destruct (tour_nth n tour Hcities 0) as (a & Na & Ga & Ha); [lia|].
  destruct (tour_nth n tour Hcities (List.length tour - 1)) as (b & Nb & Gb & Hb);
    [lia|].
  replace (Z.of_nat (List.length tour - 1)) with (n - 1) in Gb by lia.
  change (Z.of_nat 0) with 0 in Ga.
  destruct (entry_total distances_list n Hsq a b Ha Hb) as (d & Hd).
  unfold entry in Hd. rewrite Ga. cbn [bind].
  destruct (getitem distances_list a) as [row|]; try discriminate.
  cbn [bind] in Hd |- *. rewrite Gb. cbn [bind]. rewrite Hd. cbn [bind]. eauto.
Qed.

(** * The annealing loop *)

Section Annealing.

Context {R : Runtime}.

Variable distances_list : list (list float).
Variable n : Z.

(** The three outcomes of the acceptance test. *)
Lemma accept_ok (st : sa_state) (candidate : list Z) (ce : float) (t : tape)
    (st' : sa_state) (t' : tape) :
  accept st candidate ce t = Ok (st', t') ->
  temperature st' = temperature st /\
  efficiency_list st' = efficiency_list st /\
  i st' = i st /\
  ((flt ce (current_efficiency st) = true /\
    current_efficiency st' = ce /\ current_solution st' = candidate /\
    ((flt ce (best_efficiency st) = true /\
      best_efficiency st' = ce /\ best_solution st' = candidate) \/
     (flt ce (best_efficiency st) = false /\
      best_efficiency st' = best_efficiency st /\
      best_solution st' = best_solution st)))
   \/
   (flt ce (current_efficiency st) = false /\
    (exists u p, get_probability ce (current_efficiency st) (temperature st) = Ok p /\
                 flt u p = true) /\
    current_efficiency st' = ce /\ current_solution st' = candidate /\
    best_efficiency st' = best_efficiency st /\
    best_solution st' = best_solution st)
   \/
   (flt ce (current_efficiency st) = false /\ st' = st)).
Proof.
  unfold accept. destruct (flt ce (current_efficiency st)) eqn:E1.
  - destruct (flt ce (best_efficiency st)) eqn:E2; intros H;
      injection H as <- <-; cbn; repeat split; left; repeat split; auto.
  - unfold random_random. cbn [bind].
    destruct (get_probability _ _ _) as [p|] eqn:Ep; cbn [bind]; [|discriminate].
    destruct (flt _ p) eqn:E3; intros H; injection H as <- <-; cbn;
      repeat split; right; [left|right]; repeat split; eauto.
Qed.

Lemma sa_body_ok (st : sa_state) (t : tape) (st' : sa_state) (t' : tape) :
  sa_body distances_list n st t = Ok (st', t') ->
  exists candidate ce t1 sa,
    perturb n (current_solution st) t = Ok (candidate, t1) /\
    get_efficiency candidate distances_list n = Ok ce /\
    accept st candidate ce t1 = Ok (sa, t') /\
    temperature st' = fmul (temperature sa) cooling /\
    current_efficiency st' = current_efficiency sa /\
    current_solution st' = current_solution sa /\
    best_efficiency st' = best_efficiency sa /\
    best_solution st' = best_solution sa /\
    efficiency_list st' = efficiency_list sa ++ [current_efficiency sa] /\
    i st' = i sa + 1.
Proof.
  unfold sa_body. intros H.
  apply bind_ok in H. destruct H as ([candidate t1] & Ep & H).
  apply bind_ok in H. destruct H as (ce & Ee & H).
  apply bind_ok in H. destruct H as ([sa t2] & Ea & H).
  injection H as <- <-.
  exists candidate, ce, t1, sa. cbn. repeat split; assumption.
Qed.

(** A NaN candidate has a NaN acceptance probability. *)
Lemma get_probability_nan (ce cur temp p : float) :
  exp_nan R -> is_nan ce = true -> get_probability ce cur temp = Ok p ->
  is_nan p = true.
Proof.
  intros Hexp Hce. destruct ce; try discriminate.
  unfold get_probability, fdiv.
  replace (fneg (fabs (fsub S754_nan cur))) with fnan by (now destruct cur).
  destruct (is_zero temp); cbn [bind]; [discriminate|].
  replace (SFdiv prec emax fnan temp) with fnan by (now destruct temp).
  unfold exp_nan in Hexp. rewrite Hexp. intros H. injection H as <-. reflexivity.
Qed.

Lemma flt_nan_r (u p : float) : is_nan p = true -> flt u p = false.
Proof. destruct p; try discriminate. now destruct u as [[]|[]| |[] ? ?]. Qed.

(** ** The best efficiency never exceeds the current one *)

Section BestBelowCurrent.

Variable start : float.
Hypothesis Hexp : exp_nan R.

Lemma accept_best_inv (st : sa_state) (candidate : list Z) (ce : float) (t : tape)
    (st' : sa_state) (t' : tape) :
  best_inv start st -> accept st candidate ce t = Ok (st', t') ->
  best_inv start st' /\ fle (best_efficiency st') (best_efficiency st) = true.
Proof.
  intros (Hbc & Hbs) H.
  destruct (fle_not_nan _ _ Hbc) as (Nb & Nc).
  destruct (accept_ok _ _ _ _ _ _ H) as (_ & _ & _ & Hcase).
  unfold best_inv.
  destruct Hcase as [(Hlt & -> & _ & Hbest)|[(Hge & (u & p & Hp & Hup) & -> & _ & -> & _)|(_ & ->)]].
  - destruct (flt_not_nan _ _ Hlt) as (Nce & _).
    destruct Hbest as [(Hltb & -> & _)|(Hgeb & -> & _)].
    + repeat split.
      * apply fle_refl; assumption.
      * eapply fle_trans; [apply flt_fle; eassumption|assumption].
      * apply flt_fle; assumption.
    + repeat split; [apply not_flt_fle; assumption|assumption|apply fle_refl; assumption].
  - assert (Nce : is_nan ce = false).
    { destruct (is_nan ce) eqn:E; [|reflexivity].
      rewrite (flt_nan_r u p) in Hup; [discriminate|].
      eapply get_probability_nan; eauto. }
    repeat split; [|assumption|apply fle_refl; assumption].
    apply (fle_trans _ (current_efficiency st)); [assumption|].
    apply not_flt_fle; assumption.
  - repeat split; [assumption|assumption|apply fle_refl; assumption].
Qed.

Lemma sa_body_best_inv (st : sa_state) (t : tape) (st' : sa_state) (t' : tape) :
  best_inv start st -> sa_body distances_list n st t = Ok (st', t') ->
  best_inv start st' /\ fle (best_efficiency st') (best_efficiency st) = true.
Proof.
  intros Hinv H.
  destruct (sa_body_ok _ _ _ _ H)
    as (candidate & ce & t1 & sa & _ & _ & Ha & _ & Hc & _ & Hb & _).
  destruct (accept_best_inv _ _ _ _ _ _ Hinv Ha) as ((H1 & H2) & H3).
  unfold best_inv. rewrite Hc, Hb. auto.
Qed.

Lemma sa_reaches_best_inv (s s' : sa_state * tape) :
  sa_reaches distances_list n s s' -> best_inv start (fst s) ->
  best_inv start (fst s') /\ fle (best_efficiency (fst s')) (best_efficiency (fst s)) = true.
Proof.
  intros Hr Hinv. induction Hr as [s|s s1 [st2 t2] Hr IH Hc Hb].
  - split; [assumption|]. apply fle_refl. destruct Hinv as (Hbc & _).
    now destruct (fle_not_nan _ _ Hbc).
  - destruct (IH Hinv) as (Hinv1 & Hle1). destruct s1 as [st1 t1]. cbn [fst snd] in *.
    destruct (sa_body_best_inv _ _ _ _ Hinv1 Hb) as (Hinv2 & Hle2).
    split; [assumption|]. eapply fle_trans; eauto.
Qed.

End BestBelowCurrent.

End Annealing.

Lemma binary_round_aux_neg (m e : Z) (l : location) :
  flt fzero (binary_round_aux prec emax true m e l) = false.
Proof.
  unfold binary_round_aux.
  destruct (shr_fexp prec emax m e l) as [mrs' e'].
  destruct (shr_fexp prec emax _ e' loc_Exact) as [mrs'' e''].
  destruct (shr_m mrs''); try reflexivity.
  destruct (e'' <=? emax - prec); reflexivity.
Qed.

(** The argument of [math.exp] in [get_probability] is never positive. *)
Lemma fdiv_neg_abs (x temp : float) :
  flt fzero temp = true ->
  is_zero temp = false /\
  flt fzero (SFdiv prec emax (fneg (fabs x)) temp) = false.
Proof.
  intros Ht. split; [now destruct temp|].
  destruct temp as [[]|[]| |[] mt et]; try discriminate;
    destruct x as [[]|[]| |[] mx ex]; try reflexivity;
    cbn [fabs SFabs fneg SFopp negb]; unfold SFdiv;
    destruct (SFdiv_core_binary prec emax (Zpos mx) ex (Zpos mt) et) as [[mz ez] lz];
    apply binary_round_aux_neg.
Qed.

Section AnnealingRuns.

Context {R : Runtime}.

Variable distances_list : list (list float).
Variable n : Z.

Lemma sa_loop_reaches (fuel : nat) (st : sa_state) (t : tape) (s' : sa_state * tape) :
  sa_loop distances_list n fuel st t = Some (Ok s') ->
  sa_reaches distances_list n (st, t) s' /\ sa_cond (fst s') = false.
Proof.
  revert st t. induction fuel as [|fuel IH]; intros st t; simpl.
  - destruct (sa_cond st) eqn:Ec; [discriminate|].
    intros H. injection H as <-. split; [constructor|assumption].
  - destruct (sa_cond st) eqn:Ec.
    + destruct (sa_body distances_list n st t) as [[st1 t1]|e] eqn:Eb; [|discriminate].
      intros H. destruct (IH _ _ H) as (Hr & Hc). split; [|assumption].
      clear - Hr Ec Eb. remember (st1, t1) as s1 eqn:E1. revert st1 t1 E1 Eb.
      induction Hr as [s|s sa sb Hr IHr Hca Hba]; intros st1 t1 -> Eb.
      * eapply reach_next; [constructor|exact Ec|exact Eb].
      * eapply reach_next; [|exact Hca|exact Hba]. eapply IHr; eauto.
    + intros H. injection H as <-. split; [constructor|assumption].
Qed.


Lemma sa_body_trace_inv (start : float) (st : sa_state) (t : tape)
    (st' : sa_state) (t' : tape) :
  trace_inv start st -> sa_cond st = true ->
  sa_body distances_list n st t = Ok (st', t') ->
  trace_inv start st' /\ i st' = i st + 1.
Proof.
  intros (Hi & Hl & Hh) Hc Hb.
  unfold sa_cond in Hc. apply andb_true_iff in Hc. destruct Hc as (_ & Hlt).
  apply Z.ltb_lt in Hlt.
  destruct (sa_body_ok _ _ _ _ _ _ Hb)
    as (c & ce & t0 & sa & _ & _ & Ha & _ & _ & _ & _ & _ & Hl' & Hi').
  destruct (accept_ok _ _ _ _ _ _ Ha) as (_ & Hla & Hia & _).
  unfold trace_inv. rewrite Hi', Hl', Hla, Hia, len_app. split; [|reflexivity].
  repeat split; try lia.
  - change (len [current_efficiency sa]) with 1. lia.
  - destruct (efficiency_list st); [discriminate|assumption].
Qed.

Lemma sa_reaches_trace_inv (start : float) (s s' : sa_state * tape) :
  sa_reaches distances_list n s s' -> trace_inv start (fst s) ->
  trace_inv start (fst s').
Proof.
  intros Hr Hinv. induction Hr as [s|s [st1 t1] [st2 t2] Hr IH Hc Hb]; [assumption|].
  cbn [fst snd] in *. now destruct (sa_body_trace_inv start _ _ _ _ (IH Hinv) Hc Hb).
Qed.

End AnnealingRuns.

Section AnnealingResults.

Context {R : Runtime}.

Variable coordinates : list point.
Variable distances_list : list (list float).
Variable solution : list Z.
Variable start : float.
Variable t : tape.

Lemma sa_init_ok (st0 : sa_state) :
  sa_init coordinates solution start = Ok st0 ->
  current_efficiency st0 = start /\ best_efficiency st0 = start /\
  current_solution st0 = solution /\ best_solution st0 = solution /\
  efficiency_list st0 = [start] /\ i st0 = 0.
Proof.
  unfold sa_init. intros H.
  apply bind_ok in H. destruct H as (x & _ & H).
  apply bind_ok in H. destruct H as (temp & _ & H).
  injection H as <-. cbn. auto 6.
Qed.

Lemma do_simulated_annealing_ok (best : list Z) (trace : list float) (beff : float)
    (t' : tape) :
  do_simulated_annealing coordinates distances_list solution start t
  = Some (Ok (best, trace, beff, t')) ->
  exists st0 st,
    sa_init coordinates solution start = Ok st0 /\
    sa_run coordinates distances_list solution start t = Some (Ok (st, t')) /\
    sa_reaches distances_list (len coordinates) (st0, t) (st, t') /\
    sa_cond st = false /\
    best = best_solution st /\ trace = efficiency_list st /\
    beff = best_efficiency st.
Proof.
  unfold do_simulated_annealing, sa_run.
  destruct (sa_init coordinates solution start) as [st0|e] eqn:E0; [|discriminate].
  destruct (sa_loop _ _ _ st0 t) as [[[st t1]|e]|] eqn:El; try discriminate.
  cbn. intros H. injection H as <- <- <- <-.
  destruct (sa_loop_reaches _ _ _ _ _ _ El) as (Hr & Hc).
  exists st0, st. auto 8.
Qed.

(** C3. With a starting efficiency that is a number (not a NaN), after every
    iteration of [do_simulated_annealing] the best efficiency is at most the
    current efficiency and at most the starting efficiency; from any
    iteration to any later one the best efficiency does not increase; and the
    best efficiency returned is at most the starting efficiency. *)
Theorem best_efficiency_invariants :
  exp_nan R -> is_nan start = false ->
  (forall st0, sa_init coordinates solution start = Ok st0 ->
     (forall s, sa_reaches distances_list (len coordinates) (st0, t) s ->
        fle (best_efficiency (fst s)) (current_efficiency (fst s)) = true /\
        fle (best_efficiency (fst s)) start = true) /\
     (forall s s', sa_reaches distances_list (len coordinates) (st0, t) s ->
        sa_reaches distances_list (len coordinates) s s' ->
        fle (best_efficiency (fst s')) (best_efficiency (fst s)) = true)) /\
  (forall best trace beff t',
     do_simulated_annealing coordinates distances_list solution start t
     = Some (Ok (best, trace, beff, t')) ->
     fle beff start = true).
Proof.
  intros Hexp Hstart.
  assert (Hinit : forall st0, sa_init coordinates solution start = Ok st0 ->
                              best_inv start st0).
  { intros st0 H0. destruct (sa_init_ok st0 H0) as (Hc & Hb & _).
    unfold best_inv. rewrite Hc, Hb. split; apply fle_refl; assumption. }
  split.
  - intros st0 H0. split.
    + intros s Hs.
      now destruct (sa_reaches_best_inv distances_list (len coordinates) start Hexp
                      _ _ Hs (Hinit st0 H0)).
    + intros s s' Hs Hs'.
      destruct (sa_reaches_best_inv distances_list (len coordinates) start Hexp
                  _ _ Hs (Hinit st0 H0)) as (Hinv & _).
      now destruct (sa_reaches_best_inv distances_list (len coordinates) start Hexp
                      _ _ Hs' Hinv).
  - intros best trace beff t' H.
    destruct (do_simulated_annealing_ok _ _ _ _ H)
      as (st0 & st & H0 & _ & Hr & _ & _ & _ & ->).
    now destruct (sa_reaches_best_inv distances_list (len coordinates) start Hexp
                    _ _ Hr (Hinit st0 H0)) as ((_ & Hle) & _).
Qed.


(** C10. When the starting efficiency equals the efficiency of the starting
    tour, then after every iteration, and at return, the best efficiency
    equals the efficiency of the best tour. *)
Theorem best_solution_consistent (e0 : float) :
  get_efficiency solution distances_list (len coordinates) = Ok e0 ->
  feq start e0 = true ->
  (forall st0, sa_init coordinates solution start = Ok st0 ->
     forall s, sa_reaches distances_list (len coordinates) (st0, t) s ->
       exists e,
         get_efficiency (best_solution (fst s)) distances_list (len coordinates) = Ok e /\
         feq (best_efficiency (fst s)) e = true /\
         (start = e0 -> best_efficiency (fst s) = e)) /\
  (forall best trace beff t',
     do_simulated_annealing coordinates distances_list solution start t
     = Some (Ok (best, trace, beff, t')) ->
     exists e,
       get_efficiency best distances_list (len coordinates) = Ok e /\
       feq beff e = true /\ (start = e0 -> beff = e)).
Proof.
  intros He0 Heq.
  assert (Hreach : forall st0, sa_init coordinates solution start = Ok st0 ->
            forall s, sa_reaches distances_list (len coordinates) (st0, t) s ->
            exists e,
              get_efficiency (best_solution (fst s)) distances_list (len coordinates)
              = Ok e /\
              feq (best_efficiency (fst s)) e = true /\
              (start = e0 -> best_efficiency (fst s) = e)).
  { intros st0 H0 s Hs.
    remember (st0, t) as s0 eqn:E0.
    induction Hs as [s|s [st1 t1] [st2 t2] Hs IH Hc Hb].
    - subst s. cbn [fst]. destruct (sa_init_ok st0 H0) as (_ & -> & _ & -> & _).
      exists e0. auto.
    - destruct (IH E0) as (e & Hg & Hf & Hl). cbn [fst snd] in *.
      destruct (sa_body_ok _ _ _ _ _ _ Hb)
        as (c & ce & t0 & sa & _ & Hce & Ha & _ & _ & _ & Hbe & Hbs & _).
      rewrite Hbe, Hbs.
      destruct (accept_ok _ _ _ _ _ _ Ha) as (_ & _ & _ & Hcase).
      destruct Hcase as [(_ & _ & _ & [(Hlt & -> & ->)|(_ & -> & ->)])
                        |[(_ & _ & _ & _ & -> & ->)|(_ & ->)]]; eauto.
      exists ce. split; [assumption|]. split; [|reflexivity].
      apply feq_refl. now destruct (flt_not_nan _ _ Hlt). }
  split; [assumption|].
  intros best trace beff t' H.
  destruct (do_simulated_annealing_ok _ _ _ _ H)
    as (st0 & st & H0 & _ & Hr & _ & -> & _ & ->).
  apply (Hreach st0 H0 (st, t') Hr).
Qed.

End AnnealingResults.

(** * Failure modes *)

Section NoRaise.

Context {R : Runtime}.

Variable distances_list : list (list float).
Variable n : Z.
Hypothesis Hexp : exp_returns R.
Hypothesis Hn : 3 <= n.
Hypothesis Hsquare : square distances_list n.

Lemma get_probability_total (ce cur temp : float) :
  flt fzero temp = true -> exists p, get_probability ce cur temp = Ok p.
Proof.
  intros Ht. unfold get_probability, fdiv.
  destruct (fdiv_neg_abs (fsub ce cur) temp Ht) as (-> & Hq). cbn [bind].
  now apply Hexp.
Qed.

Lemma accept_total (st : sa_state) (candidate : list Z) (ce : float) (t : tape) :
  flt fzero (temperature st) = true ->
  exists st' t', accept st candidate ce t = Ok (st', t').
Proof.
  intros Ht. unfold accept.
  destruct (flt ce (current_efficiency st)).
  - destruct (flt ce (best_efficiency st)); eauto.
  - unfold random_random. cbn [bind].
    destruct (get_probability_total ce (current_efficiency st) (temperature st) Ht)
      as (p & ->).
    cbn [bind]. destruct (flt _ p); eauto.
Qed.

Lemma sa_body_total (st : sa_state) (t : tape) :
  tour_inv n st -> sa_cond st = true ->
  exists st' t', sa_body distances_list n st t = Ok (st', t') /\ tour_inv n st'.
Proof.
  intros (Hlen & Hcities) Hc.
  unfold sa_cond in Hc. apply andb_true_iff in Hc. destruct Hc as (Ht & _).
  destruct (perturb_total n (current_solution st) t Hn) as (candidate & Hp).
  pose proof (perturb_perm _ _ _ _ _ Hp) as Hperm.
  assert (Hlen' : len candidate = n) by (now rewrite <- (Permutation_len _ _ Hperm)).
  assert (Hcities' : cities candidate n).
  { unfold cities in *. now rewrite <- Hperm. }
  destruct (get_efficiency_total distances_list n candidate Hsquare Hlen' Hcities')
    as (ce & Hce); [lia|].
  destruct (accept_total st candidate ce (tape_tail (tape_tail t)) Ht) as (sa & t' & Ha).
  unfold sa_body. rewrite Hp. cbn [bind]. rewrite Hce. cbn [bind]. rewrite Ha.
  cbn [bind]. eexists. eexists. split; [reflexivity|].
  unfold tour_inv. cbn.
  destruct (accept_ok _ _ _ _ _ _ Ha) as (_ & _ & _ & Hcase).
  destruct Hcase as [(_ & _ & -> & _)|[(_ & _ & _ & -> & _)|(_ & ->)]]; auto.
Qed.

Lemma sa_loop_returns (fuel : nat) (st : sa_state) (t : tape) :
  tour_inv n st -> 100000 - i st <= Z.of_nat fuel ->
  exists s', sa_loop distances_list n fuel st t = Some (Ok s').
Proof.
  revert st t. induction fuel as [|fuel IH]; intros st t Hinv Hf; simpl.
  - destruct (sa_cond st) eqn:Ec; [|eauto].
    unfold sa_cond in Ec. apply andb_true_iff in Ec. destruct Ec as (_ & Ei).
    apply Z.ltb_lt in Ei. lia.
  - destruct (sa_cond st) eqn:Ec; [|eauto].
    destruct (sa_body_total st t Hinv Ec) as (st1 & t1 & Hb & Hinv1).
    rewrite Hb. apply IH; [assumption|].
    destruct (sa_body_ok _ _ _ _ _ _ Hb)
      as (c & ce & t0 & sa & _ & _ & Ha & _ & _ & _ & _ & _ & _ & Hi).
    destruct (accept_ok _ _ _ _ _ _ Ha) as (_ & _ & Hi' & _). lia.
Qed.

End NoRaise.

Section FailureModes.

Context {R : Runtime}.

Lemma get_coordinates_ok (coordinates_file : list string) (coordinates : list point) :
  get_coordinates coordinates_file = Ok coordinates <->
  Forall2 (fun each_line p => field each_line 0 = Ok (fst p) /\
                              field each_line 1 = Ok (snd p))
          coordinates_file coordinates.
Proof.
  unfold get_coordinates. split.
  - intros H. apply mapM_ok in H.
    induction H as [|l p ls ps Hlp H IH]; constructor; [|assumption].
    apply bind_ok in Hlp. destruct Hlp as (x & Ex & Hlp).
    apply bind_ok in Hlp. destruct Hlp as (y & Ey & Hlp).
    injection Hlp as <-. auto.
  - intros H. induction H as [|l [x y] ls ps (Ex & Ey) H IH]; [reflexivity|].
    cbn [mapM fst snd] in *. rewrite Ex, Ey. cbn [bind]. rewrite IH. reflexivity.
Qed.

Lemma do_simulated_annealing_returns (coordinates : list point)
    (distances_list : list (list float)) (solution : list Z) (start : float)
    (t : tape) (st0 : sa_state) :
  exp_returns R -> 3 <= len coordinates ->
  square distances_list (len coordinates) ->
  len solution = len coordinates -> cities solution (len coordinates) ->
  sa_init coordinates solution start = Ok st0 ->
  exists r, do_simulated_annealing coordinates distances_list solution start t
            = Some (Ok r).
Proof.
  intros Hexp Hn Hsq Hlen Hcities H0.
  unfold do_simulated_annealing, sa_run. rewrite H0.
  destruct (sa_init_ok _ _ _ st0 H0) as (_ & _ & Hs & _ & _ & Hi).
  destruct (sa_loop_returns distances_list (len coordinates) Hexp Hn Hsq
              (Z.to_nat 100000) st0 t) as ([st t'] & ->).
  - unfold tour_inv. rewrite Hs. auto.
  - rewrite Hi. lia.
  - cbn. eauto.
Qed.

Lemma read_line_ok (each_line : string) (p : point) :
  (x <- field each_line 0 ;; y <- field each_line 1 ;; Ok (x, y)) = Ok p <->
  two_ints each_line p.
Proof.
  unfold two_ints, field. split.
  - intros H.
    apply bind_ok in H. destruct H as (x & Hx & H).
    apply bind_ok in H. destruct H as (y & Hy & H). injection H as <-.
    apply bind_ok in Hx. destruct Hx as (a & Ga & Ha).
    apply bind_ok in Hy. destruct Hy as (b & Gb & Hb).
    apply getitem_ok in Ga; [|lia]. apply getitem_ok in Gb; [|lia].
    destruct (str_split each_line) as [|a' [|b' more]]; try discriminate.
    injection Ga as ->. injection Gb as ->. exists a, b, more. auto.
  - intros (a & b & more & -> & Ha & Hb).
    rewrite (proj2 (getitem_ok (a :: b :: more) 0 a ltac:(lia)) eq_refl).
    rewrite (proj2 (getitem_ok (a :: b :: more) 1 b ltac:(lia)) eq_refl).
    cbn [bind]. rewrite Ha. cbn [bind]. rewrite Hb. destruct p; reflexivity.
Qed.

Lemma read_line_raise (each_line : string) (e : exn) :
  int_value_error R ->
  (x <- field each_line 0 ;; y <- field each_line 1 ;; Ok (x, y)) = Raise e ->
  (e = IndexError /\ (List.length (str_split each_line) < 2)%nat) \/
  (e = ValueError /\
   exists a, In a (firstn 2 (str_split each_line)) /\ py_int a = Raise ValueError).
Proof.
  intros Hint. unfold field.
  destruct (str_split each_line) as [|a [|b more]].
  - intros H. injection H as <-. left. split; [reflexivity|simpl; lia].
  - change (getitem [a] 0) with (Ok a). cbn [bind].
    destruct (py_int a) as [x|e0] eqn:Ea; cbn [bind].
    + intros H. injection H as <-. left. split; [reflexivity|simpl; lia].
    + intros H. injection H as <-. pose proof (Hint a e0 Ea) as ->.
      right. split; [reflexivity|]. exists a. split; [now left|assumption].
  - rewrite (proj2 (getitem_ok (a :: b :: more) 0 a ltac:(lia)) eq_refl).
    rewrite (proj2 (getitem_ok (a :: b :: more) 1 b ltac:(lia)) eq_refl).
    cbn [bind]. destruct (py_int a) as [x|e0] eqn:Ea; cbn [bind].
    + destruct (py_int b) as [y|e1] eqn:Eb; cbn [bind]; [discriminate|].
      intros H. injection H as <-. pose proof (Hint b e1 Eb) as ->.
      right. split; [reflexivity|]. exists b. split; [right; now left|assumption].
    + intros H. injection H as <-. pose proof (Hint a e0 Ea) as ->.
      right. split; [reflexivity|]. exists a. split; [now left|assumption].
Qed.

(** The lines before the first one that cannot be read are read. *)
Lemma get_coordinates_raise (coordinates_file : list string) (e : exn) :
  get_coordinates coordinates_file = Raise e ->
  exists good bad rest coordinates,
    coordinates_file = good ++ bad :: rest /\
    get_coordinates good = Ok coordinates /\
    (x <- field bad 0 ;; y <- field bad 1 ;; Ok (x, y)) = Raise e.
Proof.
  unfold get_coordinates.
  induction coordinates_file as [|l ls IH]; cbn [mapM]; [discriminate|].
  destruct (x <- field l 0 ;; y <- field l 1 ;; Ok (x, y)) as [p|e0] eqn:El;
    cbn [bind].
  - destruct (mapM _ ls) as [ps|e1] eqn:Els; cbn [bind]; [discriminate|].
    intros H. injection H as <-.
    destruct (IH eq_refl) as (good & bad & rest & coordinates & -> & Hg & Hb).
    exists (l :: good), bad, rest, (p :: coordinates).
    split; [reflexivity|]. split; [|assumption].
    cbn [mapM]. rewrite El. cbn [bind]. rewrite Hg. reflexivity.
  - intros H. injection H as <-. exists [], l, ls, []. auto.
Qed.

(** Reading does not consult [math.pow] or [math.exp]. *)
Lemma get_coordinates_with_math (pow' : float -> float -> res float)
    (exp' : float -> res float) (coordinates_file : list string) :
  @get_coordinates (with_math pow' exp') coordinates_file
  = get_coordinates coordinates_file.
Proof. reflexivity. Qed.

(** C2 (amended). The program has no input validation of its own and no
    check on the number of lines.  [get_coordinates] returns exactly when
    every line has at least two fields of which [int] accepts the first two,
    with one point per line, whatever fields follow.  Otherwise it raises at
    the first line that cannot be read: [IndexError] when that line has
    fewer than two fields, [ValueError] when [int] rejects one of its first
    two fields; the run then ends with that exception whatever [math.pow]
    and [math.exp] are, that is before any distance is computed.  For
    N >= 3, a matrix of N rows of N entries and a current tour of N cities of
    [0..N-1], [do_simulated_annealing] returns for every outcome of the random
    choices. *)
Theorem failure_modes :
  exp_returns R -> int_value_error R ->
  (forall coordinates_file coordinates,
     get_coordinates coordinates_file = Ok coordinates <->
     Forall2 two_ints coordinates_file coordinates) /\
  (forall coordinates_file e,
     get_coordinates coordinates_file = Raise e ->
     (exists good bad rest coordinates,
        coordinates_file = good ++ bad :: rest /\
        Forall2 two_ints good coordinates /\
        ((e = IndexError /\ (List.length (str_split bad) < 2)%nat) \/
         (e = ValueError /\
          exists a, In a (firstn 2 (str_split bad)) /\
                    py_int a = Raise ValueError))) /\
     forall pow' exp' t,
       @my_main (with_math pow' exp') coordinates_file t = Some (Raise e)) /\
  (forall coordinates distances_list solution start st0,
     3 <= len coordinates ->
     square distances_list (len coordinates) ->
     len solution = len coordinates -> cities solution (len coordinates) ->
     sa_init coordinates solution start = Ok st0 ->
     forall t, exists r,
       do_simulated_annealing coordinates distances_list solution start t
       = Some (Ok r)).
Proof.
  intros Hexp Hint.
  assert (Hread : forall coordinates_file coordinates,
            get_coordinates coordinates_file = Ok coordinates <->
            Forall2 two_ints coordinates_file coordinates).
  { intros coordinates_file coordinates. rewrite get_coordinates_ok. split.
    - intros H. induction H as [|l p ls ps (Hx & Hy) H IH]; constructor;
        [|assumption].
      apply read_line_ok. rewrite Hx, Hy. destruct p; reflexivity.
    - intros H. induction H as [|l p ls ps Hl H IH]; constructor; [|assumption].
      apply read_line_ok in Hl.
      apply bind_ok in Hl. destruct Hl as (x & Hx & Hl).
      apply bind_ok in Hl. destruct Hl as (y & Hy & Hl). injection Hl as <-.
      auto. }
  split; [exact Hread|]. split.
  - intros coordinates_file e He. split.
    + destruct (get_coordinates_raise _ _ He)
        as (good & bad & rest & coordinates & Hf & Hg & Hb).
      exists good, bad, rest, coordinates. split; [assumption|].
      split; [now apply Hread|]. now apply read_line_raise.
    + intros pow' exp' t. unfold my_main, prepare.
      rewrite get_coordinates_with_math, He. reflexivity.
  - intros coordinates distances_list solution start st0 Hn Hsq Hlen Hc H0 t.
    now apply (do_simulated_annealing_returns coordinates distances_list solution
                 start t st0).
Qed.

End FailureModes.

(** * Runs on concrete inputs *)

Lemma sample_exp_returns : exp_returns Sample.runtime.
Proof.
  intros x Hx. change (exists r, Sample.exp x = Ok r). unfold Sample.exp.
  assert (Hc : flt (float_of_ratio 70978 100) x = false).
  { destruct (flt (float_of_ratio 70978 100) x) eqn:E; [|reflexivity].
    rewrite <- Hx. symmetry.
    apply (flt_trans fzero (float_of_ratio 70978 100) x); [reflexivity|assumption]. }
  destruct x as [s|[]| |s m e]; eauto; rewrite Hc;
    destruct (flt _ (fneg (float_of_ratio 7452 10))); eauto.
Qed.

Lemma triangle_square : square triangle_matrix (len triangle).
Proof.
  split; [reflexivity|]. intros row Hrow. simpl in Hrow.
  destruct Hrow as [<-|[<-|[<-|[]]]]; reflexivity.
Qed.

Lemma sample_int_value_error : int_value_error Sample.runtime.
Proof.
  intros s e. change (Sample.int s = Raise e -> e = ValueError).
  unfold Sample.int.
  destruct (match s with
            | String "-"%char s' => (true, s')
            | String "+"%char s' => (false, s')
            | _ => (false, s)
            end) as [neg body].
  destruct (Sample.digits body 0 false); [discriminate|].
  intros H. now injection H as <-.
Qed.

Lemma failure_modes_witness :
  (@get_coordinates Sample.runtime ["0 0"; "0 3"; "4 0 9"]%string = Ok triangle <->
   Forall2 (@two_ints Sample.runtime) ["0 0"; "0 3"; "4 0 9"]%string triangle) /\
  ((exists good bad rest coordinates,
      ["0 0"; "7"; "x y"]%string = good ++ bad :: rest /\
      Forall2 (@two_ints Sample.runtime) good coordinates /\
      ((IndexError = IndexError /\
        (List.length (@str_split Sample.runtime bad) < 2)%nat) \/
       (IndexError = ValueError /\
        exists a, In a (firstn 2 (@str_split Sample.runtime bad)) /\
                  @py_int Sample.runtime a = Raise ValueError))) /\
   forall pow' exp' t,
     @my_main (@with_math Sample.runtime pow' exp') ["0 0"; "7"; "x y"]%string t
     = Some (Raise IndexError)) /\
  exists r,
    @do_simulated_annealing Sample.runtime triangle triangle_matrix [1; 0; 2] f12
      (fun _ => 0) = Some (Ok r).
Proof.
  destruct (@failure_modes Sample.runtime sample_exp_returns sample_int_value_error)
    as (Hcoord & Hraise & Hrun).
  split; [apply Hcoord|]. split.
  - apply Hraise. vm_compute. reflexivity.
  - eapply (Hrun triangle triangle_matrix [1; 0; 2] f12).
    + vm_compute. discriminate.
    + exact triangle_square.
    + reflexivity.
    + repeat constructor; vm_compute; discriminate.
    + vm_compute. reflexivity.
Defined.

(** C2 as stated fails.  A file of two points is a valid input and the
    preparation succeeds, but the annealing raises [ValueError] (the range of
    [random.randint(2, 1)] is empty).  A file of one point is not rejected
    when read: its 1-by-1 matrix is built and the failure comes later, from
    the same [randint]. *)
Lemma my_main_raises :
  (exists p, @prepare Sample.runtime ["0 0"; "3 4"]%string (fun _ => 0) = Ok p) /\
  @my_main Sample.runtime ["0 0"; "3 4"]%string (fun _ => 0) = Some (Raise ValueError) /\
  @get_coordinates Sample.runtime ["0 0"]%string = Ok [(0, 0)] /\
  @get_distances_list Sample.runtime [(0, 0)] = Ok [[fzero]] /\
  @my_main Sample.runtime ["0 0"]%string (fun _ => 0) = Some (Raise ValueError).
Proof.
  split; [eexists; vm_compute; reflexivity|].
  repeat split; vm_compute; reflexivity.
Qed.

(** With two points the annealing raises whatever the tape, the matrix and
    the tour. *)
Lemma do_simulated_annealing_two_points {R : Runtime} (coordinates : list point)
    (distances_list : list (list float)) (solution : list Z) (start : float)
    (t : tape) :
  len coordinates = 2 ->
  do_simulated_annealing coordinates distances_list solution start t
  = Some (Raise ValueError).
Proof.
  intros Hn. unfold do_simulated_annealing, sa_run, sa_init. rewrite Hn.
  change (float_of_int 2) with (Ok ftwo). cbn [bind].
  change (math_sqrt ftwo)
    with (Ok (S754_finite false 6369051672525773 (-52))).
  cbn [bind]. change (Z.to_nat 100000) with (S (Z.to_nat 99999)).
  cbn [sa_loop]. unfold sa_cond at 1. cbn [temperature i].
  change (flt fzero (S754_finite false 6369051672525773 (-52)) && (0 <? 100000))
    with true.
  cbv iota. unfold sa_body, perturb. rewrite randint_empty by lia. reflexivity.
Qed.

Lemma best_efficiency_invariants_witness :
  is_nan f12 = false /\
  (forall st0, sa_init triangle [1; 0; 2] f12 = Ok st0 ->
     (forall s, @sa_reaches Sample.runtime triangle_matrix (len triangle)
                  (st0, fun _ => 0) s ->
        fle (best_efficiency (fst s)) (current_efficiency (fst s)) = true /\
        fle (best_efficiency (fst s)) f12 = true) /\
     (forall s s', @sa_reaches Sample.runtime triangle_matrix (len triangle)
                     (st0, fun _ => 0) s ->
        @sa_reaches Sample.runtime triangle_matrix (len triangle) s s' ->
        fle (best_efficiency (fst s')) (best_efficiency (fst s)) = true)) /\
  (forall best trace beff t',
     @do_simulated_annealing Sample.runtime triangle triangle_matrix [1; 0; 2] f12
       (fun _ => 0) = Some (Ok (best, trace, beff, t')) ->
     fle beff f12 = true).
Proof.
  split; [reflexivity|].
  apply (@best_efficiency_invariants Sample.runtime triangle triangle_matrix
           [1; 0; 2] f12 (fun _ => 0)).
  - reflexivity.
  - reflexivity.
Defined.

Lemma best_solution_consistent_witness :
  get_efficiency [1; 0; 2] triangle_matrix (len triangle) = Ok f12 /\
  (forall st0, sa_init triangle [1; 0; 2] f12 = Ok st0 ->
     forall s, @sa_reaches Sample.runtime triangle_matrix (len triangle)
                 (st0, fun _ => 0) s ->
       exists e,
         get_efficiency (best_solution (fst s)) triangle_matrix (len triangle) = Ok e /\
         feq (best_efficiency (fst s)) e = true /\
         (f12 = f12 -> best_efficiency (fst s) = e)) /\
  (forall best trace beff t',
     @do_simulated_annealing Sample.runtime triangle triangle_matrix [1; 0; 2] f12
       (fun _ => 0) = Some (Ok (best, trace, beff, t')) ->
     exists e,
       get_efficiency best triangle_matrix (len triangle) = Ok e /\
       feq beff e = true /\ (f12 = f12 -> beff = e)).
Proof.
  split; [vm_compute; reflexivity|].
  apply (@best_solution_consistent Sample.runtime triangle triangle_matrix
           [1; 0; 2] f12 (fun _ => 0) f12).
  - vm_compute. reflexivity.
  - reflexivity.
Defined.

(** * Further properties of the program *)

(** ** Reading the coordinates *)

Lemma mapM_app_eq {A B : Type} (f : A -> res B) (l l' : list A) :
  mapM f (l ++ l') = r <- mapM f l ;; r' <- mapM f l' ;; Ok (r ++ r').
Proof.
  induction l as [|a l IH]; simpl.
  - destruct (mapM f l'); reflexivity.
  - destruct (f a) as [b|e]; simpl; [|reflexivity]. rewrite IH.
    destruct (mapM f l) as [r|e]; simpl; [|reflexivity].
    destruct (mapM f l') as [r'|e]; reflexivity.
Qed.

Section Reading.

Context {R : Runtime}.

(** X1. The exception of the first line that cannot be read is the exception of
    [get_coordinates], whatever follows that line; a line without fields, or
    with a single field that [int] accepts, raises [IndexError]. *)
Theorem get_coordinates_first_bad_line (good : list string) (bad : string)
    (rest : list string) (coordinates : list point) :
  get_coordinates good = Ok coordinates ->
  (forall e, (x <- field bad 0 ;; y <- field bad 1 ;; Ok (x, y)) = Raise e ->
             get_coordinates (good ++ bad :: rest) = Raise e) /\
  (str_split bad = [] -> get_coordinates (good ++ bad :: rest) = Raise IndexError) /\
  (forall a x, str_split bad = [a] -> py_int a = Ok x ->
               get_coordinates (good ++ bad :: rest) = Raise IndexError).
Proof.
  intros Hgood.
  assert (Hfirst : forall e,
            (x <- field bad 0 ;; y <- field bad 1 ;; Ok (x, y)) = Raise e ->
            get_coordinates (good ++ bad :: rest) = Raise e).
  { intros e He. unfold get_coordinates in *. rewrite mapM_app_eq, Hgood.
    cbn [bind mapM]. rewrite He. reflexivity. }
  split; [assumption|]. split.
  - intros Hs. apply Hfirst. unfold field. rewrite Hs. reflexivity.
  - intros a x Hs Ha. apply Hfirst. unfold field. rewrite Hs.
    change (getitem [a] 0) with (Ok a). cbn [bind]. rewrite Ha. reflexivity.
Qed.

End Reading.

Lemma get_coordinates_first_bad_line_witness :
  (forall e, (x <- @field Sample.runtime ""%string 0 ;;
              y <- @field Sample.runtime ""%string 1 ;; Ok (x, y)) = Raise e ->
             @get_coordinates Sample.runtime (["0 0"%string; "3 4"%string] ++ ""%string :: ["5 6"%string])
             = Raise e) /\
  (@str_split Sample.runtime ""%string = [] ->
   @get_coordinates Sample.runtime (["0 0"%string; "3 4"%string] ++ ""%string :: ["5 6"%string])
   = Raise IndexError) /\
  (forall a x, @str_split Sample.runtime ""%string = [a] -> @py_int Sample.runtime a = Ok x ->
               @get_coordinates Sample.runtime (["0 0"%string; "3 4"%string] ++ ""%string :: ["5 6"%string])
               = Raise IndexError).
Proof.
  apply (@get_coordinates_first_bad_line Sample.runtime ["0 0"; "3 4"]%string
           ""%string ["5 6"]%string [(0, 0); (3, 4)]).
  reflexivity.
Defined.

(** ** Points at the same place *)

Section Coincident.

Context {R : Runtime}.

(** X2. Two points with the same coordinates are at distance zero, in either
    order. *)
Theorem get_distances_list_coincident (coordinates : list point)
    (distances_list : list (list float)) (a b : Z) (p : point) :
  pow_zero R ->
  get_distances_list coordinates = Ok distances_list ->
  getitem coordinates a = Ok p -> getitem coordinates b = Ok p ->
  0 <= a -> 0 <= b ->
  entry distances_list a b = Ok fzero /\ entry distances_list b a = Ok fzero.
Proof.
  intros Hzero Hm Ga Gb Ha Hb.
  assert (Hin : forall k q, 0 <= k -> getitem coordinates k = Ok q ->
                            0 <= k < len coordinates).
  { intros k q Hk Hg. apply getitem_ok in Hg; [|assumption].
    assert (Z.to_nat k < List.length coordinates)%nat
      by (apply nth_error_Some; congruence).
    unfold len. lia. }
  pose proof (Hin a p Ha Ga) as Ra. pose proof (Hin b p Hb Gb) as Rb.
  split.
  - destruct (get_distances_list_entry _ _ a b Hm Ra Rb)
      as (pa & pb & d & Ga' & Gb' & Hd & He).
    rewrite Ga in Ga'. rewrite Gb in Gb'. injection Ga' as <-. injection Gb' as <-.
    rewrite i_to_j_diag in Hd by assumption. congruence.
  - destruct (get_distances_list_entry _ _ b a Hm Rb Ra)
      as (pb & pa & d & Gb' & Ga' & Hd & He).
    rewrite Ga in Ga'. rewrite Gb in Gb'. injection Ga' as <-. injection Gb' as <-.
    rewrite i_to_j_diag in Hd by assumption. congruence.
Qed.

End Coincident.

Lemma get_distances_list_coincident_witness :
  entry [[fzero; f5; fzero]; [f5; fzero; f5]; [fzero; f5; fzero]] 0 2 = Ok fzero /\
  entry [[fzero; f5; fzero]; [f5; fzero; f5]; [fzero; f5; fzero]] 2 0 = Ok fzero.
Proof.
  apply (@get_distances_list_coincident Sample.runtime [(0, 0); (3, 4); (0, 0)]
           [[fzero; f5; fzero]; [f5; fzero; f5]; [fzero; f5; fzero]] 0 2 (0, 0)).
  - reflexivity.
  - vm_compute. reflexivity.
  - reflexivity.
  - reflexivity.
  - lia.
  - lia.
Defined.

(** ** The efficiency of malformed tours *)

Lemma getitem_raise {A : Type} (l : list A) (k : Z) (e : exn) :
  getitem l k = Raise e -> e = IndexError.
Proof.
  unfold getitem. destruct (_ && _); [destruct (nth_error _ _)|]; congruence.
Qed.

Lemma efficiency_step_raise (solution : list Z) (distances_list : list (list float))
    (acc : float) (k : Z) (e : exn) :
  efficiency_step solution distances_list acc k = Raise e -> e = IndexError.
Proof.
  unfold efficiency_step. destruct (0 <? k); [|discriminate].
  destruct (getitem solution (k - 1)) as [a|e1] eqn:E1; cbn [bind];
    [|intros H; injection H as <-; eapply getitem_raise; eauto].
  destruct (getitem distances_list a) as [row|e2] eqn:E2; cbn [bind];
    [|intros H; injection H as <-; eapply getitem_raise; eauto].
  destruct (getitem solution k) as [b|e3] eqn:E3; cbn [bind];
    [|intros H; injection H as <-; eapply getitem_raise; eauto].
  destruct (getitem row b) as [d|e4] eqn:E4; cbn [bind];
    [discriminate|intros H; injection H as <-; eapply getitem_raise; eauto].
Qed.

Lemma for_each_raise {A S : Type} (body : S -> A -> res S) (l : list A) (s : S)
    (e : exn) :
  (forall s' a e', body s' a = Raise e' -> e' = IndexError) ->
  for_each body l s = Raise e -> e = IndexError.
Proof.
  intros Hb. revert s. induction l as [|a l IH]; intros s; simpl; [discriminate|].
  destruct (body s a) as [s'|e'] eqn:E; cbn [bind].
  - apply IH.
  - intros H. injection H as <-. eapply Hb; eauto.
Qed.

(** X3. The only exception of [get_efficiency] is [IndexError]; an empty tour
    raises it whatever the matrix and the count. *)
Theorem get_efficiency_index_error (solution : list Z)
    (distances_list : list (list float)) (num_coordinates : Z) :
  (forall e, get_efficiency solution distances_list num_coordinates = Raise e ->
             e = IndexError) /\
  (solution = [] ->
   get_efficiency solution distances_list num_coordinates = Raise IndexError).
Proof.
  split.
  - intros e. unfold get_efficiency.
    destruct (for_each _ _ _) as [acc|e0] eqn:E0; cbn [bind].
    + destruct (getitem solution 0) as [a|e1] eqn:E1; cbn [bind];
        [|intros H; injection H as <-; eapply getitem_raise; eauto].
      destruct (getitem distances_list a) as [row|e2] eqn:E2; cbn [bind];
        [|intros H; injection H as <-; eapply getitem_raise; eauto].
      destruct (getitem solution (num_coordinates - 1)) as [b|e3] eqn:E3; cbn [bind];
        [|intros H; injection H as <-; eapply getitem_raise; eauto].
      destruct (getitem row b) as [d|e4] eqn:E4; cbn [bind];
        [discriminate|intros H; injection H as <-; eapply getitem_raise; eauto].
    + intros H. injection H as <-.
      eapply for_each_raise; [|exact E0]. apply efficiency_step_raise.
  - intros ->. unfold get_efficiency.
    destruct (for_each _ _ _) as [acc|e0] eqn:E0; cbn [bind]; [reflexivity|].
    f_equal. eapply for_each_raise; [|exact E0]. apply efficiency_step_raise.
Qed.

Lemma for_each_ext_in {A S : Type} (body body' : S -> A -> res S) (l : list A) (s : S) :
  (forall s' a, In a l -> body s' a = body' s' a) ->
  for_each body l s = for_each body' l s.
Proof.
  revert s. induction l as [|a l IH]; intros s H; simpl; [reflexivity|].
  rewrite H by (now left). destruct (body' s a); cbn [bind]; [|reflexivity].
  apply IH. intros s' a' Ha'. apply H. now right.
Qed.

Lemma getitem_firstn {A : Type} (l : list A) (k : nat) (j : Z) :
  (k <= List.length l)%nat -> 0 <= j < Z.of_nat k ->
  getitem (firstn k l) j = getitem l j.
Proof.
  intros Hk Hj.
  destruct (getitem_in_range l j) as (x & Gx & Nx); [unfold len; lia|].
  rewrite Gx. apply getitem_ok; [lia|].
  rewrite nth_error_firstn.
  destruct (Nat.ltb_spec (Z.to_nat j) k); [assumption|lia].
Qed.

(** X4. Only the first [num_coordinates] cities of the tour are scored: cities
    beyond them do not change the result. *)
Theorem get_efficiency_prefix (solution : list Z)
    (distances_list : list (list float)) (num_coordinates : Z) :
  1 <= num_coordinates <= len solution ->
  get_efficiency solution distances_list num_coordinates
  = get_efficiency (firstn (Z.to_nat num_coordinates) solution) distances_list
      num_coordinates.
Proof.
  intros Hn. unfold len in Hn. unfold get_efficiency.
  assert (Hg : forall j, 0 <= j < num_coordinates ->
             getitem (firstn (Z.to_nat num_coordinates) solution) j
             = getitem solution j).
  { intros j Hj. apply getitem_firstn; lia. }
  rewrite (for_each_ext_in
             (efficiency_step solution distances_list)
             (efficiency_step (firstn (Z.to_nat num_coordinates) solution)
                distances_list)).
  - rewrite !Hg by lia. reflexivity.
  - intros acc k Hk. apply in_range in Hk. unfold efficiency_step.
    destruct (0 <? k) eqn:E; [|reflexivity]. apply Z.ltb_lt in E.
    rewrite !Hg by lia. reflexivity.
Qed.

Lemma get_efficiency_prefix_witness :
  get_efficiency [1; 0; 2; 7; 7] triangle_matrix 3
  = get_efficiency (firstn (Z.to_nat 3) [1; 0; 2; 7; 7]) triangle_matrix 3.
Proof.
  apply (get_efficiency_prefix [1; 0; 2; 7; 7] triangle_matrix 3).
  vm_compute. split; discriminate.
Defined.

(** ** The greedy construction, for any matrix *)

Lemma greedy_step_shape (dist_matrix : list (list float)) (cur : Z)
    (temp_list solution : list Z) (st : Z * list Z * list Z) :
  greedy_step dist_matrix (cur, temp_list, solution) = Ok st ->
  exists next temp_list',
    st = (next, temp_list', solution ++ [next]) /\
    list_remove next temp_list = Ok temp_list'.
Proof.
  unfold greedy_step. intros H.
  apply bind_ok in H. destruct H as (distances & _ & H).
  apply bind_ok in H. destruct H as (m & _ & H).
  apply bind_ok in H. destruct H as (row & _ & H).
  apply bind_ok in H. destruct H as (next & _ & H).
  apply bind_ok in H. destruct H as (temp_list' & Et & H).
  injection H as <-. eauto.
Qed.

Lemma greedy_loop_shape (dist_matrix : list (list float)) (k : nat) (cur : Z)
    (temp_list solution : list Z) (st : Z * list Z * list Z) :
  greedy_loop dist_matrix k (cur, temp_list, solution) = Ok st ->
  exists added,
    snd st = solution ++ added /\
    Permutation temp_list (added ++ snd (fst st)) /\
    List.length added = k.
Proof.
  revert cur temp_list solution. induction k as [|k IH]; intros cur temp_list solution H.
  - simpl in H. injection H as <-. exists []. simpl. rewrite app_nil_r. auto.
  - simpl in H. apply bind_ok in H. destruct H as (st1 & E1 & H).
    destruct (greedy_step_shape _ _ _ _ _ E1) as (next & temp1 & -> & Er).
    destruct (IH _ _ _ H) as (added & Hs & Hp & Hl).
    exists (next :: added). split; [|split].
    + rewrite Hs, <- app_assoc. reflexivity.
    + rewrite (list_remove_perm _ _ _ Er). simpl. now constructor.
    + simpl. now rewrite Hl.
Qed.

Lemma get_initial_solution_tour_facts (dist_matrix : list (list float))
    (coordinates : list point) (t t' : tape) (solution : list Z) :
  get_initial_solution dist_matrix coordinates t = Ok (solution, t') ->
  Permutation solution (range (len coordinates)) /\
  hd_error solution = Some ((t O) mod (len coordinates + 1)) /\
  (t O) mod (len coordinates + 1) < len coordinates /\
  t' = tape_tail t.
Proof.
  unfold get_initial_solution. intros H.
  apply bind_ok in H. destruct H as ([start t1] & Er & H).
  apply bind_ok in H. destruct H as (temp_list & Et & H).
  apply bind_ok in H. destruct H as ([[cur temp_list'] sol] & El & H).
  injection H as <- <-.
  unfold randint in Er.
  destruct (len coordinates <? 0) eqn:E0; [discriminate|].
  injection Er as Hst Htl.
  assert (Hstart : start = (t O) mod (len coordinates + 1)).
  { rewrite <- Hst, Z.sub_0_r. apply Z.add_0_l. }
  clear Hst. subst start t1.
  destruct (greedy_loop_shape _ _ _ _ _ _ El) as (added & Hs & Hp & Hl).
  cbn [fst snd] in *.
  assert (temp_list' = []) as ->.
  { apply Permutation_length in Hp. rewrite length_app in Hp.
    apply length_zero_iff_nil. lia. }
  rewrite app_nil_r in Hp.
  assert (Hin : In ((t O) mod (len coordinates + 1)) (range (len coordinates))).
  { destruct (list_remove_ok _ _ _ Et) as (l1 & l2 & -> & _ & _).
    apply in_or_app. right. now left. }
  apply in_range in Hin.
  repeat split; try lia.
  - rewrite Hs. simpl. rewrite <- Hp. symmetry. now apply list_remove_perm.
  - rewrite Hs. reflexivity.
Qed.


(** X5. Whenever [get_initial_solution] returns on a matrix without NaN,
    the tour is a permutation of [0..N-1] that starts with the city drawn,
    every later city is an unvisited city at minimum distance from the city
    before it, the one of lowest index among them, and exactly one number
    has been drawn. *)
Theorem get_initial_solution_is_tour (dist_matrix : list (list float))
    (coordinates : list point) (t t' : tape) (solution : list Z) :
  no_nan dist_matrix = true ->
  get_initial_solution dist_matrix coordinates t = Ok (solution, t') ->
  Permutation solution (range (len coordinates)) /\
  hd_error solution = Some ((t O) mod (len coordinates + 1)) /\
  (t O) mod (len coordinates + 1) < len coordinates /\
  t' = tape_tail t /\
  nn_tour dist_matrix (len coordinates) solution.
Proof.
  intros Hnan H.
  destruct (get_initial_solution_tour_facts _ _ _ _ _ H) as (Hp & Hh & Hlt & Ht).
  destruct (get_initial_solution_inv _ _ _ _ _ Hnan H) as (Hnn & _).
  auto.
Qed.

Lemma get_initial_solution_is_tour_witness :
  Permutation [1; 0; 2] (range (len triangle)) /\
  hd_error [1; 0; 2] = Some (1 mod (len triangle + 1)) /\
  1 mod (len triangle + 1) < len triangle /\
  tape_tail (fun _ => 1) = tape_tail (fun _ => 1) /\
  nn_tour triangle_matrix (len triangle) [1; 0; 2].
Proof.
  apply (get_initial_solution_is_tour triangle_matrix triangle (fun _ => 1)
           (tape_tail (fun _ => 1)) [1; 0; 2]).
  - reflexivity.
  - reflexivity.
Defined.

Lemma fle_not_flt_feq (a b : float) :
  fle a b = true -> flt a b = false -> feq a b = true.
Proof.
  rewrite fle_spec, feq_spec. intros [H|H] Hlt; [|assumption].
  apply flt_spec in H. congruence.
Qed.

Section GreedyReturns.

Variable dist_matrix : list (list float).
Variable n : Z.
Hypothesis Hsquare : square dist_matrix n.
Hypothesis Hnan : no_nan dist_matrix = true.
Hypothesis Hdistinct : distinct_rows dist_matrix.

Lemma greedy_step_total (cur : Z) (temp_list solution : list Z) :
  0 <= cur < n -> temp_list <> [] ->
  (forall j, In j temp_list -> 0 <= j < n) ->
  exists st, greedy_step dist_matrix (cur, temp_list, solution) = Ok st.
Proof.
  intros Hcur Hne Hrange. unfold greedy_step.
  destruct Hsquare as (Hlen & Hrows).
  destruct (getitem_in_range dist_matrix cur) as (row & Grow & Nrow); [lia|].
  assert (Hrow : In row dist_matrix) by (eapply nth_error_In; eauto).
  destruct (mapM_total (fun i => entry dist_matrix cur i) temp_list) as (distances & Hd).
  { intros j Hj. apply (entry_total dist_matrix n Hsquare); auto. }
  rewrite Hd. cbn [bind].
  destruct (py_min_total distances) as (m & Hm).
  { intros ->. apply mapM_length in Hd. destruct temp_list; [congruence|discriminate]. }
  rewrite Hm. cbn [bind]. rewrite Grow. cbn [bind].
  destruct (py_min_spec _ _ Hm) as (Hmin & _).
  destruct (mapM_in_inv _ _ _ _ Hd Hmin) as (j & Hj & Ej).
  unfold entry in Ej. rewrite Grow in Ej. cbn [bind] in Ej.
  pose proof (Hrange j Hj) as Rj.
  assert (Nm : is_nan m = false).
  { apply (no_nan_entry dist_matrix row m cur j); try assumption; lia. }
  apply getitem_ok in Ej; [|lia].
  destruct (list_index_total row m) as (k & Hk).
  { exists m. split; [eapply nth_error_In; eauto|now apply feq_refl]. }
  rewrite Hk. cbn [bind].
  destruct (list_index_spec _ _ _ Hk) as (Hk0 & (x & Nx & Ex) & _).
  assert (Z.to_nat k = Z.to_nat j) by (eapply Hdistinct; eauto).
  assert (k = j) by lia. subst k.
  destruct (list_remove_in j temp_list Hj) as (r & ->). cbn [bind]. eauto.
Qed.

Lemma greedy_loop_total (k : nat) (cur : Z) (temp_list solution : list Z) :
  0 <= cur < n -> (k <= List.length temp_list)%nat ->
  (forall j, In j temp_list -> 0 <= j < n) ->
  exists st, greedy_loop dist_matrix k (cur, temp_list, solution) = Ok st.
Proof.
  revert cur temp_list solution.
  induction k as [|k IH]; intros cur temp_list solution Hcur Hk Hrange;
    cbn [greedy_loop]; [eauto|].
  destruct (greedy_step_total cur temp_list solution Hcur) as (st & Hst); auto.
  { intros ->. simpl in Hk. lia. }
  rewrite Hst. cbn [bind].
  destruct (greedy_step_shape _ _ _ _ _ Hst) as (next & temp' & -> & Er).
  pose proof (list_remove_perm _ _ _ Er) as Hp.
  apply IH.
  - apply Hrange. apply (Permutation_in _ (Permutation_sym Hp)). now left.
  - apply Permutation_length in Hp. simpl in Hp. lia.
  - intros j Hj. apply Hrange.
    apply (Permutation_in _ (Permutation_sym Hp)). now right.
Qed.

End GreedyReturns.

(** X6. When the matrix has N rows of N entries, none a NaN and no two equal in
    a row, [get_initial_solution] returns a tour for every start city the
    draw can give except N. *)
Theorem get_initial_solution_returns (dist_matrix : list (list float))
    (coordinates : list point) (t : tape) :
  square dist_matrix (len coordinates) ->
  no_nan dist_matrix = true ->
  distinct_rows dist_matrix ->
  (t O) mod (len coordinates + 1) < len coordinates ->
  exists solution,
    get_initial_solution dist_matrix coordinates t = Ok (solution, tape_tail t).
Proof.
  intros Hsq Hnan Hdist Hstart. unfold get_initial_solution, randint.
  pose proof (len_nonneg coordinates) as Hn.
  destruct (len coordinates <? 0) eqn:E0; [apply Z.ltb_lt in E0; lia|].
  cbn [bind]. rewrite Z.sub_0_r.
  change (0 + (t O) mod (len coordinates + 1)) with ((t O) mod (len coordinates + 1)).
  set (start := (t O) mod (len coordinates + 1)) in *.
  assert (Hs : 0 <= start < len coordinates).
  { pose proof (Z.mod_pos_bound (t O) (len coordinates + 1)). subst start. lia. }
  destruct (list_remove_in start (range (len coordinates))) as (temp_list & Et).
  { now apply in_range. }
  rewrite Et. cbn [bind].
  destruct (greedy_loop_total dist_matrix (len coordinates) Hsq Hnan Hdist
              (List.length temp_list) start temp_list [start]) as (st & ->); auto.
  - intros j Hj. apply in_range.
    apply (Permutation_in _ (Permutation_sym (list_remove_perm _ _ _ Et))). now right.
  - cbn [bind]. eauto.
Qed.

Lemma triangle_distinct_rows : distinct_rows triangle_matrix.
Proof.
  intros row a b da db Hrow Ha Hb Heq. simpl in Hrow.
  destruct Hrow as [<-|[<-|[<-|[]]]];
    destruct a as [|[|[|a]]]; try (destruct a; discriminate);
    destruct b as [|[|[|b]]]; try (destruct b; discriminate);
    simpl in Ha, Hb; injection Ha as <-; injection Hb as <-;
    try reflexivity; discriminate.
Qed.

Lemma get_initial_solution_returns_witness :
  exists solution,
    get_initial_solution triangle_matrix triangle (fun _ => 2)
    = Ok (solution, tape_tail (fun _ => 2)).
Proof.
  apply (get_initial_solution_returns triangle_matrix triangle (fun _ => 2)).
  - exact triangle_square.
  - reflexivity.
  - exact triangle_distinct_rows.
  - reflexivity.
Defined.

(** X7. Two cities at the same place make the construction raise: when the start
    city has a city of higher index at distance zero and none of lower
    index, the first step selects the start city itself and
    [temp_list.remove] raises [ValueError]. *)
Theorem get_initial_solution_duplicate_city (dist_matrix : list (list float))
    (coordinates : list point) (t : tape) (row : list float) :
  (t O) mod (len coordinates + 1) < len coordinates ->
  getitem dist_matrix ((t O) mod (len coordinates + 1)) = Ok row ->
  len row = len coordinates ->
  (forall d, In d row -> fle fzero d = true) ->
  (exists d, getitem row ((t O) mod (len coordinates + 1)) = Ok d /\
             feq d fzero = true) ->
  (exists j d, (t O) mod (len coordinates + 1) < j < len coordinates /\
               getitem row j = Ok d /\ feq d fzero = true) ->
  (forall k d, 0 <= k < (t O) mod (len coordinates + 1) ->
               getitem row k = Ok d -> feq d fzero = false) ->
  get_initial_solution dist_matrix coordinates t = Raise ValueError.
Proof.
  set (start := (t O) mod (len coordinates + 1)).
  intros Hstart Grow Hlen Hpos (d0 & Gd0 & Ed0) (j & dj & Hj & Gdj & Edj) Hlow.
  pose proof (len_nonneg coordinates) as Hn.
  assert (Hs : 0 <= start < len coordinates).
  { pose proof (Z.mod_pos_bound (t O) (len coordinates + 1)). subst start. lia. }
  unfold get_initial_solution, randint.
  destruct (len coordinates <? 0) eqn:E0; [apply Z.ltb_lt in E0; lia|].
  cbn [bind]. rewrite Z.sub_0_r.
  change (0 + (t O) mod (len coordinates + 1)) with start.
  destruct (list_remove_in start (range (len coordinates))) as (temp_list & Et).
  { now apply in_range. }
  rewrite Et. cbn [bind].
  destruct (list_remove_ok _ _ _ Et) as (l1 & l2 & Hr & Ht & _).
  assert (Hnot : ~ In start temp_list).
  { rewrite Ht. apply NoDup_remove_2. rewrite <- Hr. apply range_NoDup. }
  assert (Hin : forall x, In x temp_list <-> (0 <= x < len coordinates /\ x <> start)).
  { intros x. rewrite <- in_range, Hr, Ht, !in_app_iff. simpl. split.
    - intros Hx. split; [tauto|]. intros ->. apply Hnot. rewrite Ht.
      apply in_or_app. tauto.
    - intros ([Hx|[Hx|Hx]] & Hne); auto. congruence. }
  assert (Hjt : In j temp_list) by (apply Hin; lia).
  destruct temp_list as [|x0 temp_rest] eqn:Etl; [contradiction|].
  rewrite <- Etl in *. replace (List.length temp_list) with (S (List.length temp_rest))
    by (rewrite Etl; reflexivity).
  cbn [greedy_loop]. unfold greedy_step.
  destruct (mapM_total (fun i => entry dist_matrix start i) temp_list) as (distances & Hd).
  { intros x Hx. apply Hin in Hx. unfold entry. rewrite Grow. cbn [bind].
    destruct (getitem_in_range row x) as (dx & Gx & _); [lia|]. eauto. }
  rewrite Hd. cbn [bind].
  destruct (py_min_total distances) as (m & Hm).
  { intros ->. apply mapM_length in Hd. rewrite Etl in Hd. discriminate. }
  rewrite Hm. cbn [bind]. rewrite Grow. cbn [bind].
  destruct (py_min_spec _ _ Hm) as (Hmin_in & Hmin).
  (* the minimum is zero *)
  assert (Em : feq fzero m = true).
  { destruct (mapM_in_inv _ _ _ _ Hd Hmin_in) as (x & Hx & Ex).
    apply Hin in Hx. unfold entry in Ex. rewrite Grow in Ex. cbn [bind] in Ex.
    apply getitem_ok in Ex; [|lia]. apply nth_error_In in Ex.
    apply fle_not_flt_feq; [now apply Hpos|].
    destruct (flt fzero m) eqn:Elt; [|reflexivity].
    destruct (mapM_in _ _ _ j Hd Hjt) as (dj' & Hdj' & Edj').
    unfold entry in Edj'. rewrite Grow in Edj'. cbn [bind] in Edj'.
    rewrite Gdj in Edj'. injection Edj' as <-.
    rewrite <- (Hmin dj Hdj'). symmetry. eapply feq_flt_l; eauto. }
  (* its first position in the row is the start city *)
  destruct (list_index_total row m) as (k & Hk).
  { exists d0. split.
    - apply getitem_ok in Gd0; [|lia]. eapply nth_error_In; eauto.
    - eapply feq_trans; eauto. }
  rewrite Hk. cbn [bind].
  destruct (list_index_spec _ _ _ Hk) as (Hk0 & (x & Nx & Ex) & Hfirst).
  assert (k = start).
  { destruct (Z.lt_trichotomy k start) as [Hlt|[Heq|Hgt]]; [|assumption|].
    - assert (feq x fzero = true) by (eapply feq_trans; [eassumption|now apply feq_sym]).
      rewrite (Hlow k x) in H; [discriminate|lia|]. apply getitem_ok; [lia|assumption].
    - apply getitem_ok in Gd0; [|lia].
      assert (feq d0 m = true) by (eapply feq_trans; eauto).
      rewrite (Hfirst start d0) in H; [discriminate|lia|assumption]. }
  subst k. rewrite (list_remove_not_in start temp_list Hnot). reflexivity.
Qed.

Lemma get_initial_solution_duplicate_city_witness :
  get_initial_solution [[fzero; f5; fzero]; [f5; fzero; f5]; [fzero; f5; fzero]]
    [(0, 0); (3, 4); (0, 0)] (fun _ => 0) = Raise ValueError.
Proof.
  apply (get_initial_solution_duplicate_city
           [[fzero; f5; fzero]; [f5; fzero; f5]; [fzero; f5; fzero]]
           [(0, 0); (3, 4); (0, 0)] (fun _ => 0) [fzero; f5; fzero]).
  - reflexivity.
  - reflexivity.
  - reflexivity.
  - intros d Hd. simpl in Hd. destruct Hd as [<-|[<-|[<-|[]]]]; reflexivity.
  - exists fzero. split; reflexivity.
  - exists 2, fzero. vm_compute. repeat split; discriminate.
  - intros k d Hk. exfalso. revert Hk. change (0 <= k < 0 -> False). lia.
Defined.

(** ** The perturbation is its own inverse *)

Lemma slice_bound_le (n k : Z) : 0 <= n -> Z.of_nat (slice_bound n k) <= n.
Proof.
  intros Hn. unfold slice_bound. destruct (k <? 0) eqn:E; lia.
Qed.

Lemma setslice_rev_len {A : Type} (l : list A) (lo hi : Z) :
  len (setslice l lo hi (rev (getslice l lo hi))) = len l.
Proof. symmetry. apply Permutation_len, setslice_rev_perm. Qed.

Lemma setslice_rev_involutive {A : Type} (l : list A) (lo hi : Z) :
  let l' := setslice l lo hi (rev (getslice l lo hi)) in
  setslice l' lo hi (rev (getslice l' lo hi)) = l.
Proof.
  intros l'. unfold setslice at 1. unfold getslice at 1.
  replace (len l') with (len l) by (symmetry; apply setslice_rev_len).
  subst l'. unfold setslice, getslice.
  pose proof (slice_bound_le (len l) lo (len_nonneg l)) as Ha.
  pose proof (slice_bound_le (len l) hi (len_nonneg l)) as Hb.
  set (a := slice_bound (len l) lo) in *. set (b := slice_bound (len l) hi) in *.
  unfold len in Ha, Hb.
  set (mid := firstn (b - a) (skipn a l)).
  assert (Hla : List.length (firstn a l) = a) by (rewrite length_firstn; lia).
  assert (Hlm : List.length (rev mid) = (b - a)%nat).
  { rewrite length_rev. subst mid. rewrite length_firstn, length_skipn. lia. }
  assert (E1 : firstn a (firstn a l ++ rev mid ++ skipn (Nat.max a b) l) = firstn a l).
  { rewrite firstn_app, Hla, Nat.sub_diag, firstn_O, app_nil_r.
    rewrite <- Hla at 1. apply firstn_all. }
  assert (E2 : skipn a (firstn a l ++ rev mid ++ skipn (Nat.max a b) l)
               = rev mid ++ skipn (Nat.max a b) l).
  { rewrite skipn_app, Hla, Nat.sub_diag. cbn [skipn].
    rewrite <- Hla at 1. rewrite skipn_all. reflexivity. }
  assert (E3 : skipn (Nat.max a b) (firstn a l ++ rev mid ++ skipn (Nat.max a b) l)
               = skipn (Nat.max a b) l).
  { replace (Nat.max a b) with ((b - a) + a)%nat at 1 by lia.
    rewrite <- skipn_skipn, E2, skipn_app, Hlm, Nat.sub_diag. cbn [skipn].
    rewrite <- Hlm at 1. rewrite skipn_all. reflexivity. }
  rewrite E1, E2, E3.
  rewrite firstn_app, Hlm, Nat.sub_diag, firstn_O, app_nil_r.
  rewrite <- Hlm at 1. rewrite firstn_all, rev_involutive.
  transitivity (firstn a l ++ skipn a l); [|apply firstn_skipn]. f_equal.
  replace (skipn (Nat.max a b) l) with (skipn (b - a) (skipn a l))
    by (rewrite skipn_skipn; f_equal; lia).
  apply firstn_skipn.
Qed.

(** X8. The same two draws applied to the candidate give back the tour: a
    segment reversal is undone by reversing the same segment again. *)
Theorem perturb_twice (n : Z) (current : list Z) (L S : Z) (t : tape) :
  2 <= L <= n - 1 -> 0 <= S <= n - L ->
  exists candidate,
    perturb n current (tape_cons (L - 2) (tape_cons S t)) = Ok (candidate, t) /\
    perturb n candidate (tape_cons (L - 2) (tape_cons S t)) = Ok (current, t).
Proof.
  intros HL HS. eexists. split; [now apply perturb_onto|].
  rewrite perturb_onto by assumption. f_equal. f_equal.
  apply setslice_rev_involutive.
Qed.

Lemma perturb_twice_witness :
  exists candidate,
    perturb 5 [0; 1; 2; 3; 4] (tape_cons (3 - 2) (tape_cons 1 (fun _ => 0)))
    = Ok (candidate, fun _ => 0) /\
    perturb 5 candidate (tape_cons (3 - 2) (tape_cons 1 (fun _ => 0)))
    = Ok ([0; 1; 2; 3; 4], fun _ => 0).
Proof.
  apply (perturb_twice 5 [0; 1; 2; 3; 4] 3 1 (fun _ => 0)); lia.
Defined.

(** ** What the annealing keeps *)

Section AnnealingKeeps.

Context {R : Runtime}.

Variable distances_list : list (list float).
Variable n : Z.

Lemma sa_reaches_inv (Inv : sa_state -> Prop) (s0 s : sa_state * tape) :
  (forall st t st' t', Inv st -> sa_cond st = true ->
     sa_body distances_list n st t = Ok (st', t') -> Inv st') ->
  sa_reaches distances_list n s0 s -> Inv (fst s0) -> Inv (fst s).
Proof.
  intros Hstep Hr H0. induction Hr as [s|s [st1 t1] [st2 t2] Hr IH Hc Hb]; [assumption|].
  cbn [fst snd] in *.
  apply (Hstep st1 t1 st2 t2); [apply IH; assumption|assumption|assumption].
Qed.

(** One iteration: what the new tours and efficiencies can be. *)
Lemma sa_body_cases (st : sa_state) (t : tape) (st' : sa_state) (t' : tape) :
  sa_body distances_list n st t = Ok (st', t') ->
  exists candidate ce,
    Permutation (current_solution st) candidate /\
    get_efficiency candidate distances_list n = Ok ce /\
    efficiency_list st' = efficiency_list st ++ [current_efficiency st'] /\
    ((current_solution st' = candidate /\ current_efficiency st' = ce) \/
     (current_solution st' = current_solution st /\
      current_efficiency st' = current_efficiency st)) /\
    ((best_solution st' = candidate /\ best_efficiency st' = ce /\
      current_efficiency st' = ce /\ flt ce (best_efficiency st) = true) \/
     (best_solution st' = best_solution st /\
      best_efficiency st' = best_efficiency st)).
Proof.
  intros H.
  destruct (sa_body_ok _ _ _ _ _ _ H)
    as (c & ce & t1 & sa & Hp & Hce & Ha & _ & Hc & Hcs & Hb & Hbs & Hl & _).
  destruct (accept_ok _ _ _ _ _ _ Ha) as (_ & Hla & _ & Hcase).
  exists c, ce. split; [eapply perturb_perm; eauto|]. split; [assumption|].
  rewrite Hl, Hla, Hc, Hcs, Hb, Hbs. split; [reflexivity|].
  destruct Hcase as [(_ & -> & -> & [(Hlt & -> & ->)|(_ & -> & ->)])
                    |[(_ & _ & -> & -> & -> & ->)|(_ & ->)]]; auto 7.
Qed.

End AnnealingKeeps.

Section AnnealingTours.

Context {R : Runtime}.

Variable coordinates : list point.
Variable distances_list : list (list float).
Variable solution : list Z.
Variable start : float.
Variable t : tape.

(** X9. The current and the best tour are rearrangements of the starting tour
    after every iteration, and so is the tour returned: the annealing never
    loses, adds or repeats a city. *)
Theorem annealing_keeps_cities :
  (forall st0 s,
     sa_init coordinates solution start = Ok st0 ->
     sa_reaches distances_list (len coordinates) (st0, t) s ->
     Permutation solution (current_solution (fst s)) /\
     Permutation solution (best_solution (fst s))) /\
  (forall best trace beff t',
     do_simulated_annealing coordinates distances_list solution start t
     = Some (Ok (best, trace, beff, t')) ->
     Permutation solution best).
Proof.
  assert (Hreach : forall st0 s,
            sa_init coordinates solution start = Ok st0 ->
            sa_reaches distances_list (len coordinates) (st0, t) s ->
            Permutation solution (current_solution (fst s)) /\
            Permutation solution (best_solution (fst s))).
  { intros st0 s H0 Hr.
    apply (sa_reaches_inv distances_list (len coordinates)
             (fun st => Permutation solution (current_solution st) /\
                        Permutation solution (best_solution st)) (st0, t) s);
      [|assumption|].
    - intros st t1 st' t2 (Hc & Hb) _ Hbody.
      destruct (sa_body_cases _ _ _ _ _ _ Hbody)
        as (c & ce & Hp & _ & _ & Hcur & Hbest).
      assert (Hpc : Permutation solution c) by (now rewrite Hc).
      split.
      + destruct Hcur as [(-> & _)|(-> & _)]; assumption.
      + destruct Hbest as [(-> & _)|(-> & _)]; assumption.
    - cbn [fst]. destruct (sa_init_ok _ _ _ st0 H0) as (_ & _ & -> & -> & _).
      split; reflexivity. }
  split; [assumption|].
  intros best trace beff t' H.
  destruct (do_simulated_annealing_ok _ _ _ _ _ _ _ _ _ H)
    as (st0 & st & H0 & _ & Hr & _ & -> & _).
  now destruct (Hreach st0 (st, t') H0 Hr).
Qed.

(** X10. With a starting efficiency that is a number, the best efficiency is the
    minimum of the trace after every iteration and at return: it is one of
    the recorded efficiencies and is at most each of them. *)
Theorem best_efficiency_is_trace_minimum :
  exp_nan R -> is_nan start = false ->
  (forall st0 s,
     sa_init coordinates solution start = Ok st0 ->
     sa_reaches distances_list (len coordinates) (st0, t) s ->
     In (best_efficiency (fst s)) (efficiency_list (fst s)) /\
     forall x, In x (efficiency_list (fst s)) ->
               fle (best_efficiency (fst s)) x = true) /\
  (forall best trace beff t',
     do_simulated_annealing coordinates distances_list solution start t
     = Some (Ok (best, trace, beff, t')) ->
     In beff trace /\ forall x, In x trace -> fle beff x = true).
Proof.
  intros Hexp Hstart.
  assert (Hreach : forall st0 s,
            sa_init coordinates solution start = Ok st0 ->
            sa_reaches distances_list (len coordinates) (st0, t) s ->
            In (best_efficiency (fst s)) (efficiency_list (fst s)) /\
            forall x, In x (efficiency_list (fst s)) ->
                      fle (best_efficiency (fst s)) x = true).
  { intros st0 s H0 Hr.
    destruct (sa_init_ok _ _ _ st0 H0) as (Hc0 & Hb0 & _ & _ & Hl0 & _).
    assert (Hinit : best_inv start st0).
    { unfold best_inv. rewrite Hc0, Hb0. split; apply fle_refl; assumption. }
    assert (Hgoal :
      best_inv start (fst s) /\
      In (best_efficiency (fst s)) (efficiency_list (fst s)) /\
      forall x, In x (efficiency_list (fst s)) ->
                fle (best_efficiency (fst s)) x = true).
    { apply (sa_reaches_inv distances_list (len coordinates)
               (fun st => best_inv start st /\
                          In (best_efficiency st) (efficiency_list st) /\
                          forall x, In x (efficiency_list st) ->
                                    fle (best_efficiency st) x = true) (st0, t) s);
        [|assumption|].
      - intros st t1 st' t2 (Hinv & Hin & Hmin) _ Hbody.
        destruct (sa_body_best_inv distances_list (len coordinates) start Hexp
                    _ _ _ _ Hinv Hbody) as (Hinv' & Hle).
        split; [assumption|].
        destruct (sa_body_cases _ _ _ _ _ _ Hbody)
          as (c & ce & _ & _ & Hl & _ & Hbest).
        rewrite Hl. split.
        + apply in_or_app.
          destruct Hbest as [(_ & -> & -> & _)|(_ & ->)]; [right; now left|now left].
        + intros x Hx. apply in_app_or in Hx. destruct Hx as [Hx|[<-|[]]].
          * eapply fle_trans; [exact Hle|]. now apply Hmin.
          * now destruct Hinv'.
      - cbn [fst]. split; [assumption|]. rewrite Hb0, Hl0. split; [now left|].
        intros x [<-|[]]. now apply fle_refl. }
    tauto. }
  split; [assumption|].
  intros best trace beff t' H.
  destruct (do_simulated_annealing_ok _ _ _ _ _ _ _ _ _ H)
    as (st0 & st & H0 & _ & Hr & _ & _ & -> & ->).
  apply (Hreach st0 (st, t') H0 Hr).
Qed.

End AnnealingTours.

Lemma best_efficiency_is_trace_minimum_witness :
  (forall st0 s,
     sa_init triangle [1; 0; 2] f12 = Ok st0 ->
     @sa_reaches Sample.runtime triangle_matrix (len triangle) (st0, fun _ => 0) s ->
     In (best_efficiency (fst s)) (efficiency_list (fst s)) /\
     forall x, In x (efficiency_list (fst s)) ->
               fle (best_efficiency (fst s)) x = true) /\
  (forall best trace beff t',
     @do_simulated_annealing Sample.runtime triangle triangle_matrix [1; 0; 2] f12
       (fun _ => 0) = Some (Ok (best, trace, beff, t')) ->
     In beff trace /\ forall x, In x trace -> fle beff x = true).
Proof.
  apply (@best_efficiency_is_trace_minimum Sample.runtime triangle triangle_matrix
           [1; 0; 2] f12 (fun _ => 0)); reflexivity.
Defined.

(** ** Fewer than three cities *)

Section FewPoints.

Context {R : Runtime}.

Lemma sa_run_no_points (coordinates : list point) (distances_list : list (list float))
    (solution : list Z) (start : float) (t : tape) :
  len coordinates = 0 ->
  do_simulated_annealing coordinates distances_list solution start t
  = Some (Ok (solution, [start], start, t)).
Proof.
  intros Hn. unfold do_simulated_annealing, sa_run, sa_init. rewrite Hn.
  change (float_of_int 0) with (Ok fzero). cbn [bind].
  change (math_sqrt fzero) with (Ok fzero). cbn [bind].
  destruct (Z.to_nat 100000); reflexivity.
Qed.

Lemma sa_run_one_point (coordinates : list point) (distances_list : list (list float))
    (solution : list Z) (start : float) (t : tape) :
  len coordinates = 1 ->
  do_simulated_annealing coordinates distances_list solution start t
  = Some (Raise ValueError).
Proof.
  intros Hn. unfold do_simulated_annealing, sa_run, sa_init. rewrite Hn.
  change (float_of_int 1) with (Ok Sample.fone). cbn [bind].
  change (math_sqrt Sample.fone) with (Ok Sample.fone). cbn [bind].
  change (Z.to_nat 100000) with (S (Z.to_nat 99999)).
  cbn [sa_loop]. unfold sa_cond at 1. cbn [temperature i].
  change (flt fzero Sample.fone && (0 <? 100000)) with true.
  cbv iota. unfold sa_body, perturb. rewrite randint_empty by lia. reflexivity.
Qed.

(** X11. With fewer than three points the annealing does nothing useful: with no
    point it returns the starting tour and efficiency at once, without a
    draw; with one or two points it raises [ValueError] in its first
    iteration, whatever the tape, the matrix and the tour. *)
Theorem do_simulated_annealing_few_points (coordinates : list point)
    (distances_list : list (list float)) (solution : list Z) (start : float)
    (t : tape) :
  len coordinates <= 2 ->
  do_simulated_annealing coordinates distances_list solution start t
  = if len coordinates =? 0 then Some (Ok (solution, [start], start, t))
    else Some (Raise ValueError).
Proof.
  intros Hn. pose proof (len_nonneg coordinates) as H0.
  destruct (len coordinates =? 0) eqn:E.
  - apply Z.eqb_eq in E. now apply sa_run_no_points.
  - apply Z.eqb_neq in E.
    destruct (Z.eq_dec (len coordinates) 1) as [H1|H1].
    + now apply sa_run_one_point.
    + apply do_simulated_annealing_two_points. lia.
Qed.

Lemma prepare_ok (coordinates_file : list string) (t : tape)
    (coordinates : list point) (distances_list : list (list float))
    (solution : list Z) (start : float) (t1 : tape) :
  prepare coordinates_file t = Ok (coordinates, distances_list, solution, start, t1) ->
  get_coordinates coordinates_file = Ok coordinates /\
  get_distances_list coordinates = Ok distances_list /\
  get_initial_solution distances_list coordinates t = Ok (solution, t1) /\
  get_efficiency solution distances_list (len coordinates) = Ok start.
Proof.
  unfold prepare. intros H.
  apply bind_ok in H. destruct H as (c & Ec & H).
  apply bind_ok in H. destruct H as (m & Em & H).
  apply bind_ok in H. destruct H as ([sol t2] & Es & H).
  apply bind_ok in H. destruct H as (e & Ee & H).
  cbn [fst snd] in *. injection H as <- <- <- <- <-. auto.
Qed.

(** X12. A file of fewer than three lines never gives a result: [my_main] raises
    for every runtime and every tape. *)
Theorem my_main_needs_three_lines (coordinates_file : list string) (t : tape) :
  (List.length coordinates_file <= 2)%nat ->
  exists e, my_main coordinates_file t = Some (Raise e).
Proof.
  intros Hn. unfold my_main.
  destruct (prepare coordinates_file t) as [[[[[c m] sol] start] t1]|e] eqn:Ep; [|eauto].
  destruct (prepare_ok _ _ _ _ _ _ _ Ep) as (Hc & _ & Hs & _).
  assert (Hlen : len c <= 2).
  { unfold get_coordinates in Hc. apply mapM_length in Hc. unfold len. lia. }
  destruct (get_initial_solution_tour_facts _ _ _ _ _ Hs) as (_ & _ & Hlt & _).
  pose proof (Z.mod_pos_bound (t O) (len c + 1)) as Hm.
  pose proof (len_nonneg c) as H0.
  destruct (Z.eq_dec (len c) 1) as [H1|H1].
  - rewrite (sa_run_one_point c m sol start t1 H1). eauto.
  - rewrite (do_simulated_annealing_two_points c m sol start t1) by lia. eauto.
Qed.

End FewPoints.

Lemma do_simulated_annealing_few_points_witness :
  @do_simulated_annealing Sample.runtime [(0, 0); (3, 4)] [[fzero; f5]; [f5; fzero]]
    [0; 1] (fmul ftwo f5) (fun _ => 0)
  = if len [(0, 0); (3, 4)] =? 0
    then Some (Ok ([0; 1], [fmul ftwo f5], fmul ftwo f5, fun _ => 0))
    else Some (Raise ValueError).
Proof.
  apply (@do_simulated_annealing_few_points Sample.runtime [(0, 0); (3, 4)]
           [[fzero; f5]; [f5; fzero]] [0; 1] (fmul ftwo f5) (fun _ => 0)).
  vm_compute. discriminate.
Defined.

Lemma my_main_needs_three_lines_witness :
  exists e, @my_main Sample.runtime ["0 0"; "3 4"]%string (fun _ => 0) = Some (Raise e).
Proof.
  apply (@my_main_needs_three_lines Sample.runtime ["0 0"; "3 4"]%string (fun _ => 0)).
  simpl. lia.
Defined.

(** ** The whole run *)

Section WholeRun.

Context {R : Runtime}.

Lemma sa_reaches_result (coordinates : list point) (distances_list : list (list float))
    (solution : list Z) (start : float) (t : tape) (st0 : sa_state)
    (s : sa_state * tape) :
  sa_init coordinates solution start = Ok st0 ->
  get_efficiency solution distances_list (len coordinates) = Ok start ->
  sa_reaches distances_list (len coordinates) (st0, t) s ->
  Permutation solution (current_solution (fst s)) /\
  Permutation solution (best_solution (fst s)) /\
  get_efficiency (best_solution (fst s)) distances_list (len coordinates)
  = Ok (best_efficiency (fst s)) /\
  In (best_efficiency (fst s)) (efficiency_list (fst s)).
Proof.
  intros H0 He Hr.
  apply (sa_reaches_inv distances_list (len coordinates)
           (fun st => Permutation solution (current_solution st) /\
                      Permutation solution (best_solution st) /\
                      get_efficiency (best_solution st) distances_list (len coordinates)
                      = Ok (best_efficiency st) /\
                      In (best_efficiency st) (efficiency_list st)) (st0, t) s);
    [|assumption|].
  - intros st t1 st' t2 (Hc & Hb & Hg & Hin) _ Hbody.
    destruct (sa_body_cases _ _ _ _ _ _ Hbody)
      as (c & ce & Hp & Hce & Hl & Hcur & Hbest).
    assert (Hpc : Permutation solution c) by (now rewrite Hc).
    rewrite Hl. split; [|split; [|split]].
    + destruct Hcur as [(-> & _)|(-> & _)]; assumption.
    + destruct Hbest as [(-> & _)|(-> & _)]; assumption.
    + destruct Hbest as [(-> & -> & _)|(-> & ->)]; assumption.
    + apply in_or_app.
      destruct Hbest as [(_ & -> & -> & _)|(_ & ->)]; [right; now left|now left].
  - cbn [fst]. destruct (sa_init_ok _ _ _ st0 H0) as (_ & -> & -> & -> & -> & _).
    repeat split; try reflexivity; [assumption|now left].
Qed.

Lemma prepared_run (coordinates_file : list string) (t t1 : tape)
    (coordinates : list point) (distances_list : list (list float))
    (solution : list Z) (start : float) :
  exp_returns R ->
  prepare coordinates_file t = Ok (coordinates, distances_list, solution, start, t1) ->
  3 <= len coordinates ->
  (exists st0, sa_init coordinates solution start = Ok st0) ->
  exists best trace beff t2,
    do_simulated_annealing coordinates distances_list solution start t1
    = Some (Ok (best, trace, beff, t2)) /\
    Permutation best (range (len coordinates)) /\
    get_efficiency best distances_list (len coordinates) = Ok beff /\
    In beff trace /\
    hd_error trace = Some start /\
    len trace <= 100001.
Proof.
  intros Hexp Hp Hn (st0 & H0).
  destruct (prepare_ok _ _ _ _ _ _ _ Hp) as (Hc & Hm & Hs & He).
  destruct (get_initial_solution_tour_facts _ _ _ _ _ Hs) as (Hperm & _).
  destruct (permutation_cities solution (len coordinates)) as (Hlen & Hcities);
    [lia|assumption|].
  pose proof (get_distances_list_shape _ _ Hm) as Hsq.
  destruct (do_simulated_annealing_returns coordinates distances_list solution start
              t1 st0 Hexp Hn Hsq Hlen Hcities H0) as ([[[best trace] beff] t2] & Hrun).
  exists best, trace, beff, t2.
  split; [assumption|].
  destruct (do_simulated_annealing_ok _ _ _ _ _ _ _ _ _ Hrun)
    as (st0' & st & H0' & _ & Hr & _ & -> & -> & ->).
  destruct (sa_reaches_result _ _ _ _ _ _ _ H0' He Hr) as (_ & Hpb & Hg & Hin).
  assert (Hinv : trace_inv start st0').
  { destruct (sa_init_ok _ _ _ st0' H0') as (_ & _ & _ & _ & Hl & Hi).
    unfold trace_inv. rewrite Hl, Hi. repeat split; lia. }
  destruct (sa_reaches_trace_inv _ _ start _ _ Hr Hinv) as (Hi & Hl & Hh).
  cbn [fst] in *. repeat split; try assumption; try lia.
  now rewrite <- Hpb.
Qed.

(** X13. Once the points are read, the matrix built and the starting tour
    constructed, the annealing on three or more cities returns: a best tour
    that is a permutation of [0..N-1], its efficiency (the efficiency the
    function [get_efficiency] gives it, one of the recorded values), and a
    trace of at most 100001 values that starts with the starting
    efficiency. *)
Theorem my_main_returns (coordinates_file : list string) (t t1 : tape)
    (coordinates : list point) (distances_list : list (list float))
    (solution : list Z) (start : float) :
  exp_returns R ->
  prepare coordinates_file t = Ok (coordinates, distances_list, solution, start, t1) ->
  3 <= len coordinates ->
  (exists st0, sa_init coordinates solution start = Ok st0) ->
  exists best trace beff t2,
    my_main coordinates_file t = Some (Ok (best, trace, beff, t2)) /\
    Permutation best (range (len coordinates)) /\
    get_efficiency best distances_list (len coordinates) = Ok beff /\
    In beff trace /\
    hd_error trace = Some start /\
    len trace <= 100001.
Proof.
  intros Hexp Hp Hn H0.
  destruct (prepared_run _ _ _ _ _ _ _ Hexp Hp Hn H0)
    as (best & trace & beff & t2 & Hrun & H).
  exists best, trace, beff, t2. split; [|exact H].
  unfold my_main. rewrite Hp. exact Hrun.
Qed.

End WholeRun.

Lemma my_main_returns_witness :
  exists best trace beff t2,
    @my_main Sample.runtime ["0 0"; "0 3"; "4 0"]%string (fun _ => 1)
    = Some (Ok (best, trace, beff, t2)) /\
    Permutation best (range (len triangle)) /\
    get_efficiency best triangle_matrix (len triangle) = Ok beff /\
    In beff trace /\
    hd_error trace = Some f12 /\
    len trace <= 100001.
Proof.
  apply (@my_main_returns Sample.runtime ["0 0"; "0 3"; "4 0"]%string (fun _ => 1)
           (fun _ => 1) triangle triangle_matrix [1; 0; 2] f12).
  - exact sample_exp_returns.
  - vm_compute. reflexivity.
  - vm_compute. discriminate.
  - eexists. vm_compute. reflexivity.
Defined.

(** ** The acceptance probability *)

Lemma binary_round_aux_abs (s : bool) (m e : Z) (l : location) :
  fabs (binary_round_aux prec emax s m e l)
  = fabs (binary_round_aux prec emax false m e l).
Proof.
  unfold binary_round_aux.
  destruct (shr_fexp prec emax m e l) as [mrs' e'].
  destruct (shr_fexp prec emax _ e' loc_Exact) as [mrs'' e''].
  destruct (shr_m mrs''); try reflexivity.
  destruct (e'' <=? emax - prec); reflexivity.
Qed.

Lemma binary_normalize_abs_opp (z e : Z) :
  fabs (binary_normalize prec emax (- z) e false)
  = fabs (binary_normalize prec emax z e false).
Proof.
  destruct z as [|p|p]; [reflexivity| |]; simpl Z.opp; unfold binary_normalize,
    binary_round; destruct (shl_align p e _) as [mz ez];
    rewrite (binary_round_aux_abs true); reflexivity.
Qed.

Lemma fabs_fsub_sym (x y : float) : fabs (fsub x y) = fabs (fsub y x).
Proof.
  unfold fsub, SFsub.
  destruct x as [[]|[]| |sx mx ex], y as [[]|[]| |sy my ey]; try reflexivity.
  rewrite (Z.min_comm ey ex).
  rewrite <- binary_normalize_abs_opp. f_equal. f_equal. lia.
Qed.

Section Probability.

Context {R : Runtime}.

(** X14. The acceptance probability depends on the two efficiencies only through
    the size of their difference: exchanging them gives the same result (or
    the same exception); a zero temperature raises [ZeroDivisionError]. *)
Theorem get_probability_symmetric (candidate_efficiency current_efficiency temp : float) :
  get_probability candidate_efficiency current_efficiency temp
  = get_probability current_efficiency candidate_efficiency temp /\
  (is_zero temp = true ->
   get_probability candidate_efficiency current_efficiency temp
   = Raise ZeroDivisionError).
Proof.
  unfold get_probability. split.
  - now rewrite fabs_fsub_sym.
  - intros Hz. unfold fdiv. rewrite Hz. reflexivity.
Qed.

End Probability.

(** ** The improvement *)

Lemma fsub_diag (s : bool) (m : positive) (e : Z) :
  fsub (S754_finite s m e) (S754_finite s m e) = fzero.
Proof.
  unfold fsub, SFsub. rewrite Z.min_id, Z.sub_diag. reflexivity.
Qed.

(** X15. When the annealing found nothing better than the starting tour (the best
    efficiency is the starting one, a finite positive number) the improvement
    is zero; when the starting efficiency is zero the computation raises
    [ZeroDivisionError], whatever the best efficiency. *)
Theorem get_efficiency_improvement_edges :
  (forall m e,
     get_efficiency_improvement (S754_finite false m e) (S754_finite false m e)
     = Ok fzero) /\
  (forall initial_efficiency best,
     is_zero initial_efficiency = true ->
     get_efficiency_improvement initial_efficiency best = Raise ZeroDivisionError).
Proof.
  split.
  - intros m e. unfold get_efficiency_improvement. rewrite fsub_diag. reflexivity.
  - intros x best Hz. unfold get_efficiency_improvement, fdiv. rewrite Hz. reflexivity.
Qed.

Lemma mapM_const {A B : Type} (f : A -> res B) (l : list A) (b : B) :
  (forall a, In a l -> f a = Ok b) -> mapM f l = Ok (repeat b (List.length l)).
Proof.
  induction l as [|a l IH]; intros H; simpl; [reflexivity|].
  rewrite H by (now left). cbn [bind]. rewrite IH; [reflexivity|].
  intros a' Ha'. apply H. now right.
Qed.

Lemma fold_fadd_zeros (k : nat) : fold_left fadd (repeat fzero k) fzero = fzero.
Proof. induction k as [|k IH]; [reflexivity|]. simpl. exact IH. Qed.

Section AllAtOnePlace.

Context {R : Runtime}.

(** X16. When all the cities are at one place, every tour has efficiency zero and
    the improvement over it cannot be computed: [get_efficiency_improvement]
    raises [ZeroDivisionError]. *)
Theorem coincident_cities_improvement (coordinates : list point)
    (distances_list : list (list float)) (tour : list Z) (p : point) :
  pow_zero R ->
  get_distances_list coordinates = Ok distances_list ->
  (forall q, In q coordinates -> q = p) ->
  1 <= len coordinates ->
  Permutation tour (range (len coordinates)) ->
  get_efficiency tour distances_list (len coordinates) = Ok fzero /\
  forall best, get_efficiency_improvement fzero best = Raise ZeroDivisionError.
Proof.
  intros Hzero Hm Hall Hn Hperm.
  split; [|intros best; reflexivity].
  destruct (permutation_cities tour (len coordinates)) as (Hlen & Hcities);
    [lia|assumption|].
  assert (Hentry : forall a b, 0 <= a < len coordinates -> 0 <= b < len coordinates ->
                               entry distances_list a b = Ok fzero).
  { intros a b Ha Hb.
    destruct (get_distances_list_entry _ _ a b Hm Ha Hb)
      as (pa & pb & d & Ga & Gb & Hd & ->).
    apply getitem_ok in Ga, Gb; try lia. apply nth_error_In in Ga, Gb.
    rewrite (Hall pa Ga), (Hall pb Gb) in Hd.
    rewrite i_to_j_diag in Hd by assumption. congruence. }
  pose proof Hcities as Hc. unfold cities in Hc. rewrite Forall_forall in Hc.
  assert (Hne : tour <> []).
  { intros ->. change (len (@nil Z)) with 0 in Hlen. lia. }
  rewrite (get_efficiency_closed distances_list (len coordinates) tour Hlen Hcities)
    with (ds := repeat fzero (List.length (consecutive tour))) (back := fzero).
  - rewrite fold_left_app, fold_fadd_zeros. reflexivity.
  - intros a b Ha Hb. now rewrite !Hentry.
  - lia.
  - apply mapM_const. intros [a b] Hab. apply in_consecutive in Hab.
    destruct Hab as (Ha & Hb). apply Hentry; auto.
  - apply Hentry; apply Hc.
    + destruct (exists_last Hne) as (l' & x & ->). rewrite last_last.
      apply in_or_app. right. now left.
    + destruct tour; [congruence|now left].
Qed.

End AllAtOnePlace.

Lemma coincident_cities_improvement_witness :
  get_efficiency [2; 0; 1]
    [[fzero; fzero; fzero]; [fzero; fzero; fzero]; [fzero; fzero; fzero]]
    (len [(7, 7); (7, 7); (7, 7)]) = Ok fzero /\
  forall best, get_efficiency_improvement fzero best = Raise ZeroDivisionError.
Proof.
  apply (@coincident_cities_improvement Sample.runtime [(7, 7); (7, 7); (7, 7)]
           [[fzero; fzero; fzero]; [fzero; fzero; fzero]; [fzero; fzero; fzero]]
           [2; 0; 1] (7, 7)).
  - reflexivity.
  - vm_compute. reflexivity.
  - intros q Hq. simpl in Hq. destruct Hq as [<-|[<-|[<-|[]]]]; reflexivity.
  - vm_compute. discriminate.
  - change (range (len [(7, 7); (7, 7); (7, 7)])) with [0; 1; 2].
    apply (Permutation_cons_app [0; 1] [] 2). reflexivity.
Defined.

(** ** The drawing of the route *)

Lemma calls_until_map {A : Type} (f : A -> res plot_call) (g : A -> plot_call)
    (l : list A) :
  (forall a, In a l -> f a = Ok (g a)) -> calls_until f l = (map g l, Ok tt).
Proof.
  induction l as [|a l IH]; intros H; simpl; [reflexivity|].
  rewrite H by (now left). rewrite IH; [reflexivity|].
  intros a' Ha'. apply H. now right.
Qed.

Lemma getitem_map {A B : Type} (f : A -> B) (l : list A) (k : Z) (x : A) :
  getitem l k = Ok x -> getitem (map f l) k = Ok (f x).
Proof.
  unfold getitem, len. rewrite length_map.
  destruct (_ && _); [|discriminate].
  rewrite nth_error_map. destruct (nth_error l _); [|discriminate].
  intros H. injection H as <-. reflexivity.
Qed.

Lemma getitem_nth {A : Type} (l : list A) (k : nat) (d : A) :
  (k < List.length l)%nat -> getitem l (Z.of_nat k) = Ok (nth k l d).
Proof.
  intros Hk. apply getitem_ok; [lia|]. rewrite Nat2Z.id.
  now apply nth_error_nth'.
Qed.

Lemma getitem_last {A : Type} (l : list A) (d : A) :
  l <> [] -> getitem l (-1) = Ok (last l d).
Proof.
  intros Hne. destruct (exists_last Hne) as (l' & x & ->). rewrite last_last.
  unfold getitem. change (-1 <? 0) with true. cbv iota.
  rewrite len_app. change (len [x]) with 1.
  pose proof (len_nonneg l') as Hl.
  replace (-1 + (len l' + 1)) with (len l') by lia.
  replace (0 <=? len l') with true by (symmetry; apply Z.leb_le; lia).
  replace (len l' <? len l' + 1) with true by (symmetry; apply Z.ltb_lt; lia).
  cbn [andb]. unfold len. rewrite Nat2Z.id, nth_error_app2, Nat.sub_diag by lia.
  reflexivity.
Qed.

Lemma arrow_between_ok (pts : list point) (a b : Z) (p q : point) :
  getitem pts a = Ok p -> getitem pts b = Ok q ->
  arrow_between (map fst pts) (map snd pts) a b = Ok (arrow_from_to p q).
Proof.
  intros Ha Hb. unfold arrow_between.
  rewrite (getitem_map fst pts a p Ha), (getitem_map snd pts a p Ha),
    (getitem_map fst pts b q Hb), (getitem_map snd pts b q Hb).
  reflexivity.
Qed.

Lemma combine_tl_seq {A : Type} (l : list A) (d : A) :
  combine l (tl l)
  = map (fun k => (nth k l d, nth (S k) l d)) (seq 0 (List.length l - 1)).
Proof.
  induction l as [|p l IH]; [reflexivity|].
  destruct l as [|q r]; [reflexivity|].
  cbn [tl] in *. change (combine (p :: q :: r) (q :: r))
    with ((p, q) :: combine (q :: r) r).
  rewrite IH.
  replace (List.length (p :: q :: r) - 1)%nat
    with (S (List.length (q :: r) - 1)) by (simpl; lia).
  cbn [seq map nth]. f_equal. rewrite <- seq_shift, map_map. reflexivity.
Qed.

Lemma last_cons {A : Type} (x y : A) (l : list A) (d d' : A) :
  last (x :: y :: l) d = last (y :: l) d'.
Proof.
  revert x y. induction l as [|z l IH]; intros x y; [reflexivity|].
  change (last (x :: y :: z :: l) d) with (last (y :: z :: l) d).
  change (last (y :: z :: l) d') with (last (z :: l) d').
  rewrite <- (IH y z). reflexivity.
Qed.

(** The displacements along a path add up to the displacement between its
    ends. *)
Lemma path_telescopes (f : point -> Z) (p : point) (pts : list point) :
  fold_right Z.add 0
    (map (fun pq => f (snd pq) - f (fst pq)) (combine (p :: pts) pts))
  = f (last (p :: pts) p) - f p.
Proof.
  revert p. induction pts as [|q r IH]; intros p; [simpl; lia|].
  change (combine (p :: q :: r) (q :: r)) with ((p, q) :: combine (q :: r) r).
  cbn [map fold_right fst snd]. rewrite IH, (last_cons p q r p q). lia.
Qed.

Lemma arrows_loop (pts : list point) :
  calls_until (fun i => arrow_between (map fst pts) (map snd pts) i (i + 1))
    (range (len (map fst pts) - 1))
  = (map (fun pq => arrow_from_to (fst pq) (snd pq)) (combine pts (tl pts)), Ok tt).
Proof.
  unfold len. rewrite length_map.
  rewrite (calls_until_map _
             (fun i => arrow_from_to (nth (Z.to_nat i) pts (0, 0))
                                     (nth (S (Z.to_nat i)) pts (0, 0)))).
  - change (@List.length (Z * Z) pts) with (@List.length point pts).
    assert (E : range (Z.of_nat (List.length pts) - 1)
                = map Z.of_nat (seq 0 (List.length pts - 1))).
    { unfold range. do 2 f_equal. lia. }
    rewrite E, (combine_tl_seq pts (0, 0)), !map_map.
    apply (f_equal (fun l => (l, Ok tt))).
    apply map_ext. intros k. rewrite Nat2Z.id. reflexivity.
  - intros k Hk. apply in_range in Hk.
    change (@List.length (Z * Z) pts) with (@List.length point pts) in Hk.
    apply arrow_between_ok.
    + rewrite <- (Z2Nat.id k) at 1 by lia. apply getitem_nth. lia.
    + replace (k + 1) with (Z.of_nat (S (Z.to_nat k))) by lia.
      apply getitem_nth. lia.
Qed.

Lemma draw_graphs_calls (best_solution : list Z) (efficiency_list : list float)
    (coordinates : list point) :
  best_solution <> [] -> cities best_solution (len coordinates) ->
  exists pts,
    mapM (fun i => getitem coordinates i) best_solution = Ok pts /\
    List.length pts = List.length best_solution /\
    draw_graphs best_solution efficiency_list coordinates
    = ([Plot efficiency_list; YLabel "Efficiency"; XLabel "Iteration"; Show;
        PlotPoints (map fst pts) (map snd pts) "co"]
       ++ (arrow_from_to (last pts (0, 0)) (hd (0, 0) pts)
           :: map (fun pq => arrow_from_to (fst pq) (snd pq)) (combine pts (tl pts)))
       ++ [Show], Ok tt).
Proof.
  intros Hne Hcities.
  destruct (mapM_total (fun i => getitem coordinates i) best_solution) as (pts & Hpts).
  { intros a Ha. unfold cities in Hcities. rewrite Forall_forall in Hcities.
    destruct (getitem_in_range coordinates a (Hcities a Ha)) as (x & Hx & _). eauto. }
  pose proof (mapM_length _ _ _ Hpts) as Hlen.
  assert (Hpne : pts <> []).
  { intros ->. destruct best_solution; [congruence|discriminate]. }
  exists pts. split; [assumption|]. split; [assumption|].
  unfold draw_graphs. rewrite Hpts.
  rewrite (arrow_between_ok pts (-1) 0 (last pts (0, 0)) (hd (0, 0) pts)).
  - rewrite arrows_loop. reflexivity.
  - now apply getitem_last.
  - destruct pts; [congruence|reflexivity].
Qed.

Lemma arrows_count (pts : list point) :
  pts <> [] ->
  S (List.length (map (fun pq => arrow_from_to (fst pq) (snd pq)) (combine pts (tl pts))))
  = List.length pts.
Proof.
  intros Hne. destruct pts as [|p0 rest]; [congruence|].
  rewrite length_map, length_combine. cbn [tl List.length].
  rewrite Nat.min_r by lia. reflexivity.
Qed.

(** X17. For a best tour that is not empty and whose cities are indices of the
    coordinates, [draw_graphs] completes: after the efficiency graph and the
    cities it draws one arrow per city, first the arrow from the last city
    to the first and then the arrows from each city to the next, and the
    arrows form a closed route (their displacements add up to zero). *)
Theorem draw_graphs_route (best_solution : list Z) (efficiency_list : list float)
    (coordinates : list point) :
  best_solution <> [] -> cities best_solution (len coordinates) ->
  exists pts arrows,
    mapM (fun i => getitem coordinates i) best_solution = Ok pts /\
    draw_graphs best_solution efficiency_list coordinates
    = ([Plot efficiency_list; YLabel "Efficiency"; XLabel "Iteration"; Show;
        PlotPoints (map fst pts) (map snd pts) "co"] ++ arrows ++ [Show], Ok tt) /\
    arrows = arrow_from_to (last pts (0, 0)) (hd (0, 0) pts)
             :: map (fun pq => arrow_from_to (fst pq) (snd pq)) (combine pts (tl pts)) /\
    List.length arrows = List.length best_solution /\
    fold_right Z.add 0 (map arrow_dx arrows) = 0 /\
    fold_right Z.add 0 (map arrow_dy arrows) = 0.
Proof.
  intros Hne Hcities.
  destruct (draw_graphs_calls best_solution efficiency_list coordinates Hne Hcities)
    as (pts & Hpts & Hlen & Hd).
  assert (Hpne : pts <> []).
  { intros ->. destruct best_solution; [congruence|discriminate]. }
  exists pts.
  exists (arrow_from_to (last pts (0, 0)) (hd (0, 0) pts)
          :: map (fun pq => arrow_from_to (fst pq) (snd pq)) (combine pts (tl pts))).
  split; [assumption|]. split; [exact Hd|]. split; [reflexivity|].
  split; [|split].
  - cbn [List.length]. rewrite (arrows_count pts Hpne). exact Hlen.
  - destruct pts as [|p0 rest]; [congruence|].
    cbn [map fold_right arrow_dx arrow_from_to]. rewrite map_map.
    rewrite (map_ext _ (fun pq : point * point => fst (snd pq) - fst (fst pq)))
      by reflexivity.
    cbn [tl hd]. rewrite (path_telescopes fst p0 rest).
    destruct rest as [|q r]; [simpl; lia|].
    rewrite (last_cons p0 q r (0, 0) p0), (last_cons p0 q r p0 p0). lia.
  - destruct pts as [|p0 rest]; [congruence|].
    cbn [map fold_right arrow_dy arrow_from_to]. rewrite map_map.
    rewrite (map_ext _ (fun pq : point * point => snd (snd pq) - snd (fst pq)))
      by reflexivity.
    cbn [tl hd]. rewrite (path_telescopes snd p0 rest).
    destruct rest as [|q r]; [simpl; lia|].
    rewrite (last_cons p0 q r (0, 0) p0), (last_cons p0 q r p0 p0). lia.
Qed.

(** An empty tour: the efficiency graph is shown and the cities plotted, then
    [xs[-1]] raises. *)
Lemma draw_graphs_empty (efficiency_list : list float) (coordinates : list point) :
  draw_graphs [] efficiency_list coordinates
  = ([Plot efficiency_list; YLabel "Efficiency"; XLabel "Iteration"; Show;
      PlotPoints [] [] "co"], Raise IndexError).
Proof. reflexivity. Qed.

Lemma draw_graphs_route_witness :
  exists pts arrows,
    mapM (fun i => getitem triangle i) [1; 0; 2] = Ok pts /\
    draw_graphs [1; 0; 2] [f12] triangle
    = ([Plot [f12]; YLabel "Efficiency"; XLabel "Iteration"; Show;
        PlotPoints (map fst pts) (map snd pts) "co"] ++ arrows ++ [Show], Ok tt) /\
    arrows = arrow_from_to (last pts (0, 0)) (hd (0, 0) pts)
             :: map (fun pq => arrow_from_to (fst pq) (snd pq)) (combine pts (tl pts)) /\
    List.length arrows = List.length [1; 0; 2] /\
    fold_right Z.add 0 (map arrow_dx arrows) = 0 /\
    fold_right Z.add 0 (map arrow_dy arrows) = 0.
Proof.
  apply (draw_graphs_route [1; 0; 2] [f12] triangle).
  - discriminate.
  - repeat constructor; vm_compute; discriminate.
Defined.

(** ** What the trace records *)

Section TraceOfTours.

Context {R : Runtime}.

Variable coordinates : list point.
Variable distances_list : list (list float).
Variable solution : list Z.
Variable start : float.
Variable t : tape.

(** X18. When the starting efficiency is the efficiency of the starting tour,
    the current efficiency is the efficiency of the current tour after every
    iteration, it is the last value of the trace, and every value of the
    trace, also of the trace returned, is the efficiency of some
    rearrangement of the starting tour. *)
Theorem efficiency_list_of_tours :
  get_efficiency solution distances_list (len coordinates) = Ok start ->
  (forall st0 s,
     sa_init coordinates solution start = Ok st0 ->
     sa_reaches distances_list (len coordinates) (st0, t) s ->
     get_efficiency (current_solution (fst s)) distances_list (len coordinates)
     = Ok (current_efficiency (fst s)) /\
     last (efficiency_list (fst s)) start = current_efficiency (fst s) /\
     forall x, In x (efficiency_list (fst s)) ->
       exists tour, Permutation solution tour /\
                    get_efficiency tour distances_list (len coordinates) = Ok x) /\
  (forall best trace beff t',
     do_simulated_annealing coordinates distances_list solution start t
     = Some (Ok (best, trace, beff, t')) ->
     forall x, In x trace ->
       exists tour, Permutation solution tour /\
                    get_efficiency tour distances_list (len coordinates) = Ok x).
Proof.
  intros He.
  assert (Hreach : forall st0 s,
            sa_init coordinates solution start = Ok st0 ->
            sa_reaches distances_list (len coordinates) (st0, t) s ->
            Permutation solution (current_solution (fst s)) /\
            get_efficiency (current_solution (fst s)) distances_list (len coordinates)
            = Ok (current_efficiency (fst s)) /\
            last (efficiency_list (fst s)) start = current_efficiency (fst s) /\
            forall x, In x (efficiency_list (fst s)) ->
              exists tour, Permutation solution tour /\
                           get_efficiency tour distances_list (len coordinates) = Ok x).
  { intros st0 s H0 Hr.
    apply (sa_reaches_inv distances_list (len coordinates)
             (fun st =>
                Permutation solution (current_solution st) /\
                get_efficiency (current_solution st) distances_list (len coordinates)
                = Ok (current_efficiency st) /\
                last (efficiency_list st) start = current_efficiency st /\
                forall x, In x (efficiency_list st) ->
                  exists tour, Permutation solution tour /\
                               get_efficiency tour distances_list (len coordinates) = Ok x)
             (st0, t) s); [|assumption|].
    - intros st t1 st' t2 (Hp & Hg & _ & Hall) _ Hbody.
      destruct (sa_body_cases _ _ _ _ _ _ Hbody)
        as (c & ce & Hpc & Hce & Hl & Hcur & _).
      assert (Hsc : Permutation solution c) by (now rewrite Hp).
      assert (Hnew : Permutation solution (current_solution st') /\
                     get_efficiency (current_solution st') distances_list
                       (len coordinates) = Ok (current_efficiency st')).
      { destruct Hcur as [(-> & ->)|(-> & ->)]; split; assumption. }
      destruct Hnew as (Hp' & Hg').
      split; [assumption|]. split; [assumption|]. rewrite Hl. split.
      + apply last_last.
      + intros x Hx. apply in_app_or in Hx. destruct Hx as [Hx|[<-|[]]].
        * now apply Hall.
        * exists (current_solution st'). split; assumption.
    - cbn [fst]. destruct (sa_init_ok _ _ _ st0 H0) as (-> & _ & -> & _ & -> & _).
      split; [reflexivity|]. split; [assumption|]. split; [reflexivity|].
      intros x [<-|[]]. exists solution. split; [reflexivity|assumption]. }
  split.
  - intros st0 s H0 Hr. destruct (Hreach st0 s H0 Hr) as (_ & H). exact H.
  - intros best trace beff t' H.
    destruct (do_simulated_annealing_ok _ _ _ _ _ _ _ _ _ H)
      as (st0 & st & H0 & _ & Hr & _ & _ & -> & _).
    destruct (Hreach st0 (st, t') H0 Hr) as (_ & _ & _ & Hall). exact Hall.
Qed.

End TraceOfTours.

Lemma efficiency_list_of_tours_witness :
  (forall st0 s,
     sa_init triangle [1; 0; 2] f12 = Ok st0 ->
     @sa_reaches Sample.runtime triangle_matrix (len triangle) (st0, fun _ => 0) s ->
     get_efficiency (current_solution (fst s)) triangle_matrix (len triangle)
     = Ok (current_efficiency (fst s)) /\
     last (efficiency_list (fst s)) f12 = current_efficiency (fst s) /\
     forall x, In x (efficiency_list (fst s)) ->
       exists tour, Permutation [1; 0; 2] tour /\
                    get_efficiency tour triangle_matrix (len triangle) = Ok x) /\
  (forall best trace beff t',
     @do_simulated_annealing Sample.runtime triangle triangle_matrix [1; 0; 2] f12
       (fun _ => 0) = Some (Ok (best, trace, beff, t')) ->
     forall x, In x trace ->
       exists tour, Permutation [1; 0; 2] tour /\
                    get_efficiency tour triangle_matrix (len triangle) = Ok x).
Proof.
  apply (@efficiency_list_of_tours Sample.runtime triangle triangle_matrix
           [1; 0; 2] f12 (fun _ => 0)).
  reflexivity.
Defined.

(** ** The random numbers of one iteration *)

Lemma perturb_draws (n : Z) (current candidate : list Z) (t t1 : tape) :
  perturb n current t = Ok (candidate, t1) -> t1 = tape_tail (tape_tail t).
Proof.
  unfold perturb. intros H.
  apply bind_ok in H. destruct H as ([num_a ta] & Ea & H).
  apply bind_ok in H. destruct H as ([num_b tb] & Eb & H).
  injection H as _ <-.
  apply randint_ok in Ea, Eb. destruct Ea as (_ & ->). destruct Eb as (_ & ->).
  reflexivity.
Qed.

Section Draws.

Context {R : Runtime}.

(** X19. One iteration that completes draws two integers for the segment and,
    exactly when the candidate is not strictly better than the current tour,
    one more number for the acceptance test.  A strictly better candidate
    always becomes the current tour.  The counter goes up by one and the
    temperature is multiplied by 0.995. *)
Theorem sa_body_draws (distances_list : list (list float)) (n : Z)
    (st st' : sa_state) (t t' : tape) :
  sa_body distances_list n st t = Ok (st', t') ->
  exists candidate ce,
    perturb n (current_solution st) t = Ok (candidate, tape_tail (tape_tail t)) /\
    get_efficiency candidate distances_list n = Ok ce /\
    (if flt ce (current_efficiency st)
     then t' = tape_tail (tape_tail t) /\
          current_solution st' = candidate /\ current_efficiency st' = ce
     else t' = tape_tail (tape_tail (tape_tail t))) /\
    i st' = i st + 1 /\
    temperature st' = fmul (temperature st) cooling.
Proof.
  intros H.
  destruct (sa_body_ok _ _ _ _ _ _ H)
    as (c & ce & t1 & sa & Hp & Hce & Ha & Ht & Hc & Hcs & _ & _ & _ & Hi).
  pose proof (perturb_draws _ _ _ _ _ Hp) as ->.
  exists c, ce. split; [assumption|]. split; [assumption|].
  destruct (accept_ok _ _ _ _ _ _ Ha) as (Hta & _ & Hia & _).
  rewrite Ht, Hi, Hta, Hia, Hc, Hcs. split; [|split; reflexivity].
  unfold accept in Ha. destruct (flt ce (current_efficiency st)).
  - destruct (flt ce (best_efficiency st)); injection Ha as <- <-; cbn; auto.
  - unfold random_random in Ha. cbn [bind] in Ha.
    destruct (get_probability _ _ _) as [p|e]; cbn [bind] in Ha; [|discriminate].
    destruct (flt _ p); injection Ha as _ <-; reflexivity.
Qed.

End Draws.

Lemma sa_body_draws_witness :
  exists candidate ce,
    perturb 3 [1; 0; 2] (fun _ => 0) = Ok (candidate, tape_tail (tape_tail (fun _ => 0))) /\
    get_efficiency candidate triangle_matrix 3 = Ok ce /\
    (if flt ce f12
     then (fun _ : nat => 0) = tape_tail (tape_tail (fun _ => 0)) /\
          [0; 1; 2] = candidate /\ f12 = ce
     else (fun _ : nat => 0) = tape_tail (tape_tail (tape_tail (fun _ => 0)))) /\
    1 = 0 + 1 /\
    S754_finite false 7761461054696192 (-52)
    = fmul (S754_finite false 7800463371553962 (-52)) cooling.
Proof.
  apply (@sa_body_draws Sample.runtime triangle_matrix 3
           {| temperature := S754_finite false 7800463371553962 (-52);
              current_efficiency := f12;
              current_solution := [1; 0; 2];
              best_efficiency := f12;
              best_solution := [1; 0; 2];
              efficiency_list := [f12];
              i := 0 |}
           {| temperature := S754_finite false 7761461054696192 (-52);
              current_efficiency := f12;
              current_solution := [0; 1; 2];
              best_efficiency := f12;
              best_solution := [1; 0; 2];
              efficiency_list := [f12; f12];
              i := 1 |}
           (fun _ => 0) (fun _ => 0)).
  vm_compute. reflexivity.
Defined.

(** ** The report of the whole run *)

Section WholeReport.

Context {R : Runtime}.

Variable str : float -> string.

(** X20. After the starting tour is constructed for three or more cities,
    [my_main] prints the dashes and runs the annealing, which returns.  With
    a starting efficiency that is not zero the improvement is computed, the
    results are printed and [draw_graphs] completes with N + 6 plotting
    calls; with a starting efficiency of zero the improvement raises
    [ZeroDivisionError] before the results are printed and nothing is
    drawn. *)
Theorem my_main_report_completes (coordinates_file : list string) (t t1 : tape)
    (coordinates : list point) (distances_list : list (list float))
    (solution : list Z) (start : float) :
  exp_returns R ->
  prepare coordinates_file t = Ok (coordinates, distances_list, solution, start, t1) ->
  3 <= len coordinates ->
  (exists st0, sa_init coordinates solution start = Ok st0) ->
  exists best trace beff t2,
    do_simulated_annealing coordinates distances_list solution start t1
    = Some (Ok (best, trace, beff, t2)) /\
    (is_zero start = true ->
     my_main_report str coordinates_file t
     = Some ([Printed "-------------------"], Raise ZeroDivisionError)) /\
    (is_zero start = false ->
     exists improvement calls,
       get_efficiency_improvement start beff = Ok improvement /\
       draw_graphs best trace coordinates = (calls, Ok tt) /\
       List.length calls = (List.length coordinates + 6)%nat /\
       my_main_report str coordinates_file t
       = Some (Printed "-------------------"
               :: print_results str "Simulated Annealing" beff improvement
               :: map Draw calls, Ok tt)).
Proof.
  intros Hexp Hp Hn H0.
  destruct (prepared_run _ _ _ _ _ _ _ Hexp Hp Hn H0)
    as (best & trace & beff & t2 & Hrun & Hperm & _).
  exists best, trace, beff, t2. split; [assumption|]. split.
  - intros Hz. unfold my_main_report. rewrite Hp. cbv beta iota zeta. rewrite Hrun.
    unfold get_efficiency_improvement, fdiv. rewrite Hz. reflexivity.
  - intros Hz.
    destruct (permutation_cities best (len coordinates)) as (Hlen & Hcities);
      [lia|assumption|].
    assert (Hne : best <> []).
    { intros ->. change (len (@nil Z)) with 0 in Hlen. lia. }
    destruct (draw_graphs_calls best trace coordinates Hne Hcities)
      as (pts & Hpts & Hlp & Hd).
    assert (Hpne : pts <> []).
    { intros ->. destruct best; [congruence|discriminate]. }
    exists (py_round (SFdiv prec emax (fsub start beff) start) 4).
    eexists. split; [|split; [exact Hd|split]].
    + unfold get_efficiency_improvement, fdiv. rewrite Hz. reflexivity.
    + rewrite !length_app. cbn [List.length].
      pose proof (arrows_count pts Hpne) as Hc. unfold len in Hlen. lia.
    + unfold my_main_report. rewrite Hp. cbv beta iota zeta. rewrite Hrun.
      unfold get_efficiency_improvement, fdiv. rewrite Hz. cbn [bind].
      rewrite Hd. reflexivity.
Qed.

End WholeReport.

Lemma my_main_report_completes_witness :
  exists best trace beff t2,
    @do_simulated_annealing Sample.runtime triangle triangle_matrix [1; 0; 2] f12
      (fun _ => 1) = Some (Ok (best, trace, beff, t2)) /\
    (is_zero f12 = true ->
     @my_main_report Sample.runtime (fun _ => "12.0"%string)
       ["0 0"%string; "0 3"%string; "4 0"%string] (fun _ => 1)
     = Some ([Printed "-------------------"], Raise ZeroDivisionError)) /\
    (is_zero f12 = false ->
     exists improvement calls,
       get_efficiency_improvement f12 beff = Ok improvement /\
       draw_graphs best trace triangle = (calls, Ok tt) /\
       List.length calls = (List.length triangle + 6)%nat /\
       @my_main_report Sample.runtime (fun _ => "12.0"%string)
         ["0 0"%string; "0 3"%string; "4 0"%string] (fun _ => 1)
       = Some (Printed "-------------------"
               :: print_results (fun _ => "12.0"%string) "Simulated Annealing" beff
                    improvement
               :: map Draw calls, Ok tt)).
Proof.
  apply (@my_main_report_completes Sample.runtime (fun _ => "12.0"%string)
           ["0 0"; "0 3"; "4 0"]%string (fun _ => 1) (fun _ => 1)
           triangle triangle_matrix [1; 0; 2] f12).
  - exact sample_exp_returns.
  - vm_compute. reflexivity.
  - vm_compute. discriminate.
  - eexists. vm_compute. reflexivity.
Defined.
